(** * abipy.eph.varpeq: post-processing of VARPEQ.nc polaron results

    A shallow embedding of [abipy/eph/varpeq.py]: the netCDF reader, the
    per-spin [Polaron] container with its grid scatter, the BXSF and
    notebook writers, and the robot that sorts files by mesh density and
    extrapolates the energies.  Python exceptions are values of [exn],
    fallible code returns a [result], code that touches the file system
    threads a [filesystem]. *)

From Stdlib Require Import ZArith List Lia String Sorted Permutation QArith Qround Qabs.
From stdpp Require Import base list gmap strings sorting pretty.

Close Scope Q_scope.

(** ** Python layer: exceptions and the error monad *)

Inductive exn : Type :=
| NameError (name : string)
| AttributeError (attr : string)
| IndexError
| KeyError (key : string)
| ValueError (msg : string)
| TypeError
| OSError (path : string).

Inductive result (A : Type) : Type :=
| Ok (a : A)
| Raise (e : exn).
Arguments Ok {A} a.
Arguments Raise {A} e.

#[global] Instance result_ret : MRet result := λ A a, Ok a.
#[global] Instance result_bind : MBind result :=
  λ A B f m, match m with Ok a => f a | Raise e => Raise e end.
#[global] Instance result_fmap : FMap result :=
  λ A B f m, match m with Ok a => Ok (f a) | Raise e => Raise e end.

Definition raises {A} (m : result A) : Prop := ∃ e, m = Raise e.

(** [for x in xs: s = body(s, x)], stopping at the first exception. *)
Fixpoint for_each {A S} (body : S → A → result S) (xs : list A) (s : S) : result S :=
  match xs with
  | [] => Ok s
  | x :: xs' => s' ← body s x; for_each body xs' s'
  end.

(** [[f(x) for x in xs]], stopping at the first exception. *)
Fixpoint comprehension {A B} (f : A → result B) (xs : list A) : result (list B) :=
  match xs with
  | [] => Ok []
  | x :: xs' => y ← f x; ys ← comprehension f xs'; Ok (y :: ys)
  end.

(** [range(n)] for a Python int [n]: empty when [n <= 0]. *)
Definition range (n : Z) : list Z := seqZ 0 n.

(** [zip(xs, ys)] stops at the shorter argument. *)
Definition zip {A B} (xs : list A) (ys : list B) : list (A * B) := zip_with pair xs ys.

(** ** numpy layer: indexing, slicing, arrays *)

(** An index [i] into an axis of length [n]: negative indices count from the
    end, anything outside [-n, n) raises [IndexError]. *)
Definition np_index (n : nat) (i : Z) : result nat :=
  if decide (0 ≤ i < Z.of_nat n)%Z then Ok (Z.to_nat i)
  else if decide (- Z.of_nat n ≤ i < 0)%Z then Ok (Z.to_nat (i + Z.of_nat n))
  else Raise IndexError.

Definition getitem1 {A} (l : list A) (i : Z) : result A :=
  i' ← np_index (length l) i;
  match l !! i' with Some v => Ok v | None => Raise IndexError end.

(** The slice [:n] of an axis of length [len] keeps this many entries. *)
Definition slice_stop (len : nat) (n : Z) : nat :=
  if decide (0 ≤ n)%Z then Z.to_nat n `min` len else Z.to_nat (Z.of_nat len + n).

Definition slice_to {A} (n : Z) (l : list A) : list A := take (slice_stop (length l) n) l.

(** Two-dimensional arrays: the rows, and the length of axis 1 (kept apart so
    that an array with no row still has a shape). *)
Record array2 (A : Type) : Type := { ncol : nat; rows : list (list A) }.
Arguments ncol {A} a.
Arguments rows {A} a.
Arguments Build_array2 {A} ncol rows.

Definition shape2 {A} (a : array2 A) : nat * nat := (length (rows a), ncol a).

Definition array2_wf {A} (a : array2 A) : Prop :=
  Forall (λ r, length r = ncol a) (rows a).

(** [a[i, j]] *)
Definition getitem2 {A} (a : array2 A) (i j : Z) : result A :=
  i' ← np_index (length (rows a)) i;
  j' ← np_index (ncol a) j;
  match rows a !! i' ≫= (.!! j') with Some v => Ok v | None => Raise IndexError end.

(** [a[i, :]] *)
Definition row {A} (a : array2 A) (i : Z) : result (list A) := getitem1 (rows a) i.

(** [a[:, j]] *)
Definition column {A} (a : array2 A) (j : Z) : result (list A) :=
  j' ← np_index (ncol a) j;
  comprehension (λ r, match r !! j' with Some v => Ok v | None => Raise IndexError end) (rows a).

(** [a[:n]] and [a[:n, :m]] *)
Definition slice_rows {A} (n : Z) (a : array2 A) : array2 A :=
  {| ncol := ncol a; rows := slice_to n (rows a) |}.

Definition slice_rows_cols {A} (n m : Z) (a : array2 A) : array2 A :=
  {| ncol := slice_stop (ncol a) m; rows := take (slice_stop (ncol a) m) <$> slice_to n (rows a) |}.

(** Four-dimensional arrays in C order: the shape and the flat buffer. *)
Record array4 (A : Type) : Type := { dims : nat * nat * nat * nat; cells : list A }.
Arguments dims {A} a.
Arguments cells {A} a.
Arguments Build_array4 {A} dims cells.

Definition size4 (d : nat * nat * nat * nat) : nat :=
  let '(n0, n1, n2, n3) := d in n0 * n1 * n2 * n3.

Definition offset4 (d : nat * nat * nat * nat) (i0 i1 i2 i3 : nat) : nat :=
  let '(_, n1, n2, n3) := d in ((i0 * n1 + i1) * n2 + i2) * n3 + i3.

Definition check_shape (shape : Z * Z * Z * Z) : result (nat * nat * nat * nat) :=
  let '(n0, n1, n2, n3) := shape in
  if decide (0 ≤ n0 ∧ 0 ≤ n1 ∧ 0 ≤ n2 ∧ 0 ≤ n3)%Z
  then Ok (Z.to_nat n0, Z.to_nat n1, Z.to_nat n2, Z.to_nat n3)
  else Raise (ValueError "negative dimensions are not allowed").

(** [np.full(shape, c)] *)
Definition np_full {A} (shape : Z * Z * Z * Z) (c : A) : result (array4 A) :=
  d ← check_shape shape; Ok {| dims := d; cells := replicate (size4 d) c |}.

(** [np.empty(shape)]: the buffer is whatever the allocated block holds;
    [heap o] is the content found at offset [o] of that block. *)
Definition np_empty {A} (heap : nat → A) (shape : Z * Z * Z * Z) : result (array4 A) :=
  d ← check_shape shape; Ok {| dims := d; cells := heap <$> seq 0 (size4 d) |}.

Definition locate4 {A} (a : array4 A) (idx : Z * Z * Z * Z) : result nat :=
  let '(i0, i1, i2, i3) := idx in
  let '(n0, n1, n2, n3) := dims a in
  j0 ← np_index n0 i0; j1 ← np_index n1 i1; j2 ← np_index n2 i2; j3 ← np_index n3 i3;
  Ok (offset4 (dims a) j0 j1 j2 j3).

(** [a[i0, i1, i2, i3]] *)
Definition getitem4 {A} (a : array4 A) (idx : Z * Z * Z * Z) : result A :=
  o ← locate4 a idx;
  match cells a !! o with Some v => Ok v | None => Raise IndexError end.

(** [a[i0, i1, i2, i3] = v] *)
Definition setitem4 {A} (a : array4 A) (idx : Z * Z * Z * Z) (v : A) : result (array4 A) :=
  o ← locate4 a idx; Ok {| dims := dims a; cells := <[o := v]> (cells a) |}.

(** Element-wise map, as in [np.abs(a) ** 2]. *)
Definition map4 {A B} (f : A → B) (a : array4 A) : array4 B :=
  {| dims := dims a; cells := f <$> cells a |}.

(** The inner loop of both scatters of [Polaron]:
    [for c, inds in zip(col, indices): ix, iy, iz = inds; data[i, ix, iy, iz] = c]. *)
Definition scatter_column {A} (i : Z) (col : list A) (indices : list (Z * Z * Z))
    (data : array4 A) : result (array4 A) :=
  for_each (λ data '(c, (ix, iy, iz)), setitem4 data (i, ix, iy, iz) c) (zip col indices) data.

(** [np.prod] over an integer array accumulates in the platform integer
    (64 bits, two's complement). *)
Definition wrap64 (z : Z) : Z := ((z + 2 ^ 63) `mod` 2 ^ 64 - 2 ^ 63)%Z.

Definition np_prod3 (ngkpt : Z * Z * Z) : Z :=
  let '(nx, ny, nz) := ngkpt in wrap64 (wrap64 (nx * ny) * nz).

(** [d[k].append(v)] on a [defaultdict(list)]. *)
Definition append_to {A} (k : string) (v : A) (d : gmap string (list A)) : gmap string (list A) :=
  <[k := default [] (d !! k) ++ [v]]> d.

(** [d[k]] on a dict. *)
Definition getitem_dict {A} (d : gmap string A) (k : string) : result A :=
  match d !! k with Some v => Ok v | None => Raise (KeyError k) end.

(** ** Numbers

    Python floats and numpy complex numbers with the operations the module
    applies to them, and the two numpy routines behind the extrapolation.
    They are kept abstract: the module only moves these values around. *)

Class Numerics : Type := {
  float : Type;
  cplx : Type;
  of_int : Z → float;
  fsub : float → float → float;
  fabs : float → float;
  fmul : float → float → float;
  fdiv : float → float → float;
  fpow : float → float → float;
  to_cplx : float → cplx;          (* a float stored with [dtype=complex] *)
  abs2 : cplx → float;             (* [np.abs(z) ** 2] *)
  mean : list float → float;       (* [ndarray.mean()] *)
  Ha_eV : float;                   (* [abu.Ha_eV] *)
  Ang_Bohr : float;                (* [abu.Ang_Bohr] *)
  polyfit : list float → list float → nat → list float;  (* [np.polyfit(x, y, deg)] *)
  poly1d : list float → float → float;                   (* [np.poly1d(c)(x)] *)
}.

(** ** The entries of an iteration record (module level) *)

Record Entry : Type := { name : string; latex : string; info : string }.

Definition _ALL_ENTRIES : list (string * Entry) :=
  (λ e, (name e, e)) <$>
  [ {| name := "E_pol"; latex := "$E_{pol}$"; info := "" |};
    {| name := "E_el"; latex := "$E_{el}$"; info := "" |};
    {| name := "E_ph"; latex := "$E_{ph}$"; info := "" |};
    {| name := "elph"; latex := "$E_{elph}$"; info := "" |};
    {| name := "epsilon"; latex := "$\varepsilon$"; info := "" |} ].

Definition keys {A} (d : list (string * A)) : list string := fst <$> d.

(** ** Data model *)

Section Data.
Context `{N : Numerics}.

(** [ebands.kpoints.ksampling]: [mpdivs] is [None] for a non-diagonal mesh. *)
Record KSampling : Type := { mpdivs : option (Z * Z * Z); shifts : list (list float) }.

(** The crystal structure, as far as the module looks at it: [len(structure)]
    and [structure.lattice.volume]. *)
Record Structure : Type := { natom : nat; volume : float }.

Record ElectronBands : Type := {
  eb_nsppol : Z;
  eb_ksampling : KSampling;
  eb_structure : Structure;
}.

(** The content of a VARPEQ.nc file: the dimension [nsppol] and the netCDF
    variables the module reads (see the docstring of [VarpeqReader.__init__]),
    complex arrays already paired up ([cmode="c"]), and the electron bands
    that [read_ebands] builds from the same file. *)
Record NcFile : Type := {
  dim_nsppol : nat;
  var_nk_spin : list Z;
  var_nq_spin : list Z;
  var_brange_spin : list (Z * Z);
  var_varpeq_pkind : string;
  var_gstore_ngqpt : Z * Z * Z;
  var_nstep2cv : list Z;
  var_iter_rec : list (array2 float);
  var_kpts_spin : list (array2 float);
  var_qpts_spin : list (array2 float);
  var_a_spin : list (array2 cplx);
  var_b_spin : list (array2 cplx);
  nc_ebands : ElectronBands;
}.

Record VarpeqReader : Type := {
  nc : NcFile;
  nsppol : nat;
  nk_spin : list Z;
  nq_spin : list Z;
  varpeq_pkind : string;
  ngqpt : Z * Z * Z;
  brange_spin : list (Z * Z);
  nb_spin : list Z;
}.

Record VarpeqFile : Type := { filepath : string; r : VarpeqReader }.

Record Polaron : Type := {
  spin : Z;
  nb : Z;
  nk : Z;
  nq : Z;
  bstart : Z;
  bstop : Z;
  kpoints : array2 float;
  qpoints : array2 float;
  a_kn : array2 cplx;
  b_qnu : array2 cplx;
  varpeq : VarpeqFile;
}.

(** The third component of what [insert_a_inbox] / [insert_b_inbox] return:
    the shifts of the k-sampling, or the literal list [[0, 0, 0]]. *)
Inductive shifts_t : Type :=
| ShiftArray (s : list (list float))
| ShiftList (s : list Z).

(** What a path of the file system holds. *)
Inductive file : Type :=
| NetCDF (content : NcFile)
| Bxsf (structure : Structure) (ngkpt : Z * Z * Z) (data : array4 float) (fermie : float)
| Notebook (cells : list string).

(** A matplotlib figure, as the list of what was drawn on its grid of axes. *)
Inductive drawing : Type :=
| Plot (irow icol : Z) (xs : list Z) (ys : list float) (label : string)
| SetYscale (irow icol : Z) (scale : string)
| SetXlim (irow icol : Z) (left right : Z)
| GridLegend (irow icol : Z) (xlabel title ylabel : string).

Record DataFrame : Type := {
  df_data : gmap string (list float);
  df_index : list Z;
  df_index_name : string;
}.

(** The dict that [get_kdata_spin] returns holds float arrays, integer arrays
    and arrays of meshes: one map per type of value. *)
Record KData : Type := {
  float_cols : gmap string (list float);
  int_cols : gmap string (list Z);
  mesh_cols : gmap string (list (Z * Z * Z));
}.

End Data.

Abbreviation filesystem := (gmap string file).

(** ** Collaborators that are not part of this module *)

(** [abipy.core.kpoints.kpoints_indices(frac_coords, ngkpt)]: the grid index
    of each point. *)
Class Kmesh `{N : Numerics} : Type := {
  kpoints_indices : array2 float → Z * Z * Z → list (Z * Z * Z);
}.

(** [abipy.tools.numtools.BzRegularGridInterpolator], which is not part of
    this module: the object built from a structure, the shifts and a box of
    [ndat] grids, and its method [eval_kpoint]. *)
Class RegularGridInterpolator `{K : Kmesh} : Type := {
  interpolator : Type;
  BzRegularGridInterpolator : Structure → shifts_t → array4 float → interpolator;
  eval_kpoint : interpolator → list float → result (list float);
}.

(** ** The reader and the file *)

Section Model.
Context `{K : Kmesh}.

(** [VarpeqReader.__init__]: the band range is stored with Fortran indexing;
    its start is shifted in place and [nb_spin] is computed from the result. *)
Definition VarpeqReader_init (content : NcFile) : VarpeqReader :=
  let brange := (λ b : Z * Z, (b.1 - 1, b.2)%Z) <$> var_brange_spin content in
  {| nc := content;
     nsppol := dim_nsppol content;
     nk_spin := var_nk_spin content;
     nq_spin := var_nq_spin content;
     varpeq_pkind := var_varpeq_pkind content;
     ngqpt := var_gstore_ngqpt content;
     brange_spin := brange;
     nb_spin := (λ b : Z * Z, (b.2 - b.1)%Z) <$> brange |}.

Definition VarpeqFile_init (path : string) (content : NcFile) : VarpeqFile :=
  {| filepath := path; r := VarpeqReader_init content |}.

Definition ebands (self : VarpeqFile) : ElectronBands := nc_ebands (nc (r self)).

Definition structure (self : VarpeqFile) : Structure := eb_structure (ebands self).

(** [Polaron.from_varpeq] *)
Definition from_varpeq (varpeq : VarpeqFile) (spin : Z) : result Polaron :=
  let r := r varpeq in
  nk ← getitem1 (nk_spin r) spin;
  nq ← getitem1 (nq_spin r) spin;
  nb ← getitem1 (nb_spin r) spin;
  '(bstart, bstop) ← getitem1 (brange_spin r) spin;
  kpoints ← slice_rows nk <$> getitem1 (var_kpts_spin (nc r)) spin;
  qpoints ← slice_rows nq <$> getitem1 (var_qpts_spin (nc r)) spin;
  a_kn ← slice_rows_cols nk nb <$> getitem1 (var_a_spin (nc r)) spin;
  b_qnu ← slice_rows nq <$> getitem1 (var_b_spin (nc r)) spin;
  Ok {| spin := spin; nb := nb; nk := nk; nq := nq; bstart := bstart; bstop := bstop;
        kpoints := kpoints; qpoints := qpoints; a_kn := a_kn; b_qnu := b_qnu;
        varpeq := varpeq |}.

(** [VarpeqFile.polaron_spin] *)
Definition polaron_spin (self : VarpeqFile) : result (list Polaron) :=
  comprehension (from_varpeq self) (range (Z.of_nat (nsppol (r self)))).

(** [VarpeqFile.get_last_iteration_dict_ev]; the dict is the list of its
    items, in the order [dict(zip(...))] inserts them. *)
Definition get_last_iteration_dict_ev (self : VarpeqFile) (spin : Z) : result (list (string * float)) :=
  let nstep2cv_spin := var_nstep2cv (nc (r self)) in
  let iter_rec_spin := var_iter_rec (nc (r self)) in
  nstep2cv ← getitem1 nstep2cv_spin spin;
  iter_rec ← getitem1 iter_rec_spin spin;
  last_iteration ← (λ rec, (λ x, fmul x Ha_eV) <$> rec) <$> row iter_rec (nstep2cv - 1);
  Ok (zip (keys _ALL_ENTRIES) last_iteration).

(** ** Polaron: the grid boxes *)

(** [Polaron.ngkpt_and_shifts] *)
Definition ngkpt_and_shifts (self : Polaron) : result ((Z * Z * Z) * list (list float)) :=
  let ksampling := eb_ksampling (ebands (varpeq self)) in
  match mpdivs ksampling with
  | None => Raise (ValueError "Non diagonal k-meshes are not supported!")
  | Some ngkpt =>
      if decide (1 < length (shifts ksampling))
      then Raise (ValueError "Multiple k-shifts are not supported!")
      else Ok (ngkpt, shifts ksampling)
  end.

(** [Polaron.insert_a_inbox]; [heap] is what [np.empty] finds in memory. *)
Definition insert_a_inbox (heap : nat → cplx) (self : Polaron) (fill_value : option cplx)
    : result (array4 cplx * (Z * Z * Z) * shifts_t) :=
  '(ngkpt, shifts) ← ngkpt_and_shifts self;
  let k_indices := kpoints_indices (kpoints self) ngkpt in
  let '(nx, ny, nz) := ngkpt in
  let shape := (nb self, nx, ny, nz) in
  a_data ← match fill_value with
           | None => np_empty heap shape
           | Some c => np_full shape c
           end;
  a_data ← for_each (λ a_data ib,
                       col ← column (a_kn self) ib;
                       scatter_column ib col k_indices a_data)
                    (range (nb self)) a_data;
  Ok (a_data, ngkpt, ShiftArray shifts).

(** [Polaron.insert_b_inbox] *)
Definition insert_b_inbox (heap : nat → cplx) (self : Polaron) (fill_value : option cplx)
    : result (array4 cplx * (Z * Z * Z) * shifts_t) :=
  let ngqpt := ngqpt (r (varpeq self)) in
  let shifts := ShiftList [0; 0; 0]%Z in
  let q_indices := kpoints_indices (qpoints self) ngqpt in
  let natom3 := (3 * Z.of_nat (natom (structure (varpeq self))))%Z in
  let '(nx, ny, nz) := ngqpt in
  let shape := (natom3, nx, ny, nz) in
  b_data ← match fill_value with
           | None => np_empty heap shape
           | Some c => np_full shape c
           end;
  b_data ← for_each (λ b_data nu,
                       col ← column (b_qnu self) nu;
                       scatter_column nu col q_indices b_data)
                    (range natom3) b_data;
  Ok (b_data, ngqpt, shifts).

End Model.

(** ** Name resolution

    The names bound at module level (imports, classes, [_ALL_ENTRIES]) and the
    builtins the module calls; a name that is neither local nor in one of
    these raises [NameError]. *)

Definition module_globals : list string :=
  [ "annotations"; "dataclasses"; "np"; "pd"; "abu"; "defaultdict"; "marquee";
    "lazy_property"; "cprint"; "Function1D"; "Structure"; "kpoints_indices";
    "map_grid2ibz"; "kmesh_from_mpdivs"; "AbinitNcFile"; "Has_Structure";
    "Has_ElectronBands"; "NotebookWriter"; "PathLike"; "add_fig_kwargs";
    "get_ax_fig_plt"; "get_axarray_fig_plt"; "set_axlims"; "set_visible";
    "rotate_ticklabels"; "ax_append_title"; "set_ax_xylabels"; "linestyles";
    "Marker"; "set_grid_legend"; "ElectronBands"; "RobotWithEbands"; "PhononBands";
    "DdbFile"; "Figure"; "BzRegularGridInterpolator"; "gaussian"; "bxsf_write";
    "Robot"; "BaseEphReader"; "EffMassAnalyzer"; "FrohlichAnalyzer"; "Entry";
    "_ALL_ENTRIES"; "VarpeqFile"; "Polaron"; "VarpeqReader"; "VarpeqRobot" ].

Definition builtins : list string :=
  [ "abs"; "bool"; "dict"; "enumerate"; "len"; "list"; "locals"; "max"; "min";
    "print"; "range"; "str"; "super"; "zip"; "ValueError" ].

(** The objects that names and attributes denote, as far as the module
    only passes them on. *)
Inductive pyobj : Type :=
| Global (name : string)
| Attribute (class attr : string).

(** Modules, classes, functions, bound methods and the non-empty dict
    [_ALL_ENTRIES] are all true. *)
Definition truthy (o : pyobj) : bool := true.

Definition repr (o : pyobj) : string :=
  match o with Global n => n | Attribute c a => c +:+ "." +:+ a end.

Definition load_global (n : string) : result pyobj :=
  if decide (n ∈ module_globals ++ builtins) then Ok (Global n) else Raise (NameError n).

(** The attributes of a [VarpeqFile]: what the class body defines, and the
    members of its bases (AbinitNcFile, Has_Structure, Has_ElectronBands,
    NotebookWriter) that this module relies on. *)
Definition VarpeqFile_attrs : list string :=
  [ "from_file"; "__init__"; "r"; "ebands"; "structure"; "close"; "polaron_spin";
    "params"; "__str__"; "to_string"; "get_last_iteration_dict_ev"; "get_title_spin";
    "plot_scf_cycle"; "yield_figs"; "write_notebook";
    "filepath"; "filestat"; "nsppol"; "get_nbformat_nbv_nb"; "_write_nb_nbpath" ].

Definition getattr_VarpeqFile (attr : string) : result pyobj :=
  if decide (attr ∈ VarpeqFile_attrs) then Ok (Attribute "VarpeqFile" attr)
  else Raise (AttributeError attr).

(** ** Interpolators, titles and plots *)

Section Plots.
Context `{I : RegularGridInterpolator}.

(** [Polaron.get_a2_interpolator] and [Polaron.get_b2_interpolator] *)
Definition get_a2_interpolator (heap : nat → cplx) (self : Polaron) : result interpolator :=
  '(a_data, ngkpt, shifts) ← insert_a_inbox heap self None;
  Ok (BzRegularGridInterpolator (structure (varpeq self)) shifts (map4 abs2 a_data)).

Definition get_b2_interpolator (heap : nat → cplx) (self : Polaron) : result interpolator :=
  '(b_data, ngqpt, shifts) ← insert_b_inbox heap self None;
  Ok (BzRegularGridInterpolator (structure (varpeq self)) shifts (map4 abs2 b_data)).

End Plots.

Section Titles.
Context `{N : Numerics}.

(** [VarpeqFile.get_title_spin] *)
Definition get_title_spin (self : VarpeqFile) (spin : Z) : result string :=
  pre ← (if decide (eb_nsppol (ebands self) = 1%Z) then Ok ""
         else s ← getattr_VarpeqFile "spin"; Ok ("spin=" +:+ repr s));
  with_gaps ← load_global "with_gaps";
  if negb (truthy with_gaps)
  then Ok (pre +:+ varpeq_pkind (r self))
  else
    varpeq ← getattr_VarpeqFile "varpeq";
    let gaps_string := repr varpeq +:+ ".ebands.get_gaps_string()" in
    Ok (pre +:+ varpeq_pkind (r self) +:+ ", " +:+ gaps_string).

(** [ax.plot(xs, ys, label=...)] needs as many abscissas as ordinates. *)
Definition ax_plot (irow icol : Z) (xs : list Z) (ys : list float) (label : string)
    (fig : list drawing) : result (list drawing) :=
  if decide (length xs = length ys) then Ok (fig ++ [Plot irow icol xs ys label])
  else Raise (ValueError "x and y must have same first dimension").

(** [enumerate(xs)] *)
Definition enumerate {A} (xs : list A) : list (Z * A) := zip (range (Z.of_nat (length xs))) xs.

(** [VarpeqFile.plot_scf_cycle], on the [nsppol x 2] grid of axes that
    [get_axarray_fig_plt] hands back; the figure is the list of drawings. *)
Definition plot_scf_cycle (self : VarpeqFile) : result (list drawing) :=
  let nsppol := Z.of_nat (nsppol (r self)) in
  let nstep2cv_spin := var_nstep2cv (nc (r self)) in
  let iter_rec_spin := var_iter_rec (nc (r self)) in
  let '(nrows, ncols) := (nsppol, 2%Z) in
  for_each (λ fig spin,
    nstep2cv ← getitem1 nstep2cv_spin spin;
    iter_rec ← getitem1 iter_rec_spin spin;
    let iterations : array2 float :=
      {| ncol := ncol iter_rec;
         rows := (λ rec : list float, (λ x, fmul x Ha_eV) <$> rec)
                   <$> slice_to nstep2cv (rows iter_rec) |} in
    let xs := seqZ 1 nstep2cv in
    for_each (λ fig iax,
      fig ← for_each (λ fig '(ilab, (name, entry)),
               ys ← column iterations ilab;
               if decide (iax = 0%Z) then ax_plot spin iax xs ys (latex entry) fig
               else
                 last ← getitem1 ys (-1);
                 fig ← ax_plot spin iax xs ((λ y, fabs (fsub y last)) <$> ys) (latex entry) fig;
                 Ok (fig ++ [SetYscale spin iax "log"]))
             (enumerate _ALL_ENTRIES) fig;
      let fig := fig ++ [SetXlim spin iax 1 nstep2cv] in
      title ← get_title_spin self spin;
      Ok (fig ++ [GridLegend spin iax "Iteration" title
                    (if decide (iax = 0%Z) then "Energy (eV)" else "$|\Delta|$ Energy (eV)")]))
      (range ncols) fig)
    (range nrows) [].

End Titles.

(** ** The file system and the writers *)

(** [NotebookWriter], a base class that is not part of this module:
    [get_nbformat_nbv_nb] gives a new notebook (its first cells), and
    [_write_nb_nbpath] picks a temporary file name when [nbpath] is [None]. *)
Class NotebookWriter `{N : Numerics} : Type := {
  new_notebook : list string;
  mkstemp : filesystem → string;
}.

Section Effects.
Context `{I : RegularGridInterpolator} `{!NotebookWriter}.

(** Code that may touch the file system and may raise. *)
Definition io (A : Type) : Type := filesystem → result A * filesystem.

#[global] Instance io_ret : MRet io := λ A a fs, (Ok a, fs).
#[global] Instance io_bind : MBind io :=
  λ A B f m fs, match m fs with (Ok a, fs') => f a fs' | (Raise e, fs') => (Raise e, fs') end.

(** Code that does not touch the file system. *)
Definition pure {A} (m : result A) : io A := λ fs, (m, fs).

(** [VarpeqFile(filepath)]: the reader opens the netCDF file. *)
Definition from_file (path : string) : io VarpeqFile :=
  λ fs, match fs !! path with
        | Some (NetCDF content) => (Ok (VarpeqFile_init path content), fs)
        | _ => (Raise (OSError path), fs)
        end.

(** [abipy.iotools.bxsf_write], which is not part of this module: it writes
    the BXSF file [filepath]. *)
Definition bxsf_write (filepath : string) (structure : Structure) (nsppol : Z)
    (nband : pyobj) (ngkpt : Z * Z * Z) (data : array4 float) (fermie : float) : io unit :=
  λ fs, (Ok (), <[filepath := Bxsf structure ngkpt data fermie]> fs).

(** [Polaron.write_a2_bxsf]; the arguments of the last call are evaluated
    from left to right before [bxsf_write] runs. *)
Definition write_a2_bxsf (heap : nat → cplx) (self : Polaron) (filepath : string) : io unit :=
  '(a_data, ngkpt, shifts) ← pure (insert_a_inbox heap self (Some (to_cplx (of_int 0))));
  let nkbz := np_prod3 ngkpt in
  let a2_data := map4 abs2 a_data in
  let fermie := mean (cells a2_data) in
  num_states ← pure (load_global "num_states");
  bxsf_write filepath (structure (varpeq self)) 1 num_states ngkpt a2_data fermie.

(** [Polaron.write_b2_bxsf] *)
Definition write_b2_bxsf (heap : nat → cplx) (self : Polaron) (filepath : string) : io unit :=
  '(b_data, ngqpt, shifts) ← pure (insert_b_inbox heap self (Some (to_cplx (of_int 0))));
  (* nqbz = np.product(nqkpt): the argument is loaded first *)
  nqkpt ← pure (load_global "nqkpt");
  let nqbz := nqkpt in
  let b2_data := map4 abs2 b_data in
  let fermie := mean (cells b2_data) in
  num_states ← pure (load_global "num_states");
  bxsf_write filepath (structure (varpeq self)) 1 num_states ngqpt b2_data fermie.

(** [NotebookWriter._write_nb_nbpath]: "Write a jupyter notebook to nbpath.
    If nbpath is None, a temporary file in the current working directory is
    created.  Return path to the notebook." *)
Definition _write_nb_nbpath (nb : list string) (nbpath : option string) : io string :=
  λ fs, let path := default (mkstemp fs) nbpath in (Ok path, <[path := Notebook nb]> fs).

(** [VarpeqFile.write_notebook] *)
Definition write_notebook (self : VarpeqFile) (nbpath : option string) : io string :=
  let nb := new_notebook in
  let nb := nb ++ [ "varpeq = abilab.abiopen('" +:+ filepath self +:+ "')"; "print(varpeq)" ] in
  _write_nb_nbpath nb nbpath.

End Effects.

(** ** The robot *)

Section Robot.
Context `{N : Numerics}.

(** The files of a robot, with their labels, in the order they were added. *)
Definition VarpeqRobot : Type := list (string * VarpeqFile).

(** Modelled from the spec: [Robot.sortby(func, reverse=True, unpack=True)]
    belongs to the base class [abipy.abio.robots.Robot], which is not part
    of this module.  The spec says the robot "sorts by mesh density": the
    items come back by decreasing value of [func], items with equal values in
    their original order; values that cannot be compared raise [TypeError]. *)
Fixpoint insert_desc {A} (key : A → Z) (x : A) (l : list A) : list A :=
  match l with
  | [] => [x]
  | y :: l' => if decide (key x < key y)%Z then y :: insert_desc key x l' else x :: l
  end.

(** Modelled from the spec: the stable sort by decreasing key behind
    [Robot.sortby], by insertion from the right. *)
Definition sorted_desc {A} (key : A → Z) (l : list A) : list A := foldr (insert_desc key) [] l.

(** Modelled from the spec: [Robot.sortby(func, reverse=True, unpack=True)],
    which "sorts by mesh density"; a single item is never compared, so a
    [None] value only raises when there are two items or more. *)
Definition sortby (self : VarpeqRobot) (func : VarpeqFile → option Z)
    : result (list (string * VarpeqFile * option Z)) :=
  let items := (λ '(label, abifile), (label, abifile, func abifile)) <$> self in
  if decide (length items ≤ 1) then Ok items
  else
    _ ← comprehension (λ t : string * VarpeqFile * option Z,
           match t.2 with Some v => Ok v | None => Raise TypeError end) items;
    Ok (sorted_desc (λ t, default 0%Z t.2) items).

(** [sort_func] of [get_kdata_spin]: [np.prod] of the mesh divisions ([None]
    for a non-diagonal mesh, on which no arithmetic is defined). *)
Definition sort_func (abifile : VarpeqFile) : option Z :=
  np_prod3 <$> mpdivs (eb_ksampling (ebands abifile)).

(** The body of the loop of [get_kdata_spin] over the sorted files: the last
    iteration of the file, then its mesh, its number of points and its
    abscissa, each appended to its list of [data]. *)
Definition kdata_add (spin : Z) (data : KData) (item : string * VarpeqFile * option Z)
    : result KData :=
  let '(label, abifile, nktot) := item in
  d ← get_last_iteration_dict_ev abifile spin;
  let floats := foldl (λ cols '(k, v), append_to k v cols) (float_cols data) d in
  ngkpt ← match mpdivs (eb_ksampling (ebands abifile)) with
          | Some ngkpt => Ok ngkpt
          | None => Raise TypeError
          end;
  let nk_tot := np_prod3 ngkpt in
  let volume := volume (structure abifile) in
  let x := fdiv (of_int 1)
             (fmul (of_int nk_tot) (fpow volume (fdiv (of_int 1) (of_int 3)))) in
  Ok {| float_cols := append_to "xs_inv_bohr" x floats;
        int_cols := append_to "nk_tot" nk_tot (int_cols data);
        mesh_cols := append_to "ngkpt" ngkpt (mesh_cols data) |}.

(** [VarpeqRobot.get_kdata_spin] *)
Definition get_kdata_spin (self : VarpeqRobot) (spin : Z) : result KData :=
  sorted ← sortby self sort_func;
  for_each (kdata_add spin) sorted {| float_cols := ∅; int_cols := ∅; mesh_cols := ∅ |}.

(** The inner loop of [get_makov_payne_df_spin]: the intercept of the line
    fitted through the first [nn + 1] points, appended to [d[ylabel]]. *)
Definition fit_add (xs ys : list float) (ylabel : string) (d : gmap string (list float)) (nn : Z)
    : result (gmap string (list float)) :=
  let p := polyfit (slice_to (nn + 1) xs) (slice_to (nn + 1) ys) 1 in
  Ok (append_to ylabel (poly1d p (of_int 0)) d).

(** [VarpeqRobot.get_makov_payne_df_spin] *)
Definition get_makov_payne_df_spin (self : VarpeqRobot) (spin : Z) : result DataFrame :=
  kdata ← get_kdata_spin self spin;
  xs ← getitem_dict (float_cols kdata) "xs_inv_bohr";
  let len_xs := Z.of_nat (length xs) in
  d ← for_each (λ d ylabel,
         ys ← getitem_dict (float_cols kdata) ylabel;
         for_each (fit_add xs ys ylabel) (seqZ 1 (len_xs - 1)) d)
       (keys _ALL_ENTRIES) ∅;
  Ok {| df_data := d;
        df_index := (λ i, i + 1)%Z <$> seqZ 1 (len_xs - 1);
        df_index_name := "npts" |}.

(** [df.loc[label, column]] *)
Definition df_loc (df : DataFrame) (label : Z) (column : string) : option float :=
  i ← list_find (λ l, l = label) (df_index df);
  col ← df_data df !! column;
  col !! i.1.

End Robot.

Section RobotEffects.
Context `{I : RegularGridInterpolator} `{!NotebookWriter}.

(** [VarpeqRobot.write_notebook] *)
Definition robot_write_notebook (self : VarpeqRobot) (nbpath : option string) : io string :=
  let nb := new_notebook in
  let args := (λ '(l, f), "('" +:+ l +:+ "', '" +:+ filepath f +:+ "')") <$> self in
  let nb := nb ++ [ "robot = abilab.VarpeqRobot(*[" +:+ String.concat ", " args +:+ "])"
                    +:+ "\nrobot.trim_paths()\nrobot" ] in
  _write_nb_nbpath nb nbpath.

(** The operations of the module that are embedded here. *)
Inductive operation : Type :=
| Open (filepath : string)
| PolaronSpin (f : VarpeqFile)
| GetLastIterationDictEv (f : VarpeqFile) (spin : Z)
| GetTitleSpin (f : VarpeqFile) (spin : Z)
| PlotScfCycle (f : VarpeqFile)
| WriteNotebook (f : VarpeqFile) (nbpath : option string)
| FromVarpeq (f : VarpeqFile) (spin : Z)
| NgkptAndShifts (p : Polaron)
| InsertAInbox (p : Polaron) (fill_value : option cplx)
| InsertBInbox (p : Polaron) (fill_value : option cplx)
| GetA2Interpolator (p : Polaron)
| GetB2Interpolator (p : Polaron)
| WriteA2Bxsf (p : Polaron) (filepath : string)
| WriteB2Bxsf (p : Polaron) (filepath : string)
| GetKdataSpin (robot : VarpeqRobot) (spin : Z)
| GetMakovPayneDfSpin (robot : VarpeqRobot) (spin : Z)
| RobotWriteNotebook (robot : VarpeqRobot) (nbpath : option string).

Definition discard {A} (m : io A) : io unit := _ ← m; mret ().

(** One call, its value dropped: what it raises and what it leaves on disk. *)
Definition call (heap : nat → cplx) (op : operation) : io unit :=
  match op with
  | Open filepath => discard (from_file filepath)
  | PolaronSpin f => discard (pure (polaron_spin f))
  | GetLastIterationDictEv f spin => discard (pure (get_last_iteration_dict_ev f spin))
  | GetTitleSpin f spin => discard (pure (get_title_spin f spin))
  | PlotScfCycle f => discard (pure (plot_scf_cycle f))
  | WriteNotebook f nbpath => discard (write_notebook f nbpath)
  | FromVarpeq f spin => discard (pure (from_varpeq f spin))
  | NgkptAndShifts p => discard (pure (ngkpt_and_shifts p))
  | InsertAInbox p fill_value => discard (pure (insert_a_inbox heap p fill_value))
  | InsertBInbox p fill_value => discard (pure (insert_b_inbox heap p fill_value))
  | GetA2Interpolator p => discard (pure (get_a2_interpolator heap p))
  | GetB2Interpolator p => discard (pure (get_b2_interpolator heap p))
  | WriteA2Bxsf p filepath => write_a2_bxsf heap p filepath
  | WriteB2Bxsf p filepath => write_b2_bxsf heap p filepath
  | GetKdataSpin robot spin => discard (pure (get_kdata_spin robot spin))
  | GetMakovPayneDfSpin robot spin => discard (pure (get_makov_payne_df_spin robot spin))
  | RobotWriteNotebook robot nbpath => discard (robot_write_notebook robot nbpath)
  end.

Definition writes_notebook (op : operation) : bool :=
  match op with WriteNotebook _ _ | RobotWriteNotebook _ _ => true | _ => false end.

(** A sequence of calls; an exception ends one call, not the session. *)
Definition session (heap : nat → cplx) (ops : list operation) (fs : filesystem) : filesystem :=
  foldl (λ fs op, (call heap op fs).2) fs ops.

End RobotEffects.

(** ** Vocabulary of the statements *)

(** A grid index lies in the [nx * ny * nz] box. *)
Definition in_box (ngkpt : Z * Z * Z) (idx : Z * Z * Z) : Prop :=
  let '(nx, ny, nz) := ngkpt in
  let '(ix, iy, iz) := idx in
  (0 ≤ ix < nx ∧ 0 ≤ iy < ny ∧ 0 ≤ iz < nz)%Z.

(** [ik] is the last position of [indices] that holds [idx]. *)
Definition last_at {A} (indices : list A) (ik : nat) (idx : A) : Prop :=
  indices !! ik = Some idx ∧ ∀ ik', ik < ik' → indices !! ik' ≠ Some idx.

(** A sequence of stores into a flat buffer, oldest first. *)
Definition store {A} (buf : list A) (writes : list (nat * A)) : list A :=
  foldl (λ buf w, <[w.1 := w.2]> buf) buf writes.

(** The column of a well-shaped array, without the bounds checks. *)
Definition column_of {A} (a : array2 A) (j : nat) : list A := omap (.!! j) (rows a).

(** The stores one pass of [scatter_column] performs, and those of the
    whole double loop. *)
Definition column_writes {A} (d : nat * nat * nat * nat) (i : nat) (col : list A)
    (indices : list (Z * Z * Z)) : list (nat * A) :=
  (λ '(c, (ix, iy, iz)), (offset4 d i (Z.to_nat ix) (Z.to_nat iy) (Z.to_nat iz), c))
    <$> zip col indices.

Definition box_writes {A} (d : nat * nat * nat * nat) (a : array2 A) (indices : list (Z * Z * Z))
    : list (nat * A) :=
  concat ((λ i, column_writes d i (column_of a i) indices) <$> seq 0 d.1.1.1).

(** The box [box] is the scatter of the array [a] (one row per point, one
    column per row of axis 0 of the box) along [indices] over [background]:
    a cell that some point targets holds the entry of the last such point,
    any other cell holds what [background] gives for it. *)
Definition scatter_of {A} (box : array4 A) (n : Z) (ngkpt : Z * Z * Z) (a : array2 A)
    (indices : list (Z * Z * Z)) (background : Z * Z * Z * Z → A) : Prop :=
  ∀ i ix iy iz, (0 ≤ i < n)%Z → in_box ngkpt (ix, iy, iz) →
    (∀ ik, last_at indices ik (ix, iy, iz) →
       ∃ v, getitem2 a (Z.of_nat ik) i = Ok v ∧ getitem4 box (i, ix, iy, iz) = Ok v) ∧
    ((ix, iy, iz) ∉ indices → getitem4 box (i, ix, iy, iz) = Ok (background (i, ix, iy, iz))).

(** The buffer of a four-dimensional array has one entry per cell. *)
Definition array4_wf {A} (a : array4 A) : Prop := length (cells a) = size4 (dims a).

(** Every index of the box is the grid index of some point. *)
Definition covers (ngkpt : Z * Z * Z) (indices : list (Z * Z * Z)) : Prop :=
  ∀ idx, in_box ngkpt idx → idx ∈ indices.

(** [a.shape] *)
Definition shape4 {A} (a : array4 A) : Z * Z * Z * Z :=
  let '(n0, n1, n2, n3) := dims a in (Z.of_nat n0, Z.of_nat n1, Z.of_nat n2, Z.of_nat n3).

(** Every point of [pts] has a grid index, and it lies in the box. *)
Definition maps_into_box {A} (ngkpt : Z * Z * Z) (pts : array2 A) (indices : list (Z * Z * Z)) : Prop :=
  length indices = length (rows pts) ∧ Forall (in_box ngkpt) indices.

Definition is_mesh (ngkpt : Z * Z * Z) : Prop :=
  let '(nx, ny, nz) := ngkpt in (0 ≤ nx ∧ 0 ≤ ny ∧ 0 ≤ nz)%Z.

(** A mesh with at least one point along each axis. *)
Definition positive_mesh (ngkpt : Z * Z * Z) : Prop :=
  let '(nx, ny, nz) := ngkpt in (0 < nx ∧ 0 < ny ∧ 0 < nz)%Z.

(** The offset of a cell in the C-ordered buffer of a [(_, nx, ny, nz)] box. *)
Definition offset_in (ngkpt : Z * Z * Z) (idx : Z * Z * Z * Z) : nat :=
  let '(nx, ny, nz) := ngkpt in
  let '(i, ix, iy, iz) := idx in
  offset4 (0, Z.to_nat nx, Z.to_nat ny, Z.to_nat nz)
    (Z.to_nat i) (Z.to_nat ix) (Z.to_nat iy) (Z.to_nat iz).

Section Interpolates.
Context `{I : RegularGridInterpolator}.

(** [get] builds its interpolator over the squared moduli of the box of
    [insert], the scatter of [a] (one row per point of [kpts]).  Whatever the
    memory held: when the stored points cover the mesh, the interpolator
    evaluated at a stored point that is the last one with its grid index
    gives the squared moduli of the row of [a] for that point; and it gives
    [n] values at every point with three coordinates. *)
Definition interpolates
    (insert : (nat → cplx) → result (array4 cplx * (Z * Z * Z) * shifts_t))
    (get : (nat → cplx) → result interpolator) (st : Structure)
    (sh : shifts_t) (n : Z) (ngkpt : Z * Z * Z) (a : array2 cplx) (kpts : array2 float) : Prop :=
  let indices := kpoints_indices kpts ngkpt in
  ∀ heap, ∃ box,
    insert heap = Ok (box, ngkpt, sh) ∧
    get heap = Ok (BzRegularGridInterpolator st sh (map4 abs2 box)) ∧
    (covers ngkpt indices →
     ∀ ik kpt idx,
       rows kpts !! ik = Some kpt → last_at indices ik idx →
       ∃ vals,
         comprehension (λ i, abs2 <$> getitem2 a (Z.of_nat ik) i) (range n) = Ok vals ∧
         eval_kpoint (BzRegularGridInterpolator st sh (map4 abs2 box)) kpt = Ok vals) ∧
    (∀ kpt, length kpt = 3 →
       ∃ vals,
         eval_kpoint (BzRegularGridInterpolator st sh (map4 abs2 box)) kpt = Ok vals ∧
         length vals = Z.to_nat n).

End Interpolates.

Section Invariants.
Context `{K : Kmesh}.

(** The shapes a [Polaron] is built with. *)
Definition Polaron_wf (p : Polaron) : Prop :=
  (0 ≤ nk p ∧ 0 ≤ nq p ∧ 0 ≤ nb p)%Z ∧
  (array2_wf (kpoints p) ∧ shape2 (kpoints p) = (Z.to_nat (nk p), 3)) ∧
  (array2_wf (qpoints p) ∧ shape2 (qpoints p) = (Z.to_nat (nq p), 3)) ∧
  (array2_wf (a_kn p) ∧ shape2 (a_kn p) = (Z.to_nat (nk p), Z.to_nat (nb p))) ∧
  (array2_wf (b_qnu p) ∧
   shape2 (b_qnu p) = (Z.to_nat (nq p), 3 * natom (structure (varpeq p)))).

(** The content of a file follows the declarations of the netCDF variables
    (docstring of [VarpeqReader.__init__]): one entry per spin, arrays with the
    declared dimensions [nstep], [max_nk], [max_nq], [max_nb], [natom3], at
    least one recorded iteration and at most [nstep], the counts of points and
    the band range (Fortran indexing, inclusive) within the dimensions. *)
Definition has_shape {A} (nrow ncol : nat) (a : array2 A) : Prop :=
  array2_wf a ∧ shape2 a = (nrow, ncol).

Definition NcFile_wf (c : NcFile) : Prop :=
  ∃ nstep max_nk max_nq max_nb : nat,
    (length (var_nk_spin c) = dim_nsppol c ∧ length (var_nq_spin c) = dim_nsppol c ∧
     length (var_brange_spin c) = dim_nsppol c ∧ length (var_nstep2cv c) = dim_nsppol c ∧
     length (var_iter_rec c) = dim_nsppol c ∧ length (var_kpts_spin c) = dim_nsppol c ∧
     length (var_qpts_spin c) = dim_nsppol c ∧ length (var_a_spin c) = dim_nsppol c ∧
     length (var_b_spin c) = dim_nsppol c) ∧
    Forall (has_shape nstep 6) (var_iter_rec c) ∧
    Forall (has_shape max_nk 3) (var_kpts_spin c) ∧
    Forall (has_shape max_nq 3) (var_qpts_spin c) ∧
    Forall (has_shape max_nk max_nb) (var_a_spin c) ∧
    Forall (has_shape max_nq (3 * natom (eb_structure (nc_ebands c)))) (var_b_spin c) ∧
    Forall (λ n, 1 ≤ n ≤ Z.of_nat nstep)%Z (var_nstep2cv c) ∧
    Forall (λ n, 0 ≤ n ≤ Z.of_nat max_nk)%Z (var_nk_spin c) ∧
    Forall (λ n, 0 ≤ n ≤ Z.of_nat max_nq)%Z (var_nq_spin c) ∧
    Forall (λ b : Z * Z, 1 ≤ b.1 ≤ b.2 + 1 ∧ b.2 - (b.1 - 1) ≤ Z.of_nat max_nb)%Z
      (var_brange_spin c).

(** An open [VarpeqFile]: its reader was built by [VarpeqReader.__init__] from
    a well-formed file. *)
Definition VarpeqFile_wf (f : VarpeqFile) : Prop :=
  r f = VarpeqReader_init (nc (r f)) ∧ NcFile_wf (nc (r f)).

End Invariants.

Section RobotVocabulary.
Context `{N : Numerics}.

(** A file the robot can use for the given spin: open, with that spin, on a
    diagonal k-mesh. *)
Definition file_ok (spin : Z) (f : VarpeqFile) : Prop :=
  VarpeqFile_wf f ∧ (0 ≤ spin < Z.of_nat (nsppol (r f)))%Z ∧
  is_Some (mpdivs (eb_ksampling (ebands f))).

(** The k-mesh divisions of a file and their product. *)
Definition mesh_of (f : VarpeqFile) : Z * Z * Z :=
  default (0, 0, 0)%Z (mpdivs (eb_ksampling (ebands f))).

Definition nk_tot (f : VarpeqFile) : Z := np_prod3 (mesh_of f).

(** The abscissa [get_kdata_spin] computes for a file. *)
Definition xs_inv_bohr (f : VarpeqFile) : float :=
  fdiv (of_int 1)
    (fmul (of_int (nk_tot f)) (fpow (volume (structure f)) (fdiv (of_int 1) (of_int 3)))).

(** The values appended under key [k] by a sequence of [d[key].append(v)],
    or the values a list of items holds for [k]. *)
Definition appended {A} (k : string) (ws : list (string * A)) : list A :=
  (filter (λ w, w.1 = k) ws).*2.

(** The entry [ylabel] of the last iteration of a file, in eV. *)
Definition energy_ev (spin : Z) (ylabel : string) (f : VarpeqFile) : option float :=
  match get_last_iteration_dict_ev f spin with
  | Ok d => head (appended ylabel d)
  | Raise _ => None
  end.

(** An array with one entry per file; the dict has no key for it when there
    is no file. *)
Definition col {A} (l : list A) : option (list A) :=
  match l with [] => None | _ => Some l end.

(** The arrays of [kdata] hold, entry by entry, the data of [files]. *)
Definition kdata_of (spin : Z) (files : list VarpeqFile) (kdata : KData) : Prop :=
  (∀ k, int_cols kdata !! k = if decide (k = "nk_tot") then col (nk_tot <$> files) else None) ∧
  (∀ k, mesh_cols kdata !! k = if decide (k = "ngkpt") then col (mesh_of <$> files) else None) ∧
  float_cols kdata !! "xs_inv_bohr" = col (xs_inv_bohr <$> files) ∧
  (∀ ylabel, ylabel ∈ keys _ALL_ENTRIES →
     ∃ ys, Forall2 (λ f y, energy_ev spin ylabel f = Some y) files ys ∧
           float_cols kdata !! ylabel = col ys) ∧
  (∀ k, is_Some (float_cols kdata !! k) → k = "xs_inv_bohr" ∨ k ∈ keys _ALL_ENTRIES).

(** The value at 0 of the line fitted by least squares ([np.polyfit] with
    [deg=1]) through the first [npts] points. *)
Definition intercept (xs ys : list float) (npts : nat) : float :=
  poly1d (polyfit (take npts xs) (take npts ys) 1) (of_int 0).

(** The float entries [get_kdata_spin] appends for one file, in order. *)
Definition float_row (spin : Z) (f : VarpeqFile) : list (string * float) :=
  match get_last_iteration_dict_ev f spin with
  | Ok d => d ++ [("xs_inv_bohr", xs_inv_bohr f)]
  | Raise _ => []
  end.

End RobotVocabulary.
(** ** The title of a polaron *)

(** [ElectronBands.get_gaps_string], which is not part of this module. *)
Class GapsString `{N : Numerics} : Type := {
  get_gaps_string : ElectronBands → string;
}.

(** [str(n)] of a Python int: decimal digits, a minus sign when negative. *)
Definition str_int (n : Z) : string := pretty n.

Section PolaronTitle.
Context `{G : GapsString}.

(** [Polaron.get_title] *)
Definition get_title (self : Polaron) (with_gaps : bool) : string :=
  let varpeq := varpeq self in
  let pre := if decide (eb_nsppol (ebands varpeq) = 1%Z) then ""
             else "spin=" +:+ str_int (spin self) in
  if negb with_gaps
  then pre +:+ varpeq_pkind (r varpeq)
  else
    let gaps_string := get_gaps_string (ebands varpeq) in
    pre +:+ varpeq_pkind (r varpeq) +:+ ", " +:+ gaps_string.

End PolaronTitle.

(** ** Vocabulary of the further statements *)

(** An index numpy accepts on an axis of length [n]: from [-n] to [n - 1]. *)
Definition valid_index (n i : Z) : Prop := (- n ≤ i < n)%Z.

(** A grid index numpy accepts on each axis of the box. *)
Definition addressable (ngkpt : Z * Z * Z) (idx : Z * Z * Z) : Prop :=
  let '(nx, ny, nz) := ngkpt in
  let '(ix, iy, iz) := idx in
  valid_index nx ix ∧ valid_index ny iy ∧ valid_index nz iz.

(** The exceptions of the grid scatters: a bad index, or a bad mesh. *)
Definition box_error (e : exn) : Prop := e = IndexError ∨ ∃ msg, e = ValueError msg.

(** The exceptions a computation may raise all satisfy [P]. *)
Definition only_raises {A} (P : exn → Prop) (m : result A) : Prop := ∀ e, m = Raise e → P e.

(** What the allocated box holds before the scatter. *)
Definition background {A} (heap : nat → A) (fill_value : option A) : nat → A :=
  match fill_value with None => heap | Some c => λ _, c end.

Section FileVocabulary.
Context `{N : Numerics}.

(** The polaron [p] with another value of its field [spin]. *)
Definition with_spin (s : Z) (p : Polaron) : Polaron :=
  {| spin := s; nb := nb p; nk := nk p; nq := nq p; bstart := bstart p; bstop := bstop p;
     kpoints := kpoints p; qpoints := qpoints p; a_kn := a_kn p; b_qnu := b_qnu p;
     varpeq := varpeq p |}.

(** The spin index is one numpy accepts for the arrays of the file. *)
Definition spin_in_range (f : VarpeqFile) (s : Z) : Prop :=
  valid_index (Z.of_nat (nsppol (r f))) s.

(** What the title code of [VarpeqFile] raises. *)
Definition title_error (f : VarpeqFile) : exn :=
  if decide (eb_nsppol (ebands f) = 1%Z) then NameError "with_gaps" else AttributeError "spin".

End FileVocabulary.

(** ** A concrete setting: exact rationals

    Rationals stand in for floats and Gaussian rationals for complex numbers,
    so that the definitions above can be run on small inputs. *)

Definition Qsum (l : list Q) : Q := foldr (λ x acc, Qred (x + acc)%Q) 0%Q l.

(** Least-squares line through the points, highest coefficient first. *)
Definition Qpolyfit (xs ys : list Q) (deg : nat) : list Q :=
  let n := inject_Z (Z.of_nat (length xs)) in
  let sx := Qsum xs in
  let sy := Qsum ys in
  let sxx := Qsum (zip_with Qmult xs xs) in
  let sxy := Qsum (zip_with Qmult xs ys) in
  let slope := Qred ((n * sxy - sx * sy) / (n * sxx - sx * sx))%Q in
  let intercept := Qred ((sy - slope * sx) / n)%Q in
  match deg with 1%nat => [slope; intercept] | _ => [] end.

(** Horner evaluation. *)
Definition Qpoly1d (c : list Q) (x : Q) : Q := foldl (λ acc a, Qred (acc * x + a)%Q) 0%Q c.

#[local] Instance Qnumerics : Numerics := {|
  float := Q;
  cplx := Q * Q;
  of_int := inject_Z;
  fsub x y := Qred (x - y)%Q;
  fabs := Qabs;
  fmul x y := Qred (x * y)%Q;
  fdiv x y := Qred (x / y)%Q;
  fpow x y := Qred (Qpower x (Qfloor y));
  to_cplx x := (x, 0%Q);
  abs2 z := Qred (z.1 * z.1 + z.2 * z.2)%Q;
  mean l := Qred (Qsum l / inject_Z (Z.of_nat (length l)))%Q;
  Ha_eV := (272113845 # 10000000)%Q;
  Ang_Bohr := (18897261 # 10000000)%Q;
  polyfit := Qpolyfit;
  poly1d := Qpoly1d;
|}.

(** The grid index of a reduced coordinate [k] on an axis with [n] divisions:
    [round((k mod 1) * n) mod n]. *)
Definition Qgrid_index (k : Q) (n : Z) : Z :=
  (Qfloor ((k - inject_Z (Qfloor k)) * inject_Z n + (1 # 2))%Q `mod` n)%Z.

Definition Qgrid_index3 (ngkpt : Z * Z * Z) (kpt : list Q) : Z * Z * Z :=
  (Qgrid_index (default 0%Q (kpt !! 0)) ngkpt.1.1,
   Qgrid_index (default 0%Q (kpt !! 1)) ngkpt.1.2,
   Qgrid_index (default 0%Q (kpt !! 2)) ngkpt.2).

#[local] Instance Qkmesh : Kmesh := {|
  kpoints_indices kpts ngkpt := Qgrid_index3 ngkpt <$> rows kpts;
|}.

#[local] Instance Qnotebooks : NotebookWriter := {|
  new_notebook := ["import abipy.abilab as abilab"];
  mkstemp fs := "tmp.ipynb";
|}.

(** Modelled from the spec: [abipy.tools.numtools.BzRegularGridInterpolator] is
    not part of this module.  The spec describes it as "a regular-grid
    interpolator evaluated at arbitrary k/q points", and the module builds it
    with [method="linear"].  A reduced coordinate [k] on a periodic axis with
    [n] divisions lies between the node [Qaxis n k].1 and the next one, at
    the fraction [Qaxis n k].2 of the way. *)
Definition Qaxis (n : Z) (k : Q) : Z * Q :=
  let u := ((k - inject_Z (Qfloor k)) * inject_Z n)%Q in
  (Qfloor u, (u - inject_Z (Qfloor u))%Q).

(** Modelled from the spec: the linear blend of two values. *)
Definition lerp (t v0 v1 : Q) : Q := ((1 - t) * v0 + t * v1)%Q.

(** Modelled from the spec: [BzRegularGridInterpolator.eval_kpoint], the
    linear interpolation of each of the [ndat] grids of the box at a point
    given by its three reduced coordinates: the blend, axis by axis, of the
    values at the eight nodes around the point, the grid being periodic. *)
Definition Qlinear_eval (data : array4 Q) (kpt : list Q) : result (list Q) :=
  match kpt with
  | [kx; ky; kz] =>
      let '(ndat, nx, ny, nz) := dims data in
      let '(ix, tx) := Qaxis (Z.of_nat nx) kx in
      let '(iy, ty) := Qaxis (Z.of_nat ny) ky in
      let '(iz, tz) := Qaxis (Z.of_nat nz) kz in
      let node idat (a b c : Z) :=
        getitem4 data (idat, ((ix + a) `mod` Z.of_nat nx)%Z, ((iy + b) `mod` Z.of_nat ny)%Z,
                       ((iz + c) `mod` Z.of_nat nz)%Z) in
      comprehension
        (λ idat,
           v000 ← node idat 0%Z 0%Z 0%Z; v001 ← node idat 0%Z 0%Z 1%Z;
           v010 ← node idat 0%Z 1%Z 0%Z; v011 ← node idat 0%Z 1%Z 1%Z;
           v100 ← node idat 1%Z 0%Z 0%Z; v101 ← node idat 1%Z 0%Z 1%Z;
           v110 ← node idat 1%Z 1%Z 0%Z; v111 ← node idat 1%Z 1%Z 1%Z;
           Ok (Qred (lerp tx (lerp ty (lerp tz v000 v001) (lerp tz v010 v011))
                             (lerp ty (lerp tz v100 v101) (lerp tz v110 v111)))))
        (range (Z.of_nat ndat))
  | _ => Raise (ValueError "cannot reshape array into shape (3,)")
  end.

(** Modelled from the spec: the interpolator keeps the box it is built
    over. *)
#[local] Instance Qlinear `{K : @Kmesh Qnumerics} : RegularGridInterpolator := {|
  interpolator := array4 Q;
  BzRegularGridInterpolator st sh data := data;
  eval_kpoint := Qlinear_eval;
|}.

(** The reduced coordinate [k] is the node [i] of a periodic axis with [n]
    divisions. *)
Definition on_node (n : Z) (k : Q) (i : Z) : Prop :=
  ((k - inject_Z (Qfloor k)) * inject_Z n == inject_Z i)%Q.

(** The point [kpt] is the node [idx] of the mesh. *)
Definition at_node (ngkpt : Z * Z * Z) (kpt : list Q) (idx : Z * Z * Z) : Prop :=
  let '(nx, ny, nz) := ngkpt in
  let '(ix, iy, iz) := idx in
  match kpt with
  | [kx; ky; kz] => on_node nx kx ix ∧ on_node ny ky iy ∧ on_node nz kz iz
  | _ => False
  end.

(** The stored points are points of the mesh, each at the node of its grid
    index. *)
Definition on_mesh (ngkpt : Z * Z * Z) (kpts : array2 Q) (indices : list (Z * Z * Z)) : Prop :=
  Forall2 (at_node ngkpt) (rows kpts) indices.

(** *** Example files *)

(** One spin, a 2 x 1 x 1 k-mesh with both k-points stored, one band, one
    atom, a 1 x 1 x 1 q-mesh, two recorded iterations. *)
Definition example_ebands (mesh : Z * Z * Z) : ElectronBands :=
  {| eb_nsppol := 1;
     eb_ksampling := {| mpdivs := Some mesh; shifts := [[0; 0; 0]%Q] |};
     eb_structure := {| natom := 1; volume := 8%Q |} |}.

Definition with_ebands (eb : ElectronBands) (content : NcFile) : NcFile :=
  {| dim_nsppol := dim_nsppol content;
     var_nk_spin := var_nk_spin content;
     var_nq_spin := var_nq_spin content;
     var_brange_spin := var_brange_spin content;
     var_varpeq_pkind := var_varpeq_pkind content;
     var_gstore_ngqpt := var_gstore_ngqpt content;
     var_nstep2cv := var_nstep2cv content;
     var_iter_rec := var_iter_rec content;
     var_kpts_spin := var_kpts_spin content;
     var_qpts_spin := var_qpts_spin content;
     var_a_spin := var_a_spin content;
     var_b_spin := var_b_spin content;
     nc_ebands := eb |}.

Definition example_nc (mesh : Z * Z * Z) (e_pol : Q) : NcFile :=
  {| dim_nsppol := 1;
     var_nk_spin := [2%Z];
     var_nq_spin := [1%Z];
     var_brange_spin := [(3, 3)%Z];
     var_varpeq_pkind := "hole";
     var_gstore_ngqpt := (1, 1, 1)%Z;
     var_nstep2cv := [2%Z];
     var_iter_rec :=
       [ {| ncol := 6;
            rows := [ [1; 2; 3; 4; 5; 6]%Q; [e_pol; 1; 2; 3; 4; 0]%Q; [0; 0; 0; 0; 0; 0]%Q ] |} ];
     var_kpts_spin := [ {| ncol := 3; rows := [ [0; 0; 0]%Q; [1 # 2; 0; 0]%Q ] |} ];
     var_qpts_spin := [ {| ncol := 3; rows := [ [0; 0; 0]%Q ] |} ];
     var_a_spin := [ {| ncol := 1; rows := [ [(1, 0)%Q]; [(0, 2)%Q] ] |} ];
     var_b_spin := [ {| ncol := 3; rows := [ [(1, 1)%Q; (2, 0)%Q; (0, 3)%Q] ] |} ];
     nc_ebands := example_ebands mesh |}.

Definition example_file : VarpeqFile := VarpeqFile_init "out_VARPEQ.nc" (example_nc (2, 1, 1)%Z 10%Q).

Definition example_polaron : Polaron :=
  match from_varpeq example_file 0 with
  | Ok p => p
  | Raise _ =>
      {| spin := 0; nb := 0; nk := 0; nq := 0; bstart := 0; bstop := 0;
         kpoints := {| ncol := 3; rows := [] |}; qpoints := {| ncol := 3; rows := [] |};
         a_kn := {| ncol := 0; rows := [] |}; b_qnu := {| ncol := 3; rows := [] |};
         varpeq := example_file |}
  end.

(** The same k-point stored twice on a 1 x 1 x 1 mesh, with two coefficients. *)
Definition twice_stored : Polaron :=
  {| spin := 0; nb := 1; nk := 2; nq := 1; bstart := 2; bstop := 3;
     kpoints := {| ncol := 3; rows := [ [0; 0; 0]%Q; [0; 0; 0]%Q ] |};
     qpoints := {| ncol := 3; rows := [ [0; 0; 0]%Q ] |};
     a_kn := {| ncol := 1; rows := [ [(1, 0)%Q]; [(2, 0)%Q] ] |};
     b_qnu := {| ncol := 3; rows := [ [(1, 1)%Q; (2, 0)%Q; (0, 3)%Q] ] |};
     varpeq := VarpeqFile_init "out_VARPEQ.nc" (example_nc (1, 1, 1)%Z 10%Q) |}.

(** The first polaron on a k-mesh with two shifts. *)
Definition two_shifts : Polaron :=
  let eb :=
    {| eb_nsppol := 1;
       eb_ksampling :=
         {| mpdivs := Some (2, 1, 1)%Z; shifts := [[0; 0; 0]%Q; [1 # 2; 1 # 2; 1 # 2]%Q] |};
       eb_structure := {| natom := 1; volume := 8%Q |} |} in
  let f := VarpeqFile_init "out_VARPEQ.nc" (with_ebands eb (example_nc (2, 1, 1)%Z 10%Q)) in
  {| spin := 0; nb := 1; nk := 2; nq := 1; bstart := 2; bstop := 3;
     kpoints := kpoints example_polaron; qpoints := qpoints example_polaron;
     a_kn := a_kn example_polaron; b_qnu := b_qnu example_polaron;
     varpeq := f |}.

(** A file of a spin-polarized calculation, as far as the title goes. *)
Definition spin_polarized : VarpeqFile :=
  let eb :=
    {| eb_nsppol := 2;
       eb_ksampling := {| mpdivs := Some (2, 1, 1)%Z; shifts := [[0; 0; 0]%Q] |};
       eb_structure := {| natom := 1; volume := 8%Q |} |} in
  let c := example_nc (2, 1, 1)%Z 10%Q in
  VarpeqFile_init "out_VARPEQ.nc"
    {| dim_nsppol := 2;
       var_nk_spin := var_nk_spin c ++ var_nk_spin c;
       var_nq_spin := var_nq_spin c ++ var_nq_spin c;
       var_brange_spin := var_brange_spin c ++ var_brange_spin c;
       var_varpeq_pkind := var_varpeq_pkind c;
       var_gstore_ngqpt := var_gstore_ngqpt c;
       var_nstep2cv := var_nstep2cv c ++ var_nstep2cv c;
       var_iter_rec := var_iter_rec c ++ var_iter_rec c;
       var_kpts_spin := var_kpts_spin c ++ var_kpts_spin c;
       var_qpts_spin := var_qpts_spin c ++ var_qpts_spin c;
       var_a_spin := var_a_spin c ++ var_a_spin c;
       var_b_spin := var_b_spin c ++ var_b_spin c;
       nc_ebands := eb |}.

(** The two stored k-points on a 4 x 1 x 1 mesh: the cells 1 and 3 are not
    targeted. *)
Definition sparse_polaron : Polaron :=
  {| spin := 0; nb := 1; nk := 2; nq := 1; bstart := 2; bstop := 3;
     kpoints := kpoints example_polaron; qpoints := qpoints example_polaron;
     a_kn := a_kn example_polaron; b_qnu := b_qnu example_polaron;
     varpeq :=
       VarpeqFile_init "out_VARPEQ.nc"
         {| dim_nsppol := 1; var_nk_spin := [2%Z]; var_nq_spin := [1%Z];
            var_brange_spin := [(3, 3)%Z]; var_varpeq_pkind := "hole";
            var_gstore_ngqpt := (2, 1, 1)%Z; var_nstep2cv := [2%Z];
            var_iter_rec := var_iter_rec (example_nc (4, 1, 1)%Z 10%Q);
            var_kpts_spin := var_kpts_spin (example_nc (4, 1, 1)%Z 10%Q);
            var_qpts_spin := var_qpts_spin (example_nc (4, 1, 1)%Z 10%Q);
            var_a_spin := var_a_spin (example_nc (4, 1, 1)%Z 10%Q);
            var_b_spin := var_b_spin (example_nc (4, 1, 1)%Z 10%Q);
            nc_ebands := example_ebands (4, 1, 1)%Z |} |}.

(** Three files on meshes of 8, 64 and 27 points. *)
Definition example_robot : VarpeqRobot :=
  [ ("2x2x2", VarpeqFile_init "a_VARPEQ.nc" (example_nc (2, 2, 2)%Z 10%Q));
    ("4x4x4", VarpeqFile_init "b_VARPEQ.nc" (example_nc (4, 4, 4)%Z 12%Q));
    ("3x3x3", VarpeqFile_init "c_VARPEQ.nc" (example_nc (3, 3, 3)%Z 11%Q)) ].

(** The files on disk. *)
Definition example_disk : filesystem :=
  {[ "out_VARPEQ.nc" := NetCDF (example_nc (2, 1, 1)%Z 10%Q) ]}.

(** What [np.empty] finds in this setting. *)
Definition example_heap : nat → cplx := λ o, (inject_Z (Z.of_nat o), 7%Q).
(** *** Further example files *)

#[local] Instance Qgaps : GapsString := {|
  get_gaps_string eb := "Direct gap: 1 (eV)";
|}.

(** The example file with another record of the SCF cycle: [nstep2cv] steps
    to convergence, three stored iterations. *)
Definition with_nstep2cv (nstep2cv : Z) (content : NcFile) : NcFile :=
  {| dim_nsppol := dim_nsppol content;
     var_nk_spin := var_nk_spin content;
     var_nq_spin := var_nq_spin content;
     var_brange_spin := var_brange_spin content;
     var_varpeq_pkind := var_varpeq_pkind content;
     var_gstore_ngqpt := var_gstore_ngqpt content;
     var_nstep2cv := [nstep2cv];
     var_iter_rec := var_iter_rec content;
     var_kpts_spin := var_kpts_spin content;
     var_qpts_spin := var_qpts_spin content;
     var_a_spin := var_a_spin content;
     var_b_spin := var_b_spin content;
     nc_ebands := nc_ebands content |}.

Definition scf_file (nstep2cv : Z) : VarpeqFile :=
  VarpeqFile_init "out_VARPEQ.nc" (with_nstep2cv nstep2cv (example_nc (2, 1, 1)%Z 10%Q)).

(** The polaron of a spin of a file (the first polaron of the example file
    when the spin is out of range). *)
Definition polaron_of (f : VarpeqFile) (s : Z) : Polaron :=
  match from_varpeq f s with
  | Ok p => p
  | Raise _ => example_polaron
  end.

(** The example polaron on meshes without a point along the first axis. *)
Definition empty_mesh_polaron : Polaron :=
  {| spin := 0; nb := 1; nk := 2; nq := 1; bstart := 2; bstop := 3;
     kpoints := kpoints example_polaron; qpoints := qpoints example_polaron;
     a_kn := a_kn example_polaron; b_qnu := b_qnu example_polaron;
     varpeq :=
       VarpeqFile_init "out_VARPEQ.nc"
         {| dim_nsppol := 1; var_nk_spin := [2%Z]; var_nq_spin := [1%Z];
            var_brange_spin := [(3, 3)%Z]; var_varpeq_pkind := "hole";
            var_gstore_ngqpt := (0, 1, 1)%Z; var_nstep2cv := [2%Z];
            var_iter_rec := var_iter_rec (example_nc (0, 1, 1)%Z 10%Q);
            var_kpts_spin := var_kpts_spin (example_nc (0, 1, 1)%Z 10%Q);
            var_qpts_spin := var_qpts_spin (example_nc (0, 1, 1)%Z 10%Q);
            var_a_spin := var_a_spin (example_nc (0, 1, 1)%Z 10%Q);
            var_b_spin := var_b_spin (example_nc (0, 1, 1)%Z 10%Q);
            nc_ebands := example_ebands (0, 1, 1)%Z |} |}.

(** A file on a non-diagonal k-mesh, and a robot that holds it. *)
Definition non_diagonal_file : VarpeqFile :=
  let eb :=
    {| eb_nsppol := 1;
       eb_ksampling := {| mpdivs := None; shifts := [[0; 0; 0]%Q] |};
       eb_structure := {| natom := 1; volume := 8%Q |} |} in
  VarpeqFile_init "nd_VARPEQ.nc" (with_ebands eb (example_nc (2, 2, 2)%Z 10%Q)).

Definition mixed_robot : VarpeqRobot :=
  [ ("2x2x2", VarpeqFile_init "a_VARPEQ.nc" (example_nc (2, 2, 2)%Z 10%Q));
    ("non diagonal", non_diagonal_file) ].

(** * Proofs *)

(** ** The error monad and numpy indexing *)

(** [Ok a ≫= k] steps to [k a]. *)
Ltac bind_ok := cbn beta iota delta [mbind result_bind].

Lemma np_index_nonneg (n : nat) (i : Z) :
  (0 ≤ i < Z.of_nat n)%Z → np_index n i = Ok (Z.to_nat i).
Proof. intros Hi. unfold np_index. by rewrite decide_True. Qed.

Lemma np_index_nat (n i : nat) : i < n → np_index n (Z.of_nat i) = Ok i.
Proof. intros Hi. rewrite np_index_nonneg by lia. by rewrite Nat2Z.id. Qed.

Lemma getitem1_nat {A} (l : list A) (i : nat) (x : A) :
  l !! i = Some x → getitem1 l (Z.of_nat i) = Ok x.
Proof.
  intros Hx. unfold getitem1.
  rewrite np_index_nat by (by eapply lookup_lt_Some). simpl. by rewrite Hx.
Qed.

Lemma range_nat (n : nat) : range (Z.of_nat n) = Z.of_nat <$> seq 0 n.
Proof.
  unfold range. apply list_eq. intros i. rewrite list_lookup_fmap.
  destruct (decide (i < n)) as [Hi|Hi].
  - rewrite lookup_seqZ_lt, lookup_seq_lt by lia. simpl. f_equal; lia.
  - rewrite lookup_seqZ_ge by lia. by rewrite lookup_seq_ge by lia.
Qed.

Lemma for_each_invariant {A S} (P : S → Prop) (body : S → A → result S) (xs : list A) (s s' : S) :
  (∀ s x s', P s → body s x = Ok s' → P s') →
  P s → for_each body xs s = Ok s' → P s'.
Proof.
  intros Hbody. revert s. induction xs as [|x xs IH]; intros s Hs; simpl.
  - by intros [= <-].
  - destruct (body s x) as [s1|e] eqn:Hb; simpl; [|done]. apply IH. by eapply Hbody.
Qed.

Lemma comprehension_ext {A B} (f g : A → result B) (xs : list A) :
  Forall (λ x, f x = g x) xs → comprehension f xs = comprehension g xs.
Proof.
  induction 1 as [|x xs Hx _ IH]; simpl; [done|]. by rewrite Hx, IH.
Qed.

Lemma comprehension_Ok {A B} (f : A → result B) (xs : list A) :
  Forall (λ x, ∃ y, f x = Ok y) xs →
  ∃ ys, comprehension f xs = Ok ys ∧ Forall2 (λ x y, f x = Ok y) xs ys.
Proof.
  induction 1 as [|x xs [y Hy] _ (ys & Hys & IH)]; simpl.
  - exists []. by split.
  - exists (y :: ys). rewrite Hy, Hys. simpl. split; [done|]. by constructor.
Qed.

Lemma exists_last_at {A} `{EqDecision A} (l : list A) (x : A) :
  x ∈ l → ∃ i, last_at l i x.
Proof.
  induction l as [|y l IH]; [by intros ?%elem_of_nil|].
  intros Hin. destruct (decide (x ∈ l)) as [Hl|Hl].
  - destruct (IH Hl) as (i & Hi & Hlast). exists (S i). split; [done|].
    intros [|i'] Hlt; [lia|]. simpl. apply Hlast. lia.
  - apply elem_of_cons in Hin as [->|?]; [|done]. exists 0. split; [done|].
    intros [|i'] Hlt; [lia|]. simpl. intros Hy. apply Hl. by eapply list_elem_of_lookup_2.
Qed.

(** ** Flat offsets of a four-dimensional array *)

Lemma mul_add_lt (m n a b : nat) : a < m → b < n → a * n + b < m * n.
Proof.
  intros Ha Hb. assert ((a + 1) * n ≤ m * n) by (apply Nat.mul_le_mono_r; lia). lia.
Qed.

Lemma offset4_lt n0 n1 n2 n3 i0 i1 i2 i3 :
  i0 < n0 → i1 < n1 → i2 < n2 → i3 < n3 →
  offset4 (n0, n1, n2, n3) i0 i1 i2 i3 < size4 (n0, n1, n2, n3).
Proof.
  intros H0 H1 H2 H3. simpl. by repeat apply mul_add_lt.
Qed.

Lemma mul_add_inj (n a b a' b' : nat) :
  b < n → b' < n → a * n + b = a' * n + b' → a = a' ∧ b = b'.
Proof.
  intros Hb Hb' Heq.
  assert (a = a') as ->; [|lia].
  destruct (Nat.lt_trichotomy a a') as [Hlt|[?|Hlt]]; [|done|].
  - assert ((a + 1) * n ≤ a' * n) by (apply Nat.mul_le_mono_r; lia). lia.
  - assert ((a' + 1) * n ≤ a * n) by (apply Nat.mul_le_mono_r; lia). lia.
Qed.

Lemma offset4_inj d i0 i1 i2 i3 j0 j1 j2 j3 :
  i1 < d.1.1.2 → i2 < d.1.2 → i3 < d.2 →
  j1 < d.1.1.2 → j2 < d.1.2 → j3 < d.2 →
  offset4 d i0 i1 i2 i3 = offset4 d j0 j1 j2 j3 →
  i0 = j0 ∧ i1 = j1 ∧ i2 = j2 ∧ i3 = j3.
Proof.
  destruct d as [[[n0 n1] n2] n3]. simpl. intros ? ? ? ? ? ? Heq.
  apply mul_add_inj in Heq as [Heq ?]; [|done..].
  apply mul_add_inj in Heq as [Heq ?]; [|done..].
  apply mul_add_inj in Heq as [? ?]; done.
Qed.

(** ** Stores into a buffer *)

Lemma store_app {A} (buf : list A) ws1 ws2 :
  store buf (ws1 ++ ws2) = store (store buf ws1) ws2.
Proof. apply foldl_app. Qed.

Lemma length_store {A} (buf : list A) ws : length (store buf ws) = length buf.
Proof.
  unfold store. revert buf. induction ws as [|w ws IH]; intros buf; simpl; [done|].
  rewrite IH. apply length_insert.
Qed.

Lemma store_miss {A} (buf : list A) ws o :
  Forall (λ w, w.1 ≠ o) ws → store buf ws !! o = buf !! o.
Proof.
  unfold store. revert buf. induction ws as [|w ws IH]; intros buf Hws; simpl; [done|].
  apply Forall_cons in Hws as [Hw Hws]. rewrite IH by done.
  by apply list_lookup_insert_ne.
Qed.

Lemma store_hit {A} (buf : list A) ws1 ws2 o v :
  o < length buf → Forall (λ w, w.1 ≠ o) ws2 →
  store buf (ws1 ++ (o, v) :: ws2) !! o = Some v.
Proof.
  intros Ho Hws2. rewrite store_app.
  change (store ?b ((o, v) :: ws2)) with (store (<[o := v]> b) ws2).
  rewrite store_miss by done.
  apply list_lookup_insert_eq. by rewrite length_store.
Qed.

(** ** Columns of a two-dimensional array *)

Lemma column_ok {A} (a : array2 A) (j : nat) :
  array2_wf a → j < ncol a → column a (Z.of_nat j) = Ok (column_of a j).
Proof.
  intros Hwf Hj. unfold column, column_of. rewrite np_index_nat by done. simpl.
  unfold array2_wf in Hwf. induction Hwf as [|r rs Hr _ IH]; simpl; [done|].
  destruct (lookup_lt_is_Some_2 r j) as [v Hv]; [lia|].
  rewrite Hv. simpl. by rewrite IH.
Qed.

Lemma column_of_lookup {A} (a : array2 A) (i j : nat) :
  array2_wf a → j < ncol a → column_of a j !! i = rows a !! i ≫= (.!! j).
Proof.
  intros Hwf Hj. unfold column_of. unfold array2_wf in Hwf. revert i.
  induction Hwf as [|r rs Hr _ IH]; intros i; simpl; [done|].
  destruct (lookup_lt_is_Some_2 r j) as [v Hv]; [lia|].
  rewrite Hv. destruct i as [|i]; simpl; [done|]. apply IH.
Qed.

(** ** The scatter loops *)

Section Scatter.
Context {A : Type}.
Implicit Types (data : array4 A) (a : array2 A) (indices : list (Z * Z * Z)).

Lemma locate4_in_box data n0 nx ny nz (i : nat) ix iy iz :
  dims data = (n0, nx, ny, nz) → i < n0 →
  in_box (Z.of_nat nx, Z.of_nat ny, Z.of_nat nz) (ix, iy, iz) →
  locate4 data (Z.of_nat i, ix, iy, iz)
  = Ok (offset4 (dims data) i (Z.to_nat ix) (Z.to_nat iy) (Z.to_nat iz)).
Proof.
  intros Hd Hi (Hx & Hy & Hz). unfold locate4. rewrite Hd.
  rewrite np_index_nat by done. simpl.
  by rewrite !np_index_nonneg by done.
Qed.

Lemma getitem4_in_box data n0 nx ny nz (i : nat) ix iy iz v :
  dims data = (n0, nx, ny, nz) → i < n0 →
  in_box (Z.of_nat nx, Z.of_nat ny, Z.of_nat nz) (ix, iy, iz) →
  cells data !! offset4 (dims data) i (Z.to_nat ix) (Z.to_nat iy) (Z.to_nat iz) = Some v →
  getitem4 data (Z.of_nat i, ix, iy, iz) = Ok v.
Proof.
  intros Hd Hi Hbox Hv. unfold getitem4.
  erewrite locate4_in_box by done. simpl. by rewrite Hv.
Qed.

Lemma setitem4_in_box data n0 nx ny nz (i : nat) ix iy iz v :
  dims data = (n0, nx, ny, nz) → i < n0 →
  in_box (Z.of_nat nx, Z.of_nat ny, Z.of_nat nz) (ix, iy, iz) →
  setitem4 data (Z.of_nat i, ix, iy, iz) v
  = Ok {| dims := dims data;
          cells := <[offset4 (dims data) i (Z.to_nat ix) (Z.to_nat iy) (Z.to_nat iz) := v]>
                     (cells data) |}.
Proof.
  intros Hd Hi Hbox. unfold setitem4. by erewrite locate4_in_box by done.
Qed.

Local Arguments setitem4 : simpl never.

Lemma for_each_setitem_ok (i : nat) (col : list A) indices data n0 nx ny nz :
  dims data = (n0, nx, ny, nz) → i < n0 →
  Forall (in_box (Z.of_nat nx, Z.of_nat ny, Z.of_nat nz)) indices →
  for_each (λ data '(c, (ix, iy, iz)), setitem4 data (Z.of_nat i, ix, iy, iz) c)
    (zip col indices) data
  = Ok {| dims := dims data;
          cells := store (cells data) (column_writes (dims data) i col indices) |}.
Proof.
  intros Hd Hi Hidx. revert col data Hd.
  induction Hidx as [|[[ix iy] iz] indices Hbox _ IH]; intros col data Hd.
  - destruct col; simpl; by destruct data.
  - destruct col as [|c col]; simpl; [by destruct data|].
    erewrite setitem4_in_box by done. simpl.
    rewrite IH by done. done.
Qed.

Lemma scatter_loop_ok a indices n0 nx ny nz (js : list nat) data :
  array2_wf a → ncol a = n0 → dims data = (n0, nx, ny, nz) →
  Forall (λ i, i < n0) js →
  Forall (in_box (Z.of_nat nx, Z.of_nat ny, Z.of_nat nz)) indices →
  for_each (λ data (i : Z),
              col ← column a i;
              for_each (λ data '(c, (ix, iy, iz)), setitem4 data (i, ix, iy, iz) c)
                (zip col indices) data)
    (Z.of_nat <$> js) data
  = Ok {| dims := dims data;
          cells := store (cells data)
                     (concat ((λ i, column_writes (dims data) i (column_of a i) indices) <$> js)) |}.
Proof.
  intros Hwf Hcol Hd His Hidx. revert data Hd.
  induction His as [|i js Hi _ IH]; intros data Hd; simpl.
  - by destruct data.
  - rewrite column_ok by (done || lia). simpl.
    erewrite for_each_setitem_ok by done. simpl.
    rewrite IH by done. simpl. by rewrite store_app.
Qed.

Lemma box_writes_other_column d a indices (js : list nat) i ix iy iz :
  Forall (in_box (Z.of_nat d.1.1.2, Z.of_nat d.1.2, Z.of_nat d.2)) indices →
  in_box (Z.of_nat d.1.1.2, Z.of_nat d.1.2, Z.of_nat d.2) (ix, iy, iz) →
  i ∉ js →
  Forall (λ w : nat * A, w.1 ≠ offset4 d i (Z.to_nat ix) (Z.to_nat iy) (Z.to_nat iz))
    (concat ((λ i', column_writes d i' (column_of a i') indices) <$> js)).
Proof.
  intros Hidx (Hx & Hy & Hz) Hi. apply Forall_concat, Forall_fmap, Forall_forall.
  intros i' Hi'. simpl. unfold column_writes. apply Forall_fmap, Forall_forall.
  intros [c [[jx jy] jz]] Hin. simpl. intros Heq.
  apply elem_of_zip_r in Hin.
  rewrite Forall_forall in Hidx. destruct (Hidx _ Hin) as (Hjx & Hjy & Hjz).
  apply offset4_inj in Heq as [-> _]; [done|lia..].
Qed.

Lemma column_writes_miss d i i' (col : list A) indices ix iy iz :
  Forall (in_box (Z.of_nat d.1.1.2, Z.of_nat d.1.2, Z.of_nat d.2)) indices →
  in_box (Z.of_nat d.1.1.2, Z.of_nat d.1.2, Z.of_nat d.2) (ix, iy, iz) →
  (ix, iy, iz) ∉ indices →
  Forall (λ w : nat * A, w.1 ≠ offset4 d i (Z.to_nat ix) (Z.to_nat iy) (Z.to_nat iz))
    (column_writes d i' col indices).
Proof.
  intros Hidx (Hx & Hy & Hz) Hnin. unfold column_writes. apply Forall_fmap, Forall_forall.
  intros [c [[jx jy] jz]] Hin. simpl. intros Heq.
  apply elem_of_zip_r in Hin.
  rewrite Forall_forall in Hidx. destruct (Hidx _ Hin) as (Hjx & Hjy & Hjz).
  apply offset4_inj in Heq as (_ & ? & ? & ?); [|lia..].
  apply Hnin. replace ix with jx by lia. replace iy with jy by lia.
  by replace iz with jz by lia.
Qed.

Lemma box_store_miss d a indices (buf : list A) i ix iy iz :
  Forall (in_box (Z.of_nat d.1.1.2, Z.of_nat d.1.2, Z.of_nat d.2)) indices →
  in_box (Z.of_nat d.1.1.2, Z.of_nat d.1.2, Z.of_nat d.2) (ix, iy, iz) →
  (ix, iy, iz) ∉ indices →
  store buf (box_writes d a indices) !! offset4 d i (Z.to_nat ix) (Z.to_nat iy) (Z.to_nat iz)
  = buf !! offset4 d i (Z.to_nat ix) (Z.to_nat iy) (Z.to_nat iz).
Proof.
  intros Hidx Hbox Hnin. apply store_miss. unfold box_writes.
  apply Forall_concat, Forall_fmap, Forall_forall. intros i' _. simpl.
  by apply column_writes_miss.
Qed.

Lemma box_store_hit d a indices (buf : list A) i ik ix iy iz v :
  array2_wf a → ncol a = d.1.1.1 → i < d.1.1.1 →
  Forall (in_box (Z.of_nat d.1.1.2, Z.of_nat d.1.2, Z.of_nat d.2)) indices →
  last_at indices ik (ix, iy, iz) →
  rows a !! ik ≫= (.!! i) = Some v →
  length buf = size4 d →
  store buf (box_writes d a indices) !! offset4 d i (Z.to_nat ix) (Z.to_nat iy) (Z.to_nat iz)
  = Some v.
Proof.
  intros Hwf Hcol Hi Hidx [Hik Hlast] Hv Hbuf.
  assert (in_box (Z.of_nat d.1.1.2, Z.of_nat d.1.2, Z.of_nat d.2) (ix, iy, iz)) as Hbox.
  { rewrite Forall_lookup in Hidx. by eapply Hidx. }
  set (o := offset4 d i (Z.to_nat ix) (Z.to_nat iy) (Z.to_nat iz)).
  set (z := zip (column_of a i) indices).
  assert (z !! ik = Some (v, (ix, iy, iz))) as Hz.
  { unfold z, zip. apply lookup_zip_with_Some. exists v, (ix, iy, iz).
    split_and!; [done| |done]. rewrite column_of_lookup by (done || lia). done. }
  unfold box_writes.
  replace (seq 0 d.1.1.1) with (seq 0 i ++ i :: seq (S i) (d.1.1.1 - S i)); last first.
  { change (i :: seq (S i) (d.1.1.1 - S i)) with (seq i (S (d.1.1.1 - S i))).
    replace i with (0 + i) at 2 by done. rewrite <-seq_app. f_equal. lia. }
  rewrite fmap_app, concat_app, fmap_cons, concat_cons.
  unfold column_writes at 2. fold z.
  rewrite <-(take_drop_middle z ik _ Hz), fmap_app, fmap_cons. simpl. fold o.
  rewrite <-(assoc_L (++)). simpl. rewrite (assoc_L (++)).
  apply store_hit.
  - rewrite Hbuf. destruct d as [[[n0 n1] n2] n3]. destruct Hbox as (? & ? & ?).
    simpl in *. apply offset4_lt; lia.
  - apply Forall_app. split.
    + apply Forall_lookup. intros j [o' c'].
      rewrite list_lookup_fmap, lookup_drop.
      destruct (z !! (S ik + j)) as [[c [[jx jy] jz]]|] eqn:E; simpl; [|done].
      intros [= <- <-]. unfold z, zip in E.
      apply lookup_zip_with_Some in E as (c'' & idx' & [= <- <-] & _ & Hidx').
      intros Heq. destruct Hbox as (? & ? & ?).
      rewrite Forall_lookup in Hidx. destruct (Hidx _ _ Hidx') as (? & ? & ?).
      apply offset4_inj in Heq as (_ & ? & ? & ?); [|lia..].
      apply (Hlast (S ik + j)); [lia|]. rewrite Hidx'. do 2 f_equal; [f_equal|]; lia.
    + apply box_writes_other_column; [done..|].
      rewrite list_elem_of_In, in_seq. lia.
Qed.

End Scatter.

Section ScatterSpec.
Context {A : Type}.

Lemma replicate_as_fmap (n : nat) (c : A) : replicate n c = (λ _, c) <$> seq 0 n.
Proof.
  apply list_eq. intros i. rewrite list_lookup_fmap.
  destruct (decide (i < n)) as [Hi|Hi].
  - by rewrite lookup_replicate_2, lookup_seq_lt by done.
  - rewrite (proj1 (lookup_replicate_None n c i)) by lia. by rewrite lookup_seq_ge by lia.
Qed.

Lemma getitem2_nat (a : array2 A) (i j : nat) (v : A) :
  rows a !! i ≫= (.!! j) = Some v → j < ncol a → getitem2 a (Z.of_nat i) (Z.of_nat j) = Ok v.
Proof.
  intros Hv Hj. unfold getitem2.
  destruct (rows a !! i) as [r|] eqn:Hr; [|done].
  rewrite (np_index_nat (length (rows a)) i) by (by eapply lookup_lt_Some). simpl.
  rewrite np_index_nat by done. simpl. rewrite Hr. simpl in *. by rewrite Hv.
Qed.

(** The double loop shared by [insert_a_inbox] and [insert_b_inbox], started
    on a buffer whose content at offset [o] is [bg o]. *)
Lemma scatter_loop_spec (a : array2 A) (indices : list (Z * Z * Z)) (n : Z) (nx ny nz : Z)
    (bg : nat → A) (init : array4 A) :
  (0 ≤ n)%Z → is_mesh (nx, ny, nz) →
  array2_wf a → shape2 a = (length indices, Z.to_nat n) →
  dims init = (Z.to_nat n, Z.to_nat nx, Z.to_nat ny, Z.to_nat nz) →
  cells init = bg <$> seq 0 (size4 (dims init)) →
  Forall (in_box (nx, ny, nz)) indices →
  ∃ box,
    for_each (λ data i, col ← column a i; scatter_column i col indices data) (range n) init
    = Ok box ∧
    dims box = dims init ∧
    scatter_of box n (nx, ny, nz) a indices (λ idx, bg (offset_in (nx, ny, nz) idx)).
Proof.
  intros Hn (Hnx & Hny & Hnz) Hwf [= Hrows Hcol] Hd Hcells Hidx.
  set (d := dims init) in *.
  assert (Forall (in_box (Z.of_nat d.1.1.2, Z.of_nat d.1.2, Z.of_nat d.2)) indices) as Hidx'.
  { rewrite Hd. simpl. by rewrite !Z2Nat.id by done. }
  assert (range n = Z.of_nat <$> seq 0 (Z.to_nat n)) as Hrange.
  { rewrite <-range_nat. f_equal. lia. }
  exists {| dims := d; cells := store (cells init) (box_writes d a indices) |}.
  split; [|split].
  - rewrite Hrange. unfold scatter_column, box_writes.
    replace d.1.1.1 with (Z.to_nat n) by (by rewrite Hd).
    eapply scatter_loop_ok; [done|done|exact Hd| |].
    + apply Forall_forall. intros i. rewrite list_elem_of_In, in_seq. lia.
    + by rewrite !Z2Nat.id by done.
  - done.
  - intros i ix iy iz Hi Hbox.
    assert (in_box (Z.of_nat d.1.1.2, Z.of_nat d.1.2, Z.of_nat d.2) (ix, iy, iz)) as Hbox'.
    { rewrite Hd. simpl. by rewrite !Z2Nat.id by done. }
    assert (in_box (Z.of_nat (Z.to_nat nx), Z.of_nat (Z.to_nat ny), Z.of_nat (Z.to_nat nz))
              (ix, iy, iz)) as Hbox''.
    { by rewrite !Z2Nat.id by done. }
    assert (offset4 d (Z.to_nat i) (Z.to_nat ix) (Z.to_nat iy) (Z.to_nat iz) < size4 d) as Ho.
    { rewrite Hd. destruct Hbox as (? & ? & ?). apply offset4_lt; lia. }
    rewrite <-(Z2Nat.id i) by lia. split.
    + intros ik Hlast.
      destruct (lookup_lt_is_Some_2 (rows a) ik) as [r Hr].
      { rewrite Hrows. eapply lookup_lt_Some, Hlast. }
      destruct (lookup_lt_is_Some_2 r (Z.to_nat i)) as [v Hv].
      { unfold array2_wf in Hwf. rewrite Forall_lookup in Hwf. rewrite (Hwf _ _ Hr). lia. }
      exists v. split.
      * apply getitem2_nat; [|lia]. rewrite Hr. done.
      * eapply getitem4_in_box; [exact Hd|lia|done|]. simpl.
        change (concat _) with (box_writes d a indices).
        apply (box_store_hit d a indices _ _ ik);
          [done|by rewrite Hd|rewrite Hd; simpl; lia|done|done| |].
        -- by rewrite Hr.
        -- by rewrite Hcells, length_fmap, length_seq.
    + intros Hnin. eapply getitem4_in_box; [exact Hd|lia|done|]. simpl.
      change (concat _) with (box_writes d a indices).
      rewrite box_store_miss by done. rewrite Hcells, list_lookup_fmap, lookup_seq_lt by done.
      simpl. rewrite Hd, Nat2Z.id. done.
Qed.

End ScatterSpec.

(** ** The grid boxes of a polaron *)

Section Boxes.
Context `{K : Kmesh}.

Lemma setitem4_wf (data data' : array4 cplx) idx v :
  array4_wf data → setitem4 data idx v = Ok data' → array4_wf data'.
Proof.
  unfold setitem4, array4_wf. intros Hwf. destruct (locate4 data idx); simpl; [|done].
  intros [= <-]. simpl. by rewrite length_insert.
Qed.

Lemma scatter_wf (a : array2 cplx) (indices : list (Z * Z * Z)) (n : Z) (data data' : array4 cplx) :
  array4_wf data →
  for_each (λ data i, col ← column a i; scatter_column i col indices data) (range n) data
  = Ok data' →
  array4_wf data'.
Proof.
  apply for_each_invariant. clear. intros data i data' Hwf.
  destruct (column a i) as [col|]; simpl; [|done]. unfold scatter_column.
  apply for_each_invariant; [|done]. clear. intros data [c [[ix iy] iz]] data' Hwf.
  by apply setitem4_wf.
Qed.

Lemma alloc_wf (heap : nat → cplx) (fill_value : option cplx) shape (data : array4 cplx) :
  match fill_value with None => np_empty heap shape | Some c => np_full shape c end = Ok data →
  array4_wf data.
Proof.
  unfold np_empty, np_full, array4_wf. destruct fill_value, (check_shape shape); simpl; try done.
  - intros [= <-]. simpl. apply length_replicate.
  - intros [= <-]. simpl. by rewrite length_fmap, length_seq.
Qed.

Lemma insert_a_inbox_wf (heap : nat → cplx) (p : Polaron) fill_value a_data ngkpt sh :
  insert_a_inbox heap p fill_value = Ok (a_data, ngkpt, sh) → array4_wf a_data.
Proof.
  unfold insert_a_inbox. destruct (ngkpt_and_shifts p) as [[[[nx ny] nz] sh']|]; simpl; [|done].
  destruct (match fill_value with None => _ | Some c => _ end) as [init|] eqn:Hinit; simpl; [|done].
  destruct (for_each _ _ init) as [box|] eqn:Hbox; simpl; [|done].
  intros [= <- _ _]. eapply scatter_wf; [|exact Hbox]. by eapply alloc_wf.
Qed.

Lemma insert_b_inbox_wf (heap : nat → cplx) (p : Polaron) fill_value b_data mesh sh :
  insert_b_inbox heap p fill_value = Ok (b_data, mesh, sh) → array4_wf b_data.
Proof.
  unfold insert_b_inbox. destruct (ngqpt (r (varpeq p))) as [[nx ny] nz].
  destruct (match fill_value with None => _ | Some c => _ end) as [init|] eqn:Hinit; simpl; [|done].
  destruct (for_each _ _ init) as [box|] eqn:Hbox; simpl; [|done].
  intros [= <- _ _]. eapply scatter_wf; [|exact Hbox]. by eapply alloc_wf.
Qed.

Lemma check_shape_ok (n0 n1 n2 n3 : Z) :
  (0 ≤ n0 ∧ 0 ≤ n1 ∧ 0 ≤ n2 ∧ 0 ≤ n3)%Z →
  check_shape (n0, n1, n2, n3) = Ok (Z.to_nat n0, Z.to_nat n1, Z.to_nat n2, Z.to_nat n3).
Proof. intros H. unfold check_shape. by rewrite decide_True. Qed.

(** Both scatters, whatever the allocation put in the buffer. *)
Lemma insert_inbox_spec (a : array2 cplx) (indices : list (Z * Z * Z)) (n : Z) (ngkpt : Z * Z * Z)
    (bg : nat → cplx) (alloc : result (array4 cplx)) :
  (0 ≤ n)%Z → is_mesh ngkpt →
  array2_wf a → shape2 a = (length indices, Z.to_nat n) →
  Forall (in_box ngkpt) indices →
  (∀ d, check_shape (n, ngkpt.1.1, ngkpt.1.2, ngkpt.2) = Ok d →
        alloc = Ok {| dims := d; cells := bg <$> seq 0 (size4 d) |}) →
  ∃ init box,
    alloc = Ok init ∧
    for_each (λ data i, col ← column a i; scatter_column i col indices data) (range n) init
    = Ok box ∧
    shape4 box = (n, ngkpt.1.1, ngkpt.1.2, ngkpt.2) ∧
    scatter_of box n ngkpt a indices (λ idx, bg (offset_in ngkpt idx)).
Proof.
  destruct ngkpt as [[nx ny] nz]. intros Hn Hmesh Hwf Hshape Hidx Halloc.
  pose proof Hmesh as (Hnx & Hny & Hnz).
  rewrite (Halloc _ (check_shape_ok n nx ny nz (conj Hn Hmesh))).
  set (d := (Z.to_nat n, Z.to_nat nx, Z.to_nat ny, Z.to_nat nz)).
  destruct (scatter_loop_spec a indices n nx ny nz bg
              {| dims := d; cells := bg <$> seq 0 (size4 d) |})
    as (box & Hbox & Hdims & Hsc); [done..|].
  eexists _, box. split; [done|]. split; [done|]. split; [|done].
  unfold shape4. rewrite Hdims. simpl. by rewrite !Z2Nat.id by done.
Qed.

Lemma np_full_alloc (c : cplx) shape d :
  check_shape shape = Ok d →
  np_full shape c = Ok {| dims := d; cells := (λ _, c) <$> seq 0 (size4 d) |}.
Proof. intros Hd. unfold np_full. rewrite Hd. simpl. by rewrite replicate_as_fmap. Qed.

Lemma np_empty_alloc (heap : nat → cplx) shape d :
  check_shape shape = Ok d →
  np_empty heap shape = Ok {| dims := d; cells := heap <$> seq 0 (size4 d) |}.
Proof. intros Hd. unfold np_empty. by rewrite Hd. Qed.

Lemma Polaron_wf_a_kn (p : Polaron) (indices : list (Z * Z * Z)) :
  Polaron_wf p → length indices = length (rows (kpoints p)) →
  array2_wf (a_kn p) ∧ shape2 (a_kn p) = (length indices, Z.to_nat (nb p)).
Proof.
  intros (_ & (_ & [= Hk _]) & _ & (Hwf & Ha) & _) Hlen. split; [done|].
  by rewrite Ha, Hlen, Hk.
Qed.

Lemma Polaron_wf_b_qnu (p : Polaron) (indices : list (Z * Z * Z)) :
  Polaron_wf p → length indices = length (rows (qpoints p)) →
  array2_wf (b_qnu p) ∧
  shape2 (b_qnu p) = (length indices, Z.to_nat (3 * Z.of_nat (natom (structure (varpeq p))))).
Proof.
  intros (_ & _ & (_ & [= Hq _]) & _ & (Hwf & Hb)) Hlen. split; [done|].
  rewrite Hb, Hlen, Hq. f_equal. lia.
Qed.

(** The two boxes for any allocation whose buffer reads [bg o] at offset [o]. *)
Lemma insert_a_inbox_scatter (heap bg : nat → cplx) (p : Polaron) fill_value ngkpt sh :
  (∀ shape d, check_shape shape = Ok d →
     match fill_value with None => np_empty heap shape | Some c => np_full shape c end
     = Ok {| dims := d; cells := bg <$> seq 0 (size4 d) |}) →
  Polaron_wf p → ngkpt_and_shifts p = Ok (ngkpt, sh) → is_mesh ngkpt →
  maps_into_box ngkpt (kpoints p) (kpoints_indices (kpoints p) ngkpt) →
  ∃ a_data,
    insert_a_inbox heap p fill_value = Ok (a_data, ngkpt, ShiftArray sh) ∧
    shape4 a_data = (nb p, ngkpt.1.1, ngkpt.1.2, ngkpt.2) ∧
    scatter_of a_data (nb p) ngkpt (a_kn p) (kpoints_indices (kpoints p) ngkpt)
      (λ idx, bg (offset_in ngkpt idx)).
Proof.
  intros Halloc Hp Hngkpt Hmesh [Hlen Hidx].
  destruct (Polaron_wf_a_kn p _ Hp Hlen) as [Hwf Hshape].
  destruct (insert_inbox_spec (a_kn p) (kpoints_indices (kpoints p) ngkpt) (nb p) ngkpt bg
              (match fill_value with
               | None => np_empty heap (nb p, ngkpt.1.1, ngkpt.1.2, ngkpt.2)
               | Some c => np_full (nb p, ngkpt.1.1, ngkpt.1.2, ngkpt.2) c
               end))
    as (init & box & Hinit & Hbox & Hdims & Hsc); [apply Hp|done..|by apply Halloc|].
  exists box. split; [|done].
  unfold insert_a_inbox. rewrite Hngkpt. simpl. destruct ngkpt as [[nx ny] nz].
  simpl in *. rewrite Hinit. simpl. by rewrite Hbox.
Qed.

Lemma insert_b_inbox_scatter (heap bg : nat → cplx) (p : Polaron) fill_value :
  let ngqpt := ngqpt (r (varpeq p)) in
  let natom3 := (3 * Z.of_nat (natom (structure (varpeq p))))%Z in
  (∀ shape d, check_shape shape = Ok d →
     match fill_value with None => np_empty heap shape | Some c => np_full shape c end
     = Ok {| dims := d; cells := bg <$> seq 0 (size4 d) |}) →
  Polaron_wf p → is_mesh ngqpt →
  maps_into_box ngqpt (qpoints p) (kpoints_indices (qpoints p) ngqpt) →
  ∃ b_data,
    insert_b_inbox heap p fill_value = Ok (b_data, ngqpt, ShiftList [0; 0; 0]%Z) ∧
    shape4 b_data = (natom3, ngqpt.1.1, ngqpt.1.2, ngqpt.2) ∧
    scatter_of b_data natom3 ngqpt (b_qnu p) (kpoints_indices (qpoints p) ngqpt)
      (λ idx, bg (offset_in ngqpt idx)).
Proof.
  intros ngqpt natom3 Halloc Hp Hmesh [Hlen Hidx].
  destruct (Polaron_wf_b_qnu p _ Hp Hlen) as [Hwf Hshape].
  destruct (insert_inbox_spec (b_qnu p) (kpoints_indices (qpoints p) ngqpt) natom3 ngqpt bg
              (match fill_value with
               | None => np_empty heap (natom3, ngqpt.1.1, ngqpt.1.2, ngqpt.2)
               | Some c => np_full (natom3, ngqpt.1.1, ngqpt.1.2, ngqpt.2) c
               end))
    as (init & box & Hinit & Hbox & Hdims & Hsc); [unfold natom3; lia|done..|by apply Halloc|].
  exists box. split; [|done].
  unfold insert_b_inbox. fold ngqpt natom3. destruct ngqpt as [[nx ny] nz].
  simpl in *. rewrite Hinit. simpl. by rewrite Hbox.
Qed.

(** C1. For a polaron whose k-points all map to valid indices of the k-mesh
    box, [insert_a_inbox(fill_value=c)] returns an array of shape
    [(nb, nx, ny, nz)] whose cell [(ib, ix, iy, iz)] holds [a_kn[ik, ib]] for the
    last k-point [ik] with grid index [(ix, iy, iz)], and [c] when no k-point has
    that index; [insert_b_inbox] does the same for [b_qnu] on the
    [(3 * natom, ngqpt)] box, with the shifts [[0, 0, 0]]. *)
Theorem insert_inbox_fill_value (heap : nat → cplx) (p : Polaron) (c : cplx) :
  Polaron_wf p →
  (∀ ngkpt sh,
     ngkpt_and_shifts p = Ok (ngkpt, sh) → is_mesh ngkpt →
     maps_into_box ngkpt (kpoints p) (kpoints_indices (kpoints p) ngkpt) →
     ∃ a_data,
       insert_a_inbox heap p (Some c) = Ok (a_data, ngkpt, ShiftArray sh) ∧
       shape4 a_data = (nb p, ngkpt.1.1, ngkpt.1.2, ngkpt.2) ∧
       scatter_of a_data (nb p) ngkpt (a_kn p) (kpoints_indices (kpoints p) ngkpt) (λ _, c)) ∧
  (let ngqpt := ngqpt (r (varpeq p)) in
   let natom3 := (3 * Z.of_nat (natom (structure (varpeq p))))%Z in
   is_mesh ngqpt →
   maps_into_box ngqpt (qpoints p) (kpoints_indices (qpoints p) ngqpt) →
   ∃ b_data,
     insert_b_inbox heap p (Some c) = Ok (b_data, ngqpt, ShiftList [0; 0; 0]%Z) ∧
     shape4 b_data = (natom3, ngqpt.1.1, ngqpt.1.2, ngqpt.2) ∧
     scatter_of b_data natom3 ngqpt (b_qnu p) (kpoints_indices (qpoints p) ngqpt) (λ _, c)).
Proof.
  intros Hp. split.
  - intros ngkpt sh Hngkpt Hmesh Hmap.
    apply (insert_a_inbox_scatter heap (λ _, c)); [|done..].
    intros shape d Hd. by apply np_full_alloc.
  - intros ngqpt natom3 Hmesh Hmap.
    apply (insert_b_inbox_scatter heap (λ _, c)); [|done..].
    intros shape d Hd. by apply np_full_alloc.
Qed.

End Boxes.

(** ** Interpolation of the squared moduli *)

Lemma getitem4_map4 {A B} (f : A → B) (a : array4 A) idx :
  getitem4 (map4 f a) idx = f <$> getitem4 a idx.
Proof.
  unfold getitem4. change (locate4 (map4 f a) idx) with (locate4 a idx).
  destruct (locate4 a idx) as [o|]; simpl; [|done].
  rewrite list_lookup_fmap. by destruct (cells a !! o).
Qed.

Section Interpolation.
Context `{I : RegularGridInterpolator}.

(** C10. With [fill_value=None] a cell of the box that no stored k-point (or
    q-point) targets holds whatever [np.empty] found in memory, and the
    squared-modulus box handed to the interpolator holds its squared modulus:
    the box is a function of the memory content, not of the file alone. *)
Theorem insert_inbox_uninitialised (p : Polaron) :
  Polaron_wf p →
  (∀ ngkpt sh i ix iy iz,
     ngkpt_and_shifts p = Ok (ngkpt, sh) → is_mesh ngkpt →
     maps_into_box ngkpt (kpoints p) (kpoints_indices (kpoints p) ngkpt) →
     (0 ≤ i < nb p)%Z → in_box ngkpt (ix, iy, iz) →
     (ix, iy, iz) ∉ kpoints_indices (kpoints p) ngkpt →
     ∀ heap : nat → cplx, ∃ a_data,
       insert_a_inbox heap p None = Ok (a_data, ngkpt, ShiftArray sh) ∧
       getitem4 a_data (i, ix, iy, iz) = Ok (heap (offset_in ngkpt (i, ix, iy, iz))) ∧
       get_a2_interpolator heap p
       = Ok (BzRegularGridInterpolator (structure (varpeq p)) (ShiftArray sh) (map4 abs2 a_data)) ∧
       getitem4 (map4 abs2 a_data) (i, ix, iy, iz)
       = Ok (abs2 (heap (offset_in ngkpt (i, ix, iy, iz))))) ∧
  (let ngqpt := ngqpt (r (varpeq p)) in
   let natom3 := (3 * Z.of_nat (natom (structure (varpeq p))))%Z in
   ∀ nu ix iy iz,
     is_mesh ngqpt →
     maps_into_box ngqpt (qpoints p) (kpoints_indices (qpoints p) ngqpt) →
     (0 ≤ nu < natom3)%Z → in_box ngqpt (ix, iy, iz) →
     (ix, iy, iz) ∉ kpoints_indices (qpoints p) ngqpt →
     ∀ heap : nat → cplx, ∃ b_data,
       insert_b_inbox heap p None = Ok (b_data, ngqpt, ShiftList [0; 0; 0]%Z) ∧
       getitem4 b_data (nu, ix, iy, iz) = Ok (heap (offset_in ngqpt (nu, ix, iy, iz))) ∧
       get_b2_interpolator heap p
       = Ok (BzRegularGridInterpolator (structure (varpeq p)) (ShiftList [0; 0; 0]%Z)
               (map4 abs2 b_data)) ∧
       getitem4 (map4 abs2 b_data) (nu, ix, iy, iz)
       = Ok (abs2 (heap (offset_in ngqpt (nu, ix, iy, iz))))).
Proof.
  intros Hp. split.
  - intros ngkpt sh i ix iy iz Hngkpt Hmesh Hmap Hi Hbox Hnin heap.
    destruct (insert_a_inbox_scatter heap heap p None ngkpt sh) as (a_data & Ha & _ & Hsc);
      [by intros; apply np_empty_alloc|done..|].
    destruct (Hsc i ix iy iz Hi Hbox) as [_ Hcell]. specialize (Hcell Hnin).
    exists a_data. split_and!; [done|done| |].
    + unfold get_a2_interpolator. by rewrite Ha.
    + by rewrite getitem4_map4, Hcell.
  - intros ngqpt natom3 nu ix iy iz Hmesh Hmap Hnu Hbox Hnin heap.
    destruct (insert_b_inbox_scatter heap heap p None) as (b_data & Hb & _ & Hsc);
      [by intros; apply np_empty_alloc|done..|].
    destruct (Hsc nu ix iy iz Hnu Hbox) as [_ Hcell]. specialize (Hcell Hnin).
    exists b_data. split_and!; [done|done| |].
    + unfold get_b2_interpolator. by rewrite Hb.
    + by rewrite getitem4_map4, Hcell.
Qed.

End Interpolation.

(** ** Linear interpolation over the box, in exact arithmetic *)

Section LinearInterpolation.
Context {K : @Kmesh Qnumerics}.

Lemma lerp_0 (t a b : Q) : (t == 0)%Q → (lerp t a b == a)%Q.
Proof. intros Ht. unfold lerp. rewrite Ht. ring. Qed.

Lemma Qaxis_node (n : Z) (k : Q) (i : Z) :
  on_node n k i → (Qaxis n k).1 = i ∧ ((Qaxis n k).2 == 0)%Q.
Proof.
  unfold on_node, Qaxis. intros Hk. cbv zeta. cbn [fst snd].
  assert (Qfloor ((k - inject_Z (Qfloor k)) * inject_Z n) = i) as Hf.
  { rewrite Hk. apply Qfloor_Z. }
  split; [exact Hf|]. rewrite Hf, Hk. ring.
Qed.

Lemma getitem4_total (data : array4 Q) (ndat nx ny nz : nat) (i ix iy iz : Z) :
  dims data = (ndat, nx, ny, nz) → array4_wf data → (0 ≤ i < Z.of_nat ndat)%Z →
  in_box (Z.of_nat nx, Z.of_nat ny, Z.of_nat nz) (ix, iy, iz) →
  ∃ v, getitem4 data (i, ix, iy, iz) = Ok v ∧ v ∈ cells data.
Proof.
  intros Hd Hwf Hi Hbox.
  destruct (lookup_lt_is_Some_2 (cells data)
              (offset4 (dims data) (Z.to_nat i) (Z.to_nat ix) (Z.to_nat iy) (Z.to_nat iz)))
    as [v Hv].
  { rewrite Hwf, Hd. destruct Hbox as (? & ? & ?). apply offset4_lt; lia. }
  exists v. split; [|by eapply list_elem_of_lookup_2].
  rewrite <-(Z2Nat.id i) by lia. eapply getitem4_in_box; [exact Hd|lia|done|done].
Qed.

Lemma next_node_in_box (nx ny nz : nat) (ix iy iz a b c : Z) :
  (0 < Z.of_nat nx ∧ 0 < Z.of_nat ny ∧ 0 < Z.of_nat nz)%Z →
  in_box (Z.of_nat nx, Z.of_nat ny, Z.of_nat nz)
    ((ix + a) `mod` Z.of_nat nx, (iy + b) `mod` Z.of_nat ny, (iz + c) `mod` Z.of_nat nz)%Z.
Proof.
  intros (Hx & Hy & Hz). unfold in_box.
  pose proof (Z.mod_pos_bound (ix + a) (Z.of_nat nx) Hx).
  pose proof (Z.mod_pos_bound (iy + b) (Z.of_nat ny) Hy).
  pose proof (Z.mod_pos_bound (iz + c) (Z.of_nat nz) Hz). lia.
Qed.

(** The interpolator gives a value for each grid of the box at every point
    with three coordinates. *)
Lemma Qlinear_eval_total (data : array4 Q) (ndat nx ny nz : nat) (kpt : list Q) :
  dims data = (ndat, nx, ny, nz) → array4_wf data →
  (0 < Z.of_nat nx ∧ 0 < Z.of_nat ny ∧ 0 < Z.of_nat nz)%Z →
  length kpt = 3 →
  ∃ vals, Qlinear_eval data kpt = Ok vals ∧ length vals = ndat.
Proof.
  intros Hd Hwf Hpos Hlen.
  destruct kpt as [|kx [|ky [|kz [|? ?]]]]; try done.
  unfold Qlinear_eval. rewrite Hd.
  destruct (Qaxis (Z.of_nat nx) kx) as [ix tx], (Qaxis (Z.of_nat ny) ky) as [iy ty],
    (Qaxis (Z.of_nat nz) kz) as [iz tz].
  match goal with |- ∃ vals, comprehension ?f ?xs = _ ∧ _ =>
    destruct (comprehension_Ok f xs) as (vals & Hvals & Hall) end.
  - apply Forall_forall. intros idat Hidat. apply elem_of_seqZ in Hidat.
    destruct (getitem4_total data ndat nx ny nz idat _ _ _ Hd Hwf ltac:(lia)
                (next_node_in_box nx ny nz ix iy iz 0 0 0 Hpos)) as (v000 & -> & _).
    destruct (getitem4_total data ndat nx ny nz idat _ _ _ Hd Hwf ltac:(lia)
                (next_node_in_box nx ny nz ix iy iz 0 0 1 Hpos)) as (v001 & -> & _).
    destruct (getitem4_total data ndat nx ny nz idat _ _ _ Hd Hwf ltac:(lia)
                (next_node_in_box nx ny nz ix iy iz 0 1 0 Hpos)) as (v010 & -> & _).
    destruct (getitem4_total data ndat nx ny nz idat _ _ _ Hd Hwf ltac:(lia)
                (next_node_in_box nx ny nz ix iy iz 0 1 1 Hpos)) as (v011 & -> & _).
    destruct (getitem4_total data ndat nx ny nz idat _ _ _ Hd Hwf ltac:(lia)
                (next_node_in_box nx ny nz ix iy iz 1 0 0 Hpos)) as (v100 & -> & _).
    destruct (getitem4_total data ndat nx ny nz idat _ _ _ Hd Hwf ltac:(lia)
                (next_node_in_box nx ny nz ix iy iz 1 0 1 Hpos)) as (v101 & -> & _).
    destruct (getitem4_total data ndat nx ny nz idat _ _ _ Hd Hwf ltac:(lia)
                (next_node_in_box nx ny nz ix iy iz 1 1 0 Hpos)) as (v110 & -> & _).
    destruct (getitem4_total data ndat nx ny nz idat _ _ _ Hd Hwf ltac:(lia)
                (next_node_in_box nx ny nz ix iy iz 1 1 1 Hpos)) as (v111 & -> & _).
    bind_ok. by eexists.
  - exists vals. split; [done|]. apply Forall2_length in Hall.
    rewrite <-Hall. unfold range. rewrite length_seqZ. lia.
Qed.

(** At a node of the mesh the interpolator gives the values the box holds
    there, when these are reduced fractions. *)
Lemma Qlinear_eval_node (data : array4 Q) (ndat nx ny nz : nat) (kpt : list Q) (ix iy iz : Z) :
  dims data = (ndat, nx, ny, nz) → array4_wf data →
  Forall (λ v, Qred v = v) (cells data) →
  in_box (Z.of_nat nx, Z.of_nat ny, Z.of_nat nz) (ix, iy, iz) →
  at_node (Z.of_nat nx, Z.of_nat ny, Z.of_nat nz) kpt (ix, iy, iz) →
  Qlinear_eval data kpt
  = comprehension (λ idat, getitem4 data (idat, ix, iy, iz)) (range (Z.of_nat ndat)).
Proof.
  intros Hd Hwf Hred Hbox Hnode.
  destruct kpt as [|kx [|ky [|kz [|? ?]]]]; try done.
  destruct Hnode as (Hx & Hy & Hz).
  apply Qaxis_node in Hx as [Hix Htx], Hy as [Hiy Hty], Hz as [Hiz Htz].
  unfold Qlinear_eval. rewrite Hd.
  destruct (Qaxis (Z.of_nat nx) kx) as [ix' tx], (Qaxis (Z.of_nat ny) ky) as [iy' ty],
    (Qaxis (Z.of_nat nz) kz) as [iz' tz]. simpl in *. subst ix' iy' iz'.
  assert (0 < Z.of_nat nx ∧ 0 < Z.of_nat ny ∧ 0 < Z.of_nat nz)%Z as Hpos
    by (unfold in_box in Hbox; lia).
  apply comprehension_ext, Forall_forall. intros idat Hidat. apply elem_of_seqZ in Hidat.
  destruct (getitem4_total data ndat nx ny nz idat _ _ _ Hd Hwf ltac:(lia)
              (next_node_in_box nx ny nz ix iy iz 0 0 0 Hpos)) as (v000 & H000 & Hin).
  destruct (getitem4_total data ndat nx ny nz idat _ _ _ Hd Hwf ltac:(lia)
              (next_node_in_box nx ny nz ix iy iz 0 0 1 Hpos)) as (v001 & -> & _).
  destruct (getitem4_total data ndat nx ny nz idat _ _ _ Hd Hwf ltac:(lia)
              (next_node_in_box nx ny nz ix iy iz 0 1 0 Hpos)) as (v010 & -> & _).
  destruct (getitem4_total data ndat nx ny nz idat _ _ _ Hd Hwf ltac:(lia)
              (next_node_in_box nx ny nz ix iy iz 0 1 1 Hpos)) as (v011 & -> & _).
  destruct (getitem4_total data ndat nx ny nz idat _ _ _ Hd Hwf ltac:(lia)
              (next_node_in_box nx ny nz ix iy iz 1 0 0 Hpos)) as (v100 & -> & _).
  destruct (getitem4_total data ndat nx ny nz idat _ _ _ Hd Hwf ltac:(lia)
              (next_node_in_box nx ny nz ix iy iz 1 0 1 Hpos)) as (v101 & -> & _).
  destruct (getitem4_total data ndat nx ny nz idat _ _ _ Hd Hwf ltac:(lia)
              (next_node_in_box nx ny nz ix iy iz 1 1 0 Hpos)) as (v110 & -> & _).
  destruct (getitem4_total data ndat nx ny nz idat _ _ _ Hd Hwf ltac:(lia)
              (next_node_in_box nx ny nz ix iy iz 1 1 1 Hpos)) as (v111 & -> & _).
  rewrite H000. bind_ok.
  assert (getitem4 data (idat, ix, iy, iz) = Ok v000) as ->.
  { rewrite <-H000. unfold in_box in Hbox. rewrite !Z.add_0_r, !Z.mod_small by lia. done. }
  f_equal. rewrite Forall_forall in Hred. rewrite <-(Hred v000 Hin) at 2.
  apply Qred_complete.
  rewrite (lerp_0 tx) by done. rewrite (lerp_0 ty) by done. by apply lerp_0.
Qed.

Lemma abs2_reduced (box : array4 cplx) : Forall (λ v, Qred v = v) (cells (map4 abs2 box)).
Proof.
  simpl. apply Forall_fmap, Forall_forall. intros z _. simpl. apply Qred_complete, Qred_correct.
Qed.

Lemma interpolates_of_scatter insert (get : (nat → cplx) → result interpolator) st sh n ngkpt
    (a : array2 cplx) (kpts : array2 float) (bg : (nat → cplx) → Z * Z * Z * Z → cplx) :
  (0 ≤ n)%Z → positive_mesh ngkpt →
  Forall (in_box ngkpt) (kpoints_indices kpts ngkpt) →
  on_mesh ngkpt kpts (kpoints_indices kpts ngkpt) →
  (∀ heap, ∃ box,
     insert heap = Ok (box, ngkpt, sh) ∧
     get heap = Ok (BzRegularGridInterpolator st sh (map4 abs2 box)) ∧
     shape4 box = (n, ngkpt.1.1, ngkpt.1.2, ngkpt.2) ∧ array4_wf box ∧
     scatter_of box n ngkpt a (kpoints_indices kpts ngkpt) (bg heap)) →
  interpolates insert get st sh n ngkpt a kpts.
Proof.
  destruct ngkpt as [[nx ny] nz]. intros Hn (Hnx & Hny & Hnz) Hidx Hmesh Hget heap.
  destruct (Hget heap) as (box & Hins & Hg & Hshape & Hwf & Hsc).
  exists box. split_and!; [done..| |].
  - intros _ ik kpt [[ix iy] iz] Hkpt Hlast.
    assert (in_box (nx, ny, nz) (ix, iy, iz)) as Hbox.
    { rewrite Forall_lookup in Hidx. eapply Hidx, Hlast. }
    assert (at_node (nx, ny, nz) kpt (ix, iy, iz)) as Hnode.
    { eapply Forall2_lookup_lr; [exact Hmesh|exact Hkpt|apply Hlast]. }
    unfold shape4 in Hshape. destruct (dims box) as [[[n0 mx] my] mz] eqn:Hd.
    injection Hshape as <- <- <- <-.
    destruct (comprehension_Ok (λ i, abs2 <$> getitem2 a (Z.of_nat ik) i) (range (Z.of_nat n0)))
      as (vals & Hvals & _).
    { apply Forall_forall. intros i Hi. apply elem_of_seqZ in Hi.
      destruct (Hsc i ix iy iz) as [Hhit _]; [lia|done|].
      destruct (Hhit ik Hlast) as (v & -> & _). by eexists. }
    exists vals. split; [done|]. rewrite <-Hvals.
    change (eval_kpoint (BzRegularGridInterpolator st sh (map4 abs2 box)) kpt)
      with (Qlinear_eval (map4 abs2 box) kpt).
    rewrite (Qlinear_eval_node (map4 abs2 box) n0 mx my mz kpt ix iy iz);
      [|done|unfold array4_wf in *; simpl; by rewrite length_fmap|apply abs2_reduced|done|done].
    apply comprehension_ext, Forall_forall. intros i Hi. apply elem_of_seqZ in Hi.
    destruct (Hsc i ix iy iz) as [Hhit _]; [lia|done|].
    destruct (Hhit ik Hlast) as (v & -> & Hv). by rewrite getitem4_map4, Hv.
  - intros kpt Hlen. unfold shape4 in Hshape. destruct (dims box) as [[[n0 mx] my] mz] eqn:Hd.
    injection Hshape as <- <- <- <-. rewrite Nat2Z.id.
    apply (Qlinear_eval_total (map4 abs2 box) n0 mx my mz kpt); [done| |lia|done].
    unfold array4_wf in *. simpl. by rewrite length_fmap.
Qed.

(** C3 (as amended). [get_a2_interpolator] and [get_b2_interpolator] build the
    interpolator over the squared moduli of the box of [insert_a_inbox] and
    [insert_b_inbox].  When the stored points, which are points of the mesh,
    cover it, the (linear) interpolator evaluated at a stored point that is
    the last one with its grid index gives the squared moduli of that
    point's coefficients; and it can be evaluated at every point. *)
Theorem squared_modulus_interpolators (p : Polaron) :
  Polaron_wf p →
  (∀ ngkpt sh,
     ngkpt_and_shifts p = Ok (ngkpt, sh) → positive_mesh ngkpt →
     maps_into_box ngkpt (kpoints p) (kpoints_indices (kpoints p) ngkpt) →
     on_mesh ngkpt (kpoints p) (kpoints_indices (kpoints p) ngkpt) →
     interpolates (λ heap, insert_a_inbox heap p None) (λ heap, get_a2_interpolator heap p)
       (structure (varpeq p)) (ShiftArray sh) (nb p) ngkpt (a_kn p) (kpoints p)) ∧
  (let ngqpt := ngqpt (r (varpeq p)) in
   let natom3 := (3 * Z.of_nat (natom (structure (varpeq p))))%Z in
   positive_mesh ngqpt →
   maps_into_box ngqpt (qpoints p) (kpoints_indices (qpoints p) ngqpt) →
   on_mesh ngqpt (qpoints p) (kpoints_indices (qpoints p) ngqpt) →
   interpolates (λ heap, insert_b_inbox heap p None) (λ heap, get_b2_interpolator heap p)
     (structure (varpeq p)) (ShiftList [0; 0; 0]%Z) natom3 ngqpt (b_qnu p) (qpoints p)).
Proof.
  intros Hp. split.
  - intros ngkpt sh Hngkpt Hpos Hmap Hmesh.
    assert (is_mesh ngkpt) as Hm by (destruct ngkpt as [[? ?] ?]; simpl in *; lia).
    apply (interpolates_of_scatter _ _ _ _ _ _ _ _ (λ heap idx, heap (offset_in ngkpt idx)));
      [apply Hp|done|apply Hmap|done|].
    intros heap.
    destruct (insert_a_inbox_scatter heap heap p None ngkpt sh) as (a_data & Ha & Hshape & Hsc);
      [by intros; apply np_empty_alloc|done..|].
    exists a_data. split_and!; [done| |done| |done].
    + unfold get_a2_interpolator. by rewrite Ha.
    + by eapply insert_a_inbox_wf.
  - intros ngqpt natom3 Hpos Hmap Hmesh.
    assert (is_mesh ngqpt) as Hm by (destruct ngqpt as [[? ?] ?]; simpl in *; lia).
    apply (interpolates_of_scatter _ _ _ _ _ _ _ _ (λ heap idx, heap (offset_in ngqpt idx)));
      [unfold natom3; lia|done|apply Hmap|done|].
    intros heap.
    destruct (insert_b_inbox_scatter heap heap p None) as (b_data & Hb & Hshape & Hsc);
      [by intros; apply np_empty_alloc|done..|].
    exists b_data. split_and!; [done| |done| |done].
    + unfold get_b2_interpolator. by rewrite Hb.
    + by eapply insert_b_inbox_wf.
Qed.

End LinearInterpolation.

(** ** The reader *)

Section Reader.
Context `{K : Kmesh}.

Lemma getitem1_valid {A} (l : list A) (n : nat) (i : Z) :
  length l = n → (0 ≤ i < Z.of_nat n)%Z →
  ∃ x, l !! Z.to_nat i = Some x ∧ getitem1 l i = Ok x.
Proof.
  intros Hlen Hi. destruct (lookup_lt_is_Some_2 l (Z.to_nat i)) as [x Hx]; [lia|].
  exists x. split; [done|]. rewrite <-(Z2Nat.id i) by lia. by apply getitem1_nat.
Qed.

Lemma last_iteration_spec (f : VarpeqFile) (spin : Z) :
  VarpeqFile_wf f → (0 ≤ spin < Z.of_nat (nsppol (r f)))%Z →
  ∃ nstep2cv iter_rec rec d,
    var_nstep2cv (nc (r f)) !! Z.to_nat spin = Some nstep2cv ∧
    var_iter_rec (nc (r f)) !! Z.to_nat spin = Some iter_rec ∧
    rows iter_rec !! Z.to_nat (nstep2cv - 1) = Some rec ∧
    get_last_iteration_dict_ev f spin = Ok d ∧
    keys d = ["E_pol"; "E_el"; "E_ph"; "elph"; "epsilon"] ∧
    ∀ j key, keys d !! j = Some key →
      ∃ x, rec !! j = Some x ∧ d !! j = Some (key, fmul x Ha_eV).
Proof.
  intros [Hr (nstep & max_nk & max_nq & max_nb & Hlen & Hrec & _ & _ & _ & _ & Hcv & _)] Hspin.
  rewrite Hr in Hspin. simpl in Hspin.
  destruct Hlen as (_ & _ & _ & Hlcv & Hlrec & _).
  destruct (getitem1_valid (var_nstep2cv (nc (r f))) _ spin Hlcv Hspin) as (n & Hn & Hgn).
  destruct (getitem1_valid (var_iter_rec (nc (r f))) _ spin Hlrec Hspin) as (a & Ha & Hga).
  rewrite Forall_lookup in Hcv. specialize (Hcv _ _ Hn).
  rewrite Forall_lookup in Hrec. destruct (Hrec _ _ Ha) as [Hwf [= Hrows Hcol]].
  destruct (getitem1_valid (rows a) nstep (n - 1) Hrows) as (rec & Hrec' & Hgrec); [lia|].
  unfold array2_wf in Hwf. rewrite Forall_lookup in Hwf. pose proof (Hwf _ _ Hrec') as Hl.
  rewrite Hcol in Hl.
  destruct rec as [|x0 [|x1 [|x2 [|x3 [|x4 [|x5 [|]]]]]]]; try done.
  exists n, a, [x0; x1; x2; x3; x4; x5]. eexists. split_and!; [done..| | |].
  - unfold get_last_iteration_dict_ev. rewrite Hgn. simpl. rewrite Hga. simpl.
    unfold row. rewrite Hgrec. simpl. reflexivity.
  - reflexivity.
  - intros j key Hj. do 5 (destruct j as [|j]; [injection Hj as <-; eexists; by split|]).
    done.
Qed.


(** C5. For an open file and a valid spin, [get_last_iteration_dict_ev]
    returns a dict with exactly the keys E_pol, E_el, E_ph, elph, epsilon, in
    this order, whose values are the components of the iteration record at
    index [nstep2cv[spin] - 1] multiplied by [Ha_eV]. *)
Theorem get_last_iteration_dict_ev_spec (f : VarpeqFile) (spin : Z) :
  VarpeqFile_wf f → (0 ≤ spin < Z.of_nat (nsppol (r f)))%Z →
  ∃ nstep2cv iter_rec rec d,
    var_nstep2cv (nc (r f)) !! Z.to_nat spin = Some nstep2cv ∧
    var_iter_rec (nc (r f)) !! Z.to_nat spin = Some iter_rec ∧
    rows iter_rec !! Z.to_nat (nstep2cv - 1) = Some rec ∧
    get_last_iteration_dict_ev f spin = Ok d ∧
    keys d = ["E_pol"; "E_el"; "E_ph"; "elph"; "epsilon"] ∧
    ∀ j key, keys d !! j = Some key →
      ∃ x, rec !! j = Some x ∧ d !! j = Some (key, fmul x Ha_eV).
Proof. apply last_iteration_spec. Qed.

Lemma slice_stop_nonneg (len : nat) (n : Z) :
  (0 ≤ n ≤ Z.of_nat len)%Z → slice_stop len n = Z.to_nat n.
Proof. intros Hn. unfold slice_stop. rewrite decide_True by lia. lia. Qed.

Lemma slice_rows_shape {A} (a : array2 A) (nrow ncol : nat) (n : Z) :
  has_shape nrow ncol a → (0 ≤ n ≤ Z.of_nat nrow)%Z →
  has_shape (Z.to_nat n) ncol (slice_rows n a).
Proof.
  intros [Hwf [= Hrows Hcol]] Hn. unfold has_shape, array2_wf, shape2, slice_rows, slice_to.
  simpl. rewrite slice_stop_nonneg by lia. split.
  - by apply Forall_take.
  - rewrite length_take, Hcol. f_equal. lia.
Qed.

Lemma slice_rows_cols_shape {A} (a : array2 A) (nrow ncol : nat) (n m : Z) :
  has_shape nrow ncol a → (0 ≤ n ≤ Z.of_nat nrow)%Z → (0 ≤ m ≤ Z.of_nat ncol)%Z →
  has_shape (Z.to_nat n) (Z.to_nat m) (slice_rows_cols n m a).
Proof.
  intros [Hwf [= Hrows Hcol]] Hn Hm.
  unfold has_shape, array2_wf, shape2, slice_rows_cols, slice_to. simpl.
  rewrite !slice_stop_nonneg by lia. split.
  - apply Forall_fmap, Forall_take. eapply Forall_impl; [exact Hwf|].
    intros row' Hl. simpl in *. rewrite length_take. lia.
  - rewrite length_fmap, length_take. f_equal. lia.
Qed.

(** What [from_varpeq] builds for a valid spin of an open file. *)
Lemma from_varpeq_spec (f : VarpeqFile) (s : Z) :
  VarpeqFile_wf f → (0 ≤ s < Z.of_nat (nsppol (r f)))%Z →
  ∃ p b,
    from_varpeq f s = Ok p ∧ spin p = s ∧ varpeq p = f ∧ Polaron_wf p ∧
    var_brange_spin (nc (r f)) !! Z.to_nat s = Some b ∧
    bstart p = (b.1 - 1)%Z ∧ bstop p = b.2 ∧ nb p = (bstop p - bstart p)%Z.
Proof.
  intros [Hr (nstep & max_nk & max_nq & max_nb & Hlen & _ & Hk & Hq & Ha & Hb & _ & Hnk & Hnq & Hbr)] Hs.
  destruct Hlen as (Hlnk & Hlnq & Hlbr & _ & _ & Hlk & Hlq & Hla & Hlb).
  rewrite Hr in Hs. simpl in Hs.
  destruct (getitem1_valid _ _ s Hlnk Hs) as (nk & Hnk' & Hgnk).
  destruct (getitem1_valid _ _ s Hlnq Hs) as (nq & Hnq' & Hgnq).
  destruct (getitem1_valid _ _ s Hlbr Hs) as (b & Hb' & Hgb).
  destruct (getitem1_valid _ _ s Hlk Hs) as (kpts & Hkpts & Hgk).
  destruct (getitem1_valid _ _ s Hlq Hs) as (qpts & Hqpts & Hgq).
  destruct (getitem1_valid _ _ s Hla Hs) as (a & Ha' & Hga).
  destruct (getitem1_valid _ _ s Hlb Hs) as (bq & Hbq & Hgbq).
  rewrite Forall_lookup in Hk. rewrite Forall_lookup in Hq. rewrite Forall_lookup in Ha.
  rewrite Forall_lookup in Hb. rewrite Forall_lookup in Hnk. rewrite Forall_lookup in Hnq.
  rewrite Forall_lookup in Hbr.
  specialize (Hk _ _ Hkpts). specialize (Hq _ _ Hqpts). specialize (Ha _ _ Ha').
  specialize (Hb _ _ Hbq). specialize (Hnk _ _ Hnk'). specialize (Hnq _ _ Hnq').
  specialize (Hbr _ _ Hb'). destruct b as [b0 b1]. simpl in Hbr.
  assert (getitem1 (brange_spin (r f)) s = Ok (b0 - 1, b1)%Z) as Hgbr.
  { rewrite Hr. simpl. rewrite <-(Z2Nat.id s) by lia. apply getitem1_nat.
    by rewrite list_lookup_fmap, Hb'. }
  assert (getitem1 (nb_spin (r f)) s = Ok (b1 - (b0 - 1))%Z) as Hgnb.
  { rewrite Hr. simpl. rewrite <-(Z2Nat.id s) by lia. apply getitem1_nat.
    by rewrite !list_lookup_fmap, Hb'. }
  eexists _, (b0, b1). split.
  { unfold from_varpeq. rewrite Hgbr, Hgnb. rewrite Hr. simpl.
    rewrite Hgnk, Hgnq, Hgk, Hgq, Hga, Hgbq. simpl. reflexivity. }
  simpl. split_and!; try done.
  unfold Polaron_wf. simpl. split_and!; try lia.
  - by apply (slice_rows_shape kpts max_nk 3).
  - by apply (slice_rows_shape kpts max_nk 3).
  - by apply (slice_rows_shape qpts max_nq 3).
  - by apply (slice_rows_shape qpts max_nq 3).
  - apply (slice_rows_cols_shape a max_nk max_nb); [done|lia..].
  - apply (slice_rows_cols_shape a max_nk max_nb); [done|lia..].
  - by eapply slice_rows_shape.
  - unfold structure, ebands. eapply slice_rows_shape; [|done]. exact Hb.
Qed.

(** C7. [polaron_spin] of an open file is a list of [nsppol] polarons; the
    one at position [i] has [spin == i], k-points of shape [(nk, 3)], q-points of
    shape [(nq, 3)], [a_kn] of shape [(nk, nb)], [b_qnu] of shape
    [(nq, 3 * natom)], and [nb == bstop - bstart], where [bstart] is the
    Fortran start of the band range minus one and [bstop] its Fortran end. *)
Theorem polaron_spin_spec (f : VarpeqFile) :
  VarpeqFile_wf f →
  ∃ ps,
    polaron_spin f = Ok ps ∧ length ps = nsppol (r f) ∧
    ∀ i p, ps !! i = Some p →
      spin p = Z.of_nat i ∧
      shape2 (kpoints p) = (Z.to_nat (nk p), 3) ∧
      shape2 (qpoints p) = (Z.to_nat (nq p), 3) ∧
      shape2 (a_kn p) = (Z.to_nat (nk p), Z.to_nat (nb p)) ∧
      shape2 (b_qnu p) = (Z.to_nat (nq p), 3 * natom (structure f)) ∧
      (0 ≤ nk p ∧ 0 ≤ nq p ∧ 0 ≤ nb p)%Z ∧
      nb p = (bstop p - bstart p)%Z ∧
      ∃ b, var_brange_spin (nc (r f)) !! i = Some b ∧
           bstart p = (b.1 - 1)%Z ∧ bstop p = b.2.
Proof.
  intros Hf. unfold polaron_spin. rewrite range_nat.
  destruct (comprehension_Ok (from_varpeq f) (Z.of_nat <$> seq 0 (nsppol (r f))))
    as (ps & Hps & Hall).
  { apply Forall_fmap, Forall_forall. intros i Hi. simpl.
    apply list_elem_of_In, in_seq in Hi.
    destruct (from_varpeq_spec f (Z.of_nat i) Hf) as (p & _ & Hp & _); [lia|]. by exists p. }
  exists ps. split; [done|]. split.
  { apply Forall2_length in Hall. by rewrite length_fmap, length_seq in Hall. }
  intros i p Hi.
  destruct (Forall2_lookup_r _ _ _ _ _ Hall Hi) as (s & Hs & Hfrom).
  rewrite list_lookup_fmap in Hs. destruct (seq 0 (nsppol (r f)) !! i) as [i'|] eqn:Hseq; [|done].
  apply lookup_seq in Hseq as [-> Hlt]. injection Hs as <-. simpl in Hfrom.
  destruct (from_varpeq_spec f (Z.of_nat i) Hf) as (p' & b & Hp' & Hspin & Hvar & Hwf & Hb & ? & ? & ?);
    [lia|].
  rewrite Hfrom in Hp'. injection Hp' as <-.
  destruct Hwf as (? & (_ & ?) & (_ & ?) & (_ & ?) & (_ & Hbq)).
  rewrite Hvar in Hbq. rewrite Nat2Z.id in Hb.
  split_and!; try done; try lia. by exists b.
Qed.

End Reader.

(** ** Titles and the SCF plot *)

Section TitleProofs.
Context `{N : Numerics}.

Lemma bind_raises {A B} (m : result A) (k : A → result B) : raises m → raises (m ≫= k).
Proof. intros [e ->]. by exists e. Qed.

Lemma for_each_raises {A S} (body : S → A → result S) (x : A) (xs : list A) (s : S) :
  raises (body s x) → raises (for_each body (x :: xs) s).
Proof. intros H. simpl. by apply bind_raises. Qed.

Lemma get_title_spin_raises (f : VarpeqFile) (s : Z) :
  get_title_spin f s
  = Raise (if decide (eb_nsppol (ebands f) = 1%Z)
           then NameError "with_gaps" else AttributeError "spin").
Proof. unfold get_title_spin. by destruct (decide (eb_nsppol (ebands f) = 1%Z)). Qed.

(** C8 (as amended). [get_title_spin] raises for every spin argument:
    [NameError] for the unbound name [with_gaps] when the bands have one spin
    channel, [AttributeError] for the missing attribute [self.spin] otherwise;
    so [plot_scf_cycle], which asks for the title of the first panel it
    draws, raises too and returns no figure. *)
Theorem get_title_spin_always_raises (f : VarpeqFile) :
  (∀ s, get_title_spin f s
        = Raise (if decide (eb_nsppol (ebands f) = 1%Z)
                 then NameError "with_gaps" else AttributeError "spin")) ∧
  (nsppol (r f) ≠ 0 → raises (plot_scf_cycle f)).
Proof.
  split; [apply get_title_spin_raises|].
  intros Hn. unfold plot_scf_cycle. rewrite range_nat.
  destruct (nsppol (r f)) as [|n]; [done|]. simpl seq. rewrite fmap_cons.
  apply for_each_raises.
  destruct (getitem1 (var_nstep2cv _) _) as [nstep2cv|e]; [|by eexists]. bind_ok.
  destruct (getitem1 (var_iter_rec _) _) as [iter_rec|e]; [|by eexists]. bind_ok.
  change (range 2) with [0; 1]%Z. apply for_each_raises.
  destruct (for_each _ (enumerate _) _) as [fig|e]; [|by eexists]. bind_ok.
  rewrite get_title_spin_raises. by eexists.
Qed.

End TitleProofs.

(** ** The writers and the file system *)

Section Writers.
Context `{I : RegularGridInterpolator} `{!NotebookWriter}.

Lemma write_a2_bxsf_raises (heap : nat → cplx) (p : Polaron) (filepath : string) (fs : filesystem) :
  write_a2_bxsf heap p filepath fs
  = (Raise match insert_a_inbox heap p (Some (to_cplx (of_int 0))) with
           | Ok _ => NameError "num_states"
           | Raise e => e
           end, fs).
Proof.
  unfold write_a2_bxsf, mbind, io_bind, pure.
  by destruct (insert_a_inbox _ _ _) as [[[a_data ngkpt] sh]|e].
Qed.

Lemma write_b2_bxsf_raises (heap : nat → cplx) (p : Polaron) (filepath : string) (fs : filesystem) :
  write_b2_bxsf heap p filepath fs
  = (Raise match insert_b_inbox heap p (Some (to_cplx (of_int 0))) with
           | Ok _ => NameError "nqkpt"
           | Raise e => e
           end, fs).
Proof.
  unfold write_b2_bxsf, mbind, io_bind, pure.
  by destruct (insert_b_inbox _ _ _) as [[[b_data mesh] sh]|e].
Qed.

(** C9 (as amended). [write_a2_bxsf] and [write_b2_bxsf] raise before
    [bxsf_write] is reached, for every polaron and every path: [NameError]
    (for [num_states], respectively [nqkpt]) when the box could be built, the
    exception of [insert_a_inbox] / [insert_b_inbox] otherwise.  The export
    never succeeds and the file system is left as it was. *)
Theorem write_bxsf_never_succeeds (heap : nat → cplx) (p : Polaron) (filepath : string)
    (fs : filesystem) :
  (∃ e, write_a2_bxsf heap p filepath fs = (Raise e, fs) ∧
        match insert_a_inbox heap p (Some (to_cplx (of_int 0))) with
        | Ok _ => e = NameError "num_states"
        | Raise e' => e = e'
        end) ∧
  (∃ e, write_b2_bxsf heap p filepath fs = (Raise e, fs) ∧
        match insert_b_inbox heap p (Some (to_cplx (of_int 0))) with
        | Ok _ => e = NameError "nqkpt"
        | Raise e' => e = e'
        end).
Proof.
  split; eexists; (split; [apply write_a2_bxsf_raises || apply write_b2_bxsf_raises|]).
  - by destruct (insert_a_inbox _ _ _).
  - by destruct (insert_b_inbox _ _ _).
Qed.

Lemma discard_pure_frame {A} (m : result A) (fs : filesystem) : (discard (pure m) fs).2 = fs.
Proof. unfold discard, pure, mbind, io_bind. by destruct m. Qed.

Lemma call_frame (heap : nat → cplx) (op : operation) (fs : filesystem) :
  writes_notebook op = false → (call heap op fs).2 = fs.
Proof.
  destruct op; simpl; intros Hop; try done; try apply discard_pure_frame.
  - unfold discard, from_file, mbind, io_bind. by destruct (fs !! _) as [[]|].
  - by rewrite write_a2_bxsf_raises.
  - by rewrite write_b2_bxsf_raises.
Qed.

(** C6 (as amended). Apart from [write_notebook] (of [VarpeqFile] and of
    [VarpeqRobot]), which writes the notebook file, no operation embedded here
    creates or modifies a file: opening reads the netCDF file, the writers of
    BXSF files raise before they write, everything else computes in memory.
    Any sequence of such calls leaves the file system as it found it. *)
Theorem only_notebooks_are_written (heap : nat → cplx) (ops : list operation) (fs : filesystem) :
  Forall (λ op, writes_notebook op = false) ops → session heap ops fs = fs.
Proof.
  unfold session. induction 1 as [|op ops Hop _ IH]; simpl; [done|].
  by rewrite call_frame.
Qed.

End Writers.

(** ** The robot *)

Section SortProofs.
Context {A : Type} (key : A → Z).

Lemma insert_desc_perm (x : A) (l : list A) : insert_desc key x l ≡ₚ x :: l.
Proof.
  induction l as [|y l IH]; simpl; [done|].
  case_decide; [|done]. rewrite IH. apply Permutation_swap.
Qed.

Lemma sorted_desc_perm (l : list A) : sorted_desc key l ≡ₚ l.
Proof.
  induction l as [|x l IH]; simpl; [done|].
  rewrite insert_desc_perm. by rewrite IH.
Qed.

Lemma insert_desc_sorted (x : A) (l : list A) :
  Sorted (λ a b, (key b ≤ key a)%Z) l → Sorted (λ a b, (key b ≤ key a)%Z) (insert_desc key x l).
Proof.
  induction 1 as [|y l Hl IH Hhd]; simpl; [by repeat constructor|].
  case_decide.
  - constructor; [done|]. destruct Hhd as [|z l Hz]; simpl.
    + constructor. lia.
    + case_decide; constructor; lia.
  - constructor; [by constructor|]. constructor. lia.
Qed.

Lemma sorted_desc_sorted (l : list A) : Sorted (λ a b, (key b ≤ key a)%Z) (sorted_desc key l).
Proof.
  induction l as [|x l IH]; simpl; [constructor|]. by apply insert_desc_sorted.
Qed.

Lemma sorted_desc_short (l : list A) : length l ≤ 1 → sorted_desc key l = l.
Proof. destruct l as [|x [|y l]]; simpl; [done..|lia]. Qed.

Lemma insert_desc_ext (key' : A → Z) (x : A) (l : list A) :
  key x = key' x → Forall (λ y, key y = key' y) l →
  insert_desc key x l = insert_desc key' x l.
Proof.
  intros Hx. induction 1 as [|y l Hy _ IH]; simpl; [done|].
  by rewrite Hx, Hy, IH.
Qed.

Lemma sorted_desc_ext (key' : A → Z) (l : list A) :
  Forall (λ y, key y = key' y) l → sorted_desc key l = sorted_desc key' l.
Proof.
  induction 1 as [|x l Hx Hl IH]; simpl; [done|].
  change (foldr (insert_desc ?k) [] l) with (sorted_desc k l).
  rewrite IH. apply insert_desc_ext; [done|].
  rewrite <-IH. by rewrite sorted_desc_perm.
Qed.

End SortProofs.

Section Appends.
Context {A : Type}.
Implicit Types (m : gmap string (list A)) (ws : list (string * A)).

Lemma lookup_append_to k v m k' :
  append_to k v m !! k' = if decide (k = k') then Some (default [] (m !! k) ++ [v]) else m !! k'.
Proof. unfold append_to. apply lookup_insert. Qed.

Lemma appended_cons k k1 (v1 : A) ws :
  appended k ((k1, v1) :: ws) = if decide (k1 = k) then v1 :: appended k ws else appended k ws.
Proof. unfold appended. rewrite filter_cons. simpl. by case_decide. Qed.

Lemma appended_app k ws1 ws2 : appended k (ws1 ++ ws2) = appended k ws1 ++ appended k ws2.
Proof. unfold appended. by rewrite filter_app, fmap_app. Qed.

(** What a [defaultdict(list)] holds under [k] after a sequence of appends. *)
Lemma foldl_append_to_lookup ws m k :
  foldl (λ cols '(k, v), append_to k v cols) m ws !! k
  = match appended k ws with
    | [] => m !! k
    | l => Some (default [] (m !! k) ++ l)
    end.
Proof.
  revert m. induction ws as [|[k1 v1] ws IH]; intros m; simpl; [done|].
  rewrite IH, appended_cons, lookup_append_to. case_decide as Hk.
  - subst k1. simpl. destruct (appended k ws) as [|v l]; [done|].
    simpl. by rewrite <-(assoc_L (++)).
  - done.
Qed.

Lemma foldl_append_to_empty ws k :
  foldl (λ cols '(k, v), append_to k v cols) (∅ : gmap string (list A)) ws !! k
  = col (appended k ws).
Proof. rewrite foldl_append_to_lookup, lookup_empty. by destruct (appended k ws). Qed.

Lemma appended_const_key {B} (k k0 : string) (g : B → A) (l : list B) :
  appended k ((λ x, (k0, g x)) <$> l) = if decide (k0 = k) then g <$> l else [].
Proof.
  induction l as [|x l IH]; [by case_decide|].
  rewrite fmap_cons, appended_cons, IH. by case_decide.
Qed.

End Appends.

Section RobotProofs.
Context `{N : Numerics}.

Lemma last_iteration_items (s : Z) (f : VarpeqFile) :
  file_ok s f →
  ∃ v0 v1 v2 v3 v4,
    get_last_iteration_dict_ev f s
    = Ok [("E_pol", v0); ("E_el", v1); ("E_ph", v2); ("elph", v3); ("epsilon", v4)].
Proof.
  intros (Hwf & Hs & _).
  destruct (last_iteration_spec f s Hwf Hs) as (n & a & rec & d & _ & _ & _ & -> & Hkeys & _).
  destruct d as [|[k0 v0] [|[k1 v1] [|[k2 v2] [|[k3 v3] [|[k4 v4] [|]]]]]]; try done.
  injection Hkeys as -> -> -> -> ->. by exists v0, v1, v2, v3, v4.
Qed.

Lemma energy_ev_is_Some (s : Z) (f : VarpeqFile) (k : string) :
  file_ok s f → k ∈ keys _ALL_ENTRIES → is_Some (energy_ev s k f).
Proof.
  intros Hf Hk. unfold energy_ev.
  destruct (last_iteration_items s f Hf) as (v0 & v1 & v2 & v3 & v4 & ->).
  change (keys _ALL_ENTRIES) with ["E_pol"; "E_el"; "E_ph"; "elph"; "epsilon"] in Hk.
  repeat (apply elem_of_cons in Hk as [->|Hk]; [by eexists|]).
  by apply elem_of_nil in Hk.
Qed.

Lemma appended_float_row (s : Z) (f : VarpeqFile) (k : string) :
  file_ok s f →
  appended k (float_row s f)
  = if decide (k = "xs_inv_bohr") then [xs_inv_bohr f]
    else if decide (k ∈ keys _ALL_ENTRIES) then option_list (energy_ev s k f)
    else [].
Proof.
  intros Hf. unfold float_row, energy_ev.
  destruct (last_iteration_items s f Hf) as (v0 & v1 & v2 & v3 & v4 & ->).
  change (keys _ALL_ENTRIES) with ["E_pol"; "E_el"; "E_ph"; "elph"; "epsilon"].
  simpl app. rewrite !appended_cons. unfold appended. simpl.
  repeat case_decide; simplify_eq; try done; set_solver.
Qed.

(** One pass of the loop of [get_kdata_spin] over a usable file. *)
Lemma kdata_step (s : Z) (data : KData) (label : string) (f : VarpeqFile) (nktot : option Z) :
  file_ok s f →
  kdata_add s data (label, f, nktot)
  = Ok {| float_cols := foldl (λ cols '(k, v), append_to k v cols) (float_cols data) (float_row s f);
          int_cols := append_to "nk_tot" (nk_tot f) (int_cols data);
          mesh_cols := append_to "ngkpt" (mesh_of f) (mesh_cols data) |}.
Proof.
  intros Hf. pose proof Hf as (_ & _ & [m Hm]).
  unfold kdata_add, float_row, nk_tot, xs_inv_bohr, nk_tot, mesh_of.
  destruct (last_iteration_items s f Hf) as (v0 & v1 & v2 & v3 & v4 & ->).
  rewrite Hm. simpl. done.
Qed.

Lemma kdata_loop (s : Z) (items : list (string * VarpeqFile * option Z)) (data : KData) :
  let files := (λ t, t.1.2) <$> items in
  Forall (file_ok s) files →
  for_each (kdata_add s) items data
  = Ok {| float_cols := foldl (λ cols '(k, v), append_to k v cols) (float_cols data)
                          (concat (float_row s <$> files));
          int_cols := foldl (λ cols '(k, v), append_to k v cols) (int_cols data)
                        ((λ f, ("nk_tot", nk_tot f)) <$> files);
          mesh_cols := foldl (λ cols '(k, v), append_to k v cols) (mesh_cols data)
                         ((λ f, ("ngkpt", mesh_of f)) <$> files) |}.
Proof.
  intros files. unfold files. clear files. revert data.
  induction items as [|[[label f] nktot] items IH]; intros data Hall.
  - by destruct data.
  - apply Forall_cons in Hall as [Hf Hall]. simpl in Hf.
    cbn [for_each]. rewrite (kdata_step s data label f nktot Hf). bind_ok.
    rewrite IH by done. simpl. by rewrite foldl_app.
Qed.

Lemma xs_not_entry : "xs_inv_bohr" ∉ keys _ALL_ENTRIES.
Proof.
  change (keys _ALL_ENTRIES) with ["E_pol"; "E_el"; "E_ph"; "elph"; "epsilon"].
  intros H. repeat (apply elem_of_cons in H as [?|H]; [done|]). by apply elem_of_nil in H.
Qed.

Lemma appended_rows_xs (s : Z) (files : list VarpeqFile) :
  Forall (file_ok s) files →
  appended "xs_inv_bohr" (concat (float_row s <$> files)) = xs_inv_bohr <$> files.
Proof.
  induction 1 as [|f files Hf _ IH]; [done|].
  rewrite fmap_cons, concat_cons, appended_app, IH, appended_float_row by done.
  by rewrite decide_True.
Qed.

Lemma appended_rows_energy (s : Z) (files : list VarpeqFile) (k : string) :
  Forall (file_ok s) files → k ∈ keys _ALL_ENTRIES →
  Forall2 (λ f y, energy_ev s k f = Some y) files
    (appended k (concat (float_row s <$> files))).
Proof.
  intros Hall Hk. induction Hall as [|f files Hf _ IH]; [constructor|].
  rewrite fmap_cons, concat_cons, appended_app, appended_float_row by done.
  assert (k ≠ "xs_inv_bohr") by (intros ->; by apply xs_not_entry).
  rewrite decide_False, decide_True by done.
  destruct (energy_ev_is_Some s f k Hf Hk) as [y Hy]. rewrite Hy. simpl. by constructor.
Qed.

Lemma appended_rows_other (s : Z) (files : list VarpeqFile) (k : string) :
  Forall (file_ok s) files → k ≠ "xs_inv_bohr" → k ∉ keys _ALL_ENTRIES →
  appended k (concat (float_row s <$> files)) = [].
Proof.
  intros Hall Hxs Hk. induction Hall as [|f files Hf _ IH]; [done|].
  rewrite fmap_cons, concat_cons, appended_app, IH, appended_float_row by done.
  by rewrite !decide_False by done.
Qed.

Lemma sortby_ok (robot : VarpeqRobot) (func : VarpeqFile → option Z) :
  Forall (λ f, is_Some (func f)) robot.*2 →
  sortby robot func
  = Ok (sorted_desc (λ t, default 0%Z t.2)
          ((λ '(label, abifile), (label, abifile, func abifile)) <$> robot)).
Proof.
  intros Hall. unfold sortby. case_decide as Hlen.
  - by rewrite sorted_desc_short.
  - destruct (comprehension_Ok
                (λ t : string * VarpeqFile * option Z,
                     match t.2 with Some v => Ok v | None => Raise TypeError end)
                ((λ '(label, abifile), (label, abifile, func abifile)) <$> robot))
      as (vs & -> & _); [|done].
    apply Forall_fmap, Forall_forall. intros [label f] Hin. simpl.
    rewrite Forall_fmap, Forall_forall in Hall. destruct (Hall _ Hin) as [v Hv].
    simpl in Hv. rewrite Hv. by exists v.
Qed.

(** What [get_kdata_spin] returns for a robot of usable files. *)
Lemma get_kdata_spin_spec (robot : VarpeqRobot) (s : Z) :
  Forall (file_ok s) robot.*2 →
  ∃ kdata files,
    get_kdata_spin robot s = Ok kdata ∧
    files ≡ₚ robot.*2 ∧
    Sorted (λ a b, (nk_tot b ≤ nk_tot a)%Z) files ∧
    kdata_of s files kdata.
Proof.
  intros Hall.
  set (items := (λ '(label, abifile), (label, abifile, sort_func abifile)) <$> robot).
  assert (((λ t : string * VarpeqFile * option Z, t.1.2) <$> items) = robot.*2) as Hfiles.
  { unfold items. rewrite <-list_fmap_compose. apply list_fmap_ext. by intros ? [label f] ?. }
  assert (Forall (λ t : string * VarpeqFile * option Z,
                    default 0%Z t.2 = nk_tot t.1.2) items) as Hkey.
  { unfold items. apply Forall_fmap, Forall_forall. intros [label f] Hin. simpl.
    rewrite Forall_fmap, Forall_forall in Hall. destruct (Hall _ Hin) as (_ & _ & [m Hm]).
    simpl in Hm. unfold sort_func, nk_tot, mesh_of. simpl. by rewrite Hm. }
  set (sorted := sorted_desc (λ t : string * VarpeqFile * option Z, nk_tot t.1.2) items).
  assert (sortby robot sort_func = Ok sorted) as Hsort.
  { rewrite sortby_ok.
    - fold items. f_equal. by apply sorted_desc_ext.
    - eapply Forall_impl; [exact Hall|]. intros f (_ & _ & [m Hm]).
      unfold sort_func. rewrite Hm. by eexists. }
  set (files := (λ t : string * VarpeqFile * option Z, t.1.2) <$> sorted).
  assert (files ≡ₚ robot.*2) as Hperm.
  { unfold files, sorted. by rewrite sorted_desc_perm, Hfiles. }
  assert (Forall (file_ok s) files) as Hok by (by rewrite Hperm).
  eexists _, files. split_and!; [|done| |].
  - unfold get_kdata_spin. rewrite Hsort. bind_ok. by apply kdata_loop.
  - unfold files. eapply Sorted_fmap; [|apply sorted_desc_sorted]. done.
  - unfold kdata_of. simpl. split_and!.
    + intros k. rewrite foldl_append_to_empty, appended_const_key.
      repeat case_decide; simplify_eq; done.
    + intros k. rewrite foldl_append_to_empty, appended_const_key.
      repeat case_decide; simplify_eq; done.
    + by rewrite foldl_append_to_empty, appended_rows_xs.
    + intros ylabel Hy. eexists. split; [by apply appended_rows_energy|].
      by rewrite foldl_append_to_empty.
    + intros k. rewrite foldl_append_to_empty.
      destruct (decide (k = "xs_inv_bohr")) as [|Hxs]; [by left|].
      destruct (decide (k ∈ keys _ALL_ENTRIES)) as [|Hk]; [by right|].
      rewrite appended_rows_other by done. by intros [? ?].
Qed.

(** C4. The entries of every array that [get_kdata_spin] returns follow one
    order of the files of the robot, and along it the number of points of the
    k-mesh ([nk_tot], the product of the divisions) never increases. *)
Theorem get_kdata_spin_sorted (robot : VarpeqRobot) (s : Z) :
  Forall (file_ok s) robot.*2 →
  ∃ kdata files,
    get_kdata_spin robot s = Ok kdata ∧
    files ≡ₚ robot.*2 ∧
    kdata_of s files kdata ∧
    Sorted (λ a b, (b ≤ a)%Z) (nk_tot <$> files).
Proof.
  intros Hall.
  destruct (get_kdata_spin_spec robot s Hall) as (kdata & files & Hk & Hperm & Hsorted & Hof).
  exists kdata, files. split_and!; [done..|].
  eapply Sorted_fmap; [|exact Hsorted]. done.
Qed.

Lemma col_bind_lookup {B} (l : list B) (i : nat) : (l' ← col l; l' !! i) = l !! i.
Proof. by destruct l. Qed.

Lemma slice_to_nat {B} (l : list B) (n : nat) : slice_to (Z.of_nat n) l = take n l.
Proof.
  unfold slice_to, slice_stop. rewrite decide_True by lia. rewrite Nat2Z.id.
  destruct (decide (n ≤ length l)).
  - by rewrite Nat.min_l.
  - rewrite Nat.min_r by lia. by rewrite !take_ge by lia.
Qed.

Lemma fit_loop (xs ys : list float) (ylabel : string) (nns : list nat)
    (d : gmap string (list float)) :
  for_each (fit_add xs ys ylabel) (Z.of_nat <$> nns) d
  = Ok (foldl (λ cols '(k, v), append_to k v cols) d
          ((λ nn, (ylabel, intercept xs ys (S nn))) <$> nns)).
Proof.
  revert d. induction nns as [|nn nns IH]; intros d; [done|].
  rewrite !fmap_cons. cbn [for_each].
  assert (fit_add xs ys ylabel d (Z.of_nat nn)
          = Ok (append_to ylabel (intercept xs ys (S nn)) d)) as ->.
  { unfold fit_add, intercept. replace (Z.of_nat nn + 1)%Z with (Z.of_nat (S nn)) by lia.
    by rewrite !slice_to_nat. }
  bind_ok. by rewrite IH.
Qed.

Lemma fit_loops (cols : gmap string (list float)) (xs : list float) (nns : list nat)
    (labels : list string) (d : gmap string (list float)) :
  Forall (λ ylabel, is_Some (cols !! ylabel)) labels →
  for_each (λ d ylabel,
              ys ← getitem_dict cols ylabel;
              for_each (fit_add xs ys ylabel) (Z.of_nat <$> nns) d) labels d
  = Ok (foldl (λ cols '(k, v), append_to k v cols) d
          (concat ((λ ylabel,
                      (λ nn, (ylabel, intercept xs (default [] (cols !! ylabel)) (S nn))) <$> nns)
                   <$> labels))).
Proof.
  intros Hall. revert d. induction Hall as [|ylabel labels [ys Hys] _ IH]; intros d; [done|].
  assert (getitem_dict cols ylabel = Ok ys) as Hg by (unfold getitem_dict; by rewrite Hys).
  cbn [for_each]. rewrite Hg. bind_ok.
  rewrite fit_loop. bind_ok. rewrite IH, fmap_cons, concat_cons, foldl_app. by rewrite Hys.
Qed.

Lemma seqZ_nat (m n : nat) : seqZ (Z.of_nat m) (Z.of_nat n) = Z.of_nat <$> seq m n.
Proof.
  apply list_eq. intros i. rewrite list_lookup_fmap.
  destruct (decide (i < n)) as [Hi|Hi].
  - rewrite lookup_seqZ_lt, lookup_seq_lt by lia. simpl. f_equal; lia.
  - rewrite lookup_seqZ_ge by lia. by rewrite lookup_seq_ge by lia.
Qed.

Lemma appended_fits (xs : list float) (ysf : string → list float) (nns : list nat) (ylabel : string) :
  ylabel ∈ keys _ALL_ENTRIES →
  appended ylabel
    (concat ((λ l, (λ nn, (l, intercept xs (ysf l) (S nn))) <$> nns) <$> keys _ALL_ENTRIES))
  = (λ nn, intercept xs (ysf ylabel) (S nn)) <$> nns.
Proof.
  change (keys _ALL_ENTRIES) with ["E_pol"; "E_el"; "E_ph"; "elph"; "epsilon"].
  intros Hy. rewrite !fmap_cons, !concat_cons, !appended_app, !appended_const_key.
  simpl. rewrite app_nil_r.
  repeat (apply elem_of_cons in Hy as [->|Hy]; [repeat case_decide; try done; by rewrite ?app_nil_r|]).
  by apply elem_of_nil in Hy.
Qed.

(** C2. The row labelled [npts] of the frame of [get_makov_payne_df_spin]
    holds, for each of the five entries, the value at 0 of the degree-1
    least-squares fit through the first [npts] pairs of abscissa and energy
    that [get_kdata_spin] produced; the index is 2, 3, ..., number of files
    and is named npts. *)
Theorem makov_payne_intercepts (robot : VarpeqRobot) (s : Z) :
  Forall (file_ok s) robot.*2 → robot ≠ [] →
  ∃ kdata xs df,
    get_kdata_spin robot s = Ok kdata ∧
    float_cols kdata !! "xs_inv_bohr" = Some xs ∧ length xs = length robot ∧
    get_makov_payne_df_spin robot s = Ok df ∧
    df_index df = seqZ 2 (Z.of_nat (length robot) - 1) ∧
    df_index_name df = "npts" ∧
    ∀ (npts : nat) ylabel,
      2 ≤ npts ≤ length robot → ylabel ∈ keys _ALL_ENTRIES →
      ∃ ys, float_cols kdata !! ylabel = Some ys ∧
            df_loc df (Z.of_nat npts) ylabel = Some (intercept xs ys npts).
Proof.
  intros Hall Hne.
  destruct (get_kdata_spin_spec robot s Hall)
    as (kdata & files & Hk & Hperm & _ & (_ & _ & Hxs & Hen & _)).
  assert (length files = length robot) as Hlen.
  { rewrite Hperm. apply length_fmap. }
  assert (files ≠ []) as Hfiles.
  { intros ->. by destruct robot. }
  set (xs := xs_inv_bohr <$> files).
  assert (float_cols kdata !! "xs_inv_bohr" = Some xs) as Hxs'.
  { rewrite Hxs. unfold xs. by destruct files. }
  assert (length xs = length robot) as Hlxs by (unfold xs; by rewrite length_fmap).
  set (n := length robot) in *.
  assert (seqZ 1 (Z.of_nat n - 1) = Z.of_nat <$> seq 1 (n - 1)) as Hseq.
  { rewrite <-seqZ_nat. f_equal. destruct robot; [done|]. simpl in *. lia. }
  assert (Forall (λ ylabel, is_Some (float_cols kdata !! ylabel)) (keys _ALL_ENTRIES)) as Hcols.
  { apply Forall_forall. intros ylabel Hy. destruct (Hen _ Hy) as (ys & Hys & ->).
    destruct Hys; [done|by eexists]. }
  eexists kdata, xs, _. split_and!; [done..| | | |].
  - assert (getitem_dict (float_cols kdata) "xs_inv_bohr" = Ok xs) as Hg.
    { unfold getitem_dict. by rewrite Hxs'. }
    unfold get_makov_payne_df_spin. rewrite Hk. bind_ok. rewrite Hg. bind_ok.
    rewrite Hlxs, Hseq.
    rewrite (fit_loops _ _ _ _ _ Hcols). bind_ok. reflexivity.
  - simpl. rewrite <-list_fmap_compose. apply list_eq. intros i.
    rewrite list_lookup_fmap.
    destruct (decide (i < n - 1)) as [Hi|Hi].
    + rewrite lookup_seq_lt, lookup_seqZ_lt by lia. simpl. f_equal. lia.
    + rewrite lookup_seq_ge by lia. by rewrite lookup_seqZ_ge by lia.
  - done.
  - intros npts ylabel Hnpts Hy.
    destruct (proj1 (Forall_forall _ _) Hcols _ Hy) as [ys Hys].
    exists ys. split; [done|]. unfold df_loc. cbn [df_index df_data].
    rewrite foldl_append_to_empty, appended_fits by done.
    assert (list_find (λ l, l = Z.of_nat npts) ((λ i, i + 1)%Z <$> (Z.of_nat <$> seq 1 (n - 1)))
            = Some (npts - 2, Z.of_nat npts)) as ->.
    { apply list_find_Some. split_and!; [|done|].
      - rewrite !list_lookup_fmap, lookup_seq_lt by lia. simpl. f_equal. lia.
      - intros j y. rewrite !list_lookup_fmap. intros Hj Hlt.
        rewrite lookup_seq_lt in Hj by lia. simpl in Hj. injection Hj as <-. lia. }
    cbn [mbind option_bind fst]. rewrite col_bind_lookup.
    rewrite list_lookup_fmap, lookup_seq_lt by lia. simpl.
    rewrite Hys. simpl. do 2 f_equal. lia.
Qed.

End RobotProofs.
(** * Further properties of the reader and of the file *)

Section ReaderEdges.
Context `{K : Kmesh}.

Lemma np_index_invalid (n : nat) (i : Z) :
  ¬ valid_index (Z.of_nat n) i → np_index n i = Raise IndexError.
Proof.
  unfold valid_index, np_index. intros Hi.
  rewrite decide_False by lia. by rewrite decide_False by lia.
Qed.

Lemma np_index_wrap (n : nat) (i : Z) :
  (- Z.of_nat n ≤ i < 0)%Z → np_index n i = np_index n (i + Z.of_nat n).
Proof.
  intros Hi. unfold np_index.
  rewrite decide_False by lia. rewrite decide_True by lia. by rewrite decide_True by lia.
Qed.

Lemma getitem1_invalid {A} (l : list A) (n : nat) (i : Z) :
  length l = n → ¬ valid_index (Z.of_nat n) i → getitem1 l i = Raise IndexError.
Proof. intros <- Hi. unfold getitem1. by rewrite np_index_invalid. Qed.

Lemma getitem1_wrap {A} (l : list A) (n : nat) (i : Z) :
  length l = n → (- Z.of_nat n ≤ i < 0)%Z → getitem1 l i = getitem1 l (i + Z.of_nat n).
Proof. intros <- Hi. unfold getitem1. by rewrite np_index_wrap. Qed.

(** The lengths of the per-spin arrays of an open file. *)
Lemma VarpeqFile_wf_lengths (f : VarpeqFile) :
  VarpeqFile_wf f →
  let n := nsppol (r f) in
  length (nk_spin (r f)) = n ∧ length (nq_spin (r f)) = n ∧ length (nb_spin (r f)) = n ∧
  length (brange_spin (r f)) = n ∧ length (var_kpts_spin (nc (r f))) = n ∧
  length (var_qpts_spin (nc (r f))) = n ∧ length (var_a_spin (nc (r f))) = n ∧
  length (var_b_spin (nc (r f))) = n ∧ length (var_nstep2cv (nc (r f))) = n ∧
  length (var_iter_rec (nc (r f))) = n.
Proof.
  intros [Hr (nstep & max_nk & max_nq & max_nb & Hlen & _)]. rewrite Hr. simpl.
  rewrite !length_fmap. destruct Hlen as (? & ? & ? & ? & ? & ? & ? & ? & ?).
  split_and!; done.
Qed.

Lemma last_iteration_invalid_spin (f : VarpeqFile) (s : Z) :
  VarpeqFile_wf f → ¬ spin_in_range f s → get_last_iteration_dict_ev f s = Raise IndexError.
Proof.
  intros Hf Hs. destruct (VarpeqFile_wf_lengths f Hf) as (_ & _ & _ & _ & _ & _ & _ & _ & Hn2 & _).
  unfold get_last_iteration_dict_ev. by rewrite (getitem1_invalid _ _ _ Hn2 Hs).
Qed.

(** X1. A spin index outside [-nsppol, nsppol) makes both per-spin readers
    of an open file raise [IndexError]. *)
Theorem spin_out_of_range (f : VarpeqFile) (s : Z) :
  VarpeqFile_wf f → ¬ spin_in_range f s →
  from_varpeq f s = Raise IndexError ∧ get_last_iteration_dict_ev f s = Raise IndexError.
Proof.
  intros Hf Hs. destruct (VarpeqFile_wf_lengths f Hf) as (Hnk & _).
  split.
  - unfold from_varpeq. by rewrite (getitem1_invalid _ _ _ Hnk Hs).
  - by apply last_iteration_invalid_spin.
Qed.

(** X2. A negative spin index counts from the last spin: the readers return
    the data of spin [s + nsppol], and the polaron keeps the negative value
    in its field [spin]. *)
Theorem negative_spin_wraps (f : VarpeqFile) (s : Z) :
  VarpeqFile_wf f → (- Z.of_nat (nsppol (r f)) ≤ s < 0)%Z →
  (∃ p, from_varpeq f (s + Z.of_nat (nsppol (r f))) = Ok p ∧
        from_varpeq f s = Ok (with_spin s p)) ∧
  (∃ d, get_last_iteration_dict_ev f (s + Z.of_nat (nsppol (r f))) = Ok d ∧
        get_last_iteration_dict_ev f s = Ok d).
Proof.
  intros Hf Hs.
  destruct (VarpeqFile_wf_lengths f Hf)
    as (Hnk & Hnq & Hnb & Hbr & Hk & Hq & Ha & Hb & Hn2 & Hit).
  split.
  - destruct (from_varpeq_spec f (s + Z.of_nat (nsppol (r f))) Hf) as (p & _ & Hp & _); [lia|].
    exists p. split; [done|]. revert Hp. unfold from_varpeq.
    rewrite (getitem1_wrap _ _ s Hnk Hs), (getitem1_wrap _ _ s Hnq Hs),
      (getitem1_wrap _ _ s Hnb Hs), (getitem1_wrap _ _ s Hbr Hs),
      (getitem1_wrap _ _ s Hk Hs), (getitem1_wrap _ _ s Hq Hs),
      (getitem1_wrap _ _ s Ha Hs), (getitem1_wrap _ _ s Hb Hs).
    destruct (getitem1 (nk_spin _) _) as [nk|]; [|done]. bind_ok.
    destruct (getitem1 (nq_spin _) _) as [nq|]; [|done]. bind_ok.
    destruct (getitem1 (nb_spin _) _) as [nb|]; [|done]. bind_ok.
    destruct (getitem1 (brange_spin _) _) as [[bstart bstop]|]; [|done]. bind_ok.
    destruct (getitem1 (var_kpts_spin _) _) as [kpts|]; [|done]. simpl.
    destruct (getitem1 (var_qpts_spin _) _) as [qpts|]; [|done]. simpl.
    destruct (getitem1 (var_a_spin _) _) as [a|]; [|done]. simpl.
    destruct (getitem1 (var_b_spin _) _) as [b|]; [|done]. simpl.
    by intros [= <-].
  - destruct (last_iteration_spec f (s + Z.of_nat (nsppol (r f))) Hf)
      as (? & ? & ? & d & _ & _ & _ & Hd & _); [lia|].
    exists d. split; [done|]. rewrite <-Hd. unfold get_last_iteration_dict_ev.
    by rewrite (getitem1_wrap _ _ s Hn2 Hs), (getitem1_wrap _ _ s Hit Hs).
Qed.

(** X3. When no iteration is recorded as converged ([nstep2cv[spin] == 0]) the
    row index [nstep2cv - 1] is [-1]: the method does not fail, it returns
    the last row that [iter_rec] holds for the spin. *)
Theorem last_iteration_without_steps (f : VarpeqFile) (s : Z) (iter_rec : array2 float)
    (rec : list float) :
  getitem1 (var_nstep2cv (nc (r f))) s = Ok 0%Z →
  getitem1 (var_iter_rec (nc (r f))) s = Ok iter_rec →
  last (rows iter_rec) = Some rec →
  get_last_iteration_dict_ev f s
  = Ok (zip (keys _ALL_ENTRIES) ((λ x, fmul x Ha_eV) <$> rec)).
Proof.
  intros Hn Hit Hlast. unfold get_last_iteration_dict_ev. rewrite Hn, Hit. bind_ok.
  unfold row, getitem1. rewrite last_lookup in Hlast.
  assert (0 < length (rows iter_rec)) as Hlen.
  { destruct (rows iter_rec); [done|simpl; lia]. }
  unfold np_index. rewrite decide_False by lia. rewrite decide_True by lia. bind_ok.
  replace (Z.to_nat (0 - 1 + Z.of_nat (length (rows iter_rec)))) with (pred (length (rows iter_rec)))
    by lia.
  by rewrite Hlast.
Qed.

(** X4. When [nstep2cv[spin]] points outside the iterations that [iter_rec]
    holds for the spin, the method raises [IndexError]. *)
Theorem last_iteration_beyond_record (f : VarpeqFile) (s n : Z) (iter_rec : array2 float) :
  getitem1 (var_nstep2cv (nc (r f))) s = Ok n →
  getitem1 (var_iter_rec (nc (r f))) s = Ok iter_rec →
  ¬ valid_index (Z.of_nat (length (rows iter_rec))) (n - 1) →
  get_last_iteration_dict_ev f s = Raise IndexError.
Proof.
  intros Hn Hit Hbad. unfold get_last_iteration_dict_ev. rewrite Hn, Hit. bind_ok.
  unfold row. by rewrite (getitem1_invalid _ _ _ eq_refl Hbad).
Qed.

(** X5. Every polaron that [polaron_spin] builds from an open file has
    arrays of consistent shapes (each row of the right length, as many
    coefficients as points) and refers back to the file. *)
Theorem polaron_spin_wf (f : VarpeqFile) :
  VarpeqFile_wf f →
  ∃ ps, polaron_spin f = Ok ps ∧ Forall (λ p, Polaron_wf p ∧ varpeq p = f) ps.
Proof.
  intros Hf. unfold polaron_spin. rewrite range_nat.
  destruct (comprehension_Ok (from_varpeq f) (Z.of_nat <$> seq 0 (nsppol (r f))))
    as (ps & Hps & Hall).
  { apply Forall_fmap, Forall_forall. intros i Hi. simpl.
    apply list_elem_of_In, in_seq in Hi.
    destruct (from_varpeq_spec f (Z.of_nat i) Hf) as (p & _ & Hp & _); [lia|]. by exists p. }
  exists ps. split; [done|]. apply Forall_forall. intros p Hin.
  apply list_elem_of_lookup in Hin as [i Hi].
  destruct (Forall2_lookup_r _ _ _ _ _ Hall Hi) as (s & Hs & Hfrom).
  rewrite list_lookup_fmap in Hs. destruct (seq 0 (nsppol (r f)) !! i) as [i'|] eqn:Hseq; [|done].
  apply lookup_seq in Hseq as [-> Hlt]. injection Hs as <-. simpl in Hfrom.
  destruct (from_varpeq_spec f (Z.of_nat i) Hf) as (p' & b & Hp' & _ & Hvar & Hwf & _); [lia|].
  rewrite Hfrom in Hp'. injection Hp' as <-. done.
Qed.

End ReaderEdges.

(** * The SCF plot fails on its title, and only there *)

Section PlotEdges.
Context `{N : Numerics}.

Lemma length_column_of {A} (a : array2 A) (j : nat) :
  array2_wf a → j < ncol a → length (column_of a j) = length (rows a).
Proof.
  unfold array2_wf, column_of. intros Hwf Hj. induction Hwf as [|row rows' Hrow _ IH]; [done|].
  destruct (lookup_lt_is_Some_2 row j) as [v Hv]; [lia|].
  cbn [omap list_omap]. rewrite Hv. cbn [length]. by f_equal.
Qed.

(** The curves of the first panel of a row are all drawn. *)
Lemma plot_energies_ok (spin : Z) (xs : list Z) (iterations : array2 float)
    (entries : list (Z * (string * Entry))) (fig : list drawing) :
  array2_wf iterations → length xs = length (rows iterations) →
  Forall (λ e, 0 ≤ e.1 < Z.of_nat (ncol iterations))%Z entries →
  ∃ fig',
    for_each (λ fig '(ilab, (name, entry)),
                ys ← column iterations ilab;
                if decide (0 = 0)%Z then ax_plot spin 0 xs ys (latex entry) fig
                else
                  last ← getitem1 ys (-1);
                  fig ← ax_plot spin 0 xs ((λ y, fabs (fsub y last)) <$> ys) (latex entry) fig;
                  Ok (fig ++ [SetYscale spin 0 "log"]))
      entries fig
    = Ok fig'.
Proof.
  intros Hwf Hlen Hall. revert fig.
  induction Hall as [|[ilab [name entry]] entries Hi _ IH]; intros fig; [by eexists|].
  simpl in Hi. cbn [for_each]. rewrite <-(Z2Nat.id ilab) by lia.
  rewrite column_ok by (done || lia). bind_ok.
  rewrite decide_True by done. unfold ax_plot.
  rewrite decide_True by (rewrite length_column_of by (done || lia); done).
  bind_ok. apply IH.
Qed.

(** X6. On an open file with at least one spin, [plot_scf_cycle] reaches the
    title of its first panel: the data accesses and the five curves before
    it succeed, and the exception it raises is the one of [get_title_spin]. *)
Theorem plot_scf_cycle_fails_on_title (f : VarpeqFile) :
  VarpeqFile_wf f → nsppol (r f) ≠ 0 →
  plot_scf_cycle f = Raise (title_error f).
Proof.
  intros Hf Hn. pose proof Hf as [Hr (nstep & max_nk & max_nq & max_nb & Hlen & Hit & _ & _ & _ & _ & Hn2 & _)].
  destruct Hlen as (_ & _ & _ & Hlen2 & Hlenit & _).
  unfold plot_scf_cycle. rewrite range_nat.
  assert (nsppol (r f) = dim_nsppol (nc (r f))) as Hdim by (by rewrite Hr).
  destruct (nsppol (r f)) as [|n] eqn:Hns; [done|]. simpl seq. rewrite fmap_cons. cbn [for_each].
  change (Z.of_nat 0) with 0%Z.
  destruct (getitem1_valid (var_nstep2cv (nc (r f))) (S n) 0) as (n2 & Hn2' & ->); [lia|lia|].
  destruct (getitem1_valid (var_iter_rec (nc (r f))) (S n) 0) as (it & Hit' & ->); [lia|lia|].
  bind_ok.
  apply (Forall_lookup_1 _ _ _ _ Hn2) in Hn2'. apply (Forall_lookup_1 _ _ _ _ Hit) in Hit'.
  destruct Hit' as [Hwf [= Hrows Hcol]].
  change (range 2) with [0; 1]%Z. cbn [for_each].
  edestruct (plot_energies_ok 0 (seqZ 1 n2)
               {| ncol := ncol it;
                  rows := (λ rec : list float, (λ x, fmul x Ha_eV) <$> rec)
                            <$> slice_to n2 (rows it) |}
               (enumerate _ALL_ENTRIES) []) as [fig' Hfig].
  - unfold array2_wf. simpl. apply Forall_fmap. unfold slice_to.
    apply Forall_take. eapply Forall_impl; [exact Hwf|]. intros row Hrow. simpl.
    by rewrite length_fmap.
  - simpl. rewrite length_fmap, length_seqZ. unfold slice_to. rewrite length_take.
    rewrite slice_stop_nonneg by lia. lia.
  - simpl. rewrite Hcol. repeat constructor; simpl; lia.
  - rewrite Hfig. bind_ok. unfold title_error. by rewrite get_title_spin_raises.
Qed.

End PlotEdges.

(** * Further properties of the grid boxes *)

Section ExceptionSets.

Lemma only_raises_bind {A B} (P : exn → Prop) (m : result A) (k : A → result B) :
  only_raises P m → (∀ a, m = Ok a → only_raises P (k a)) → only_raises P (m ≫= k).
Proof.
  intros Hm Hk e. destruct m as [a|e']; simpl.
  - by apply Hk.
  - intros [= <-]. by apply Hm.
Qed.

Lemma only_raises_for_each {A S} (P : exn → Prop) (body : S → A → result S) (xs : list A) (s : S) :
  (∀ s x, only_raises P (body s x)) → only_raises P (for_each body xs s).
Proof.
  intros Hbody. revert s. induction xs as [|x xs IH]; intros s; [by intros e|].
  simpl. apply only_raises_bind; [apply Hbody|]. intros s' _. apply IH.
Qed.

Lemma only_raises_comprehension {A B} (P : exn → Prop) (f : A → result B) (xs : list A) :
  (∀ x, only_raises P (f x)) → only_raises P (comprehension f xs).
Proof.
  intros Hf. induction xs as [|x xs IH]; [by intros e|].
  simpl. apply only_raises_bind; [apply Hf|]. intros y _.
  apply only_raises_bind; [apply IH|]. by intros ys _ e.
Qed.

Lemma only_raises_np_index (n : nat) (i : Z) : only_raises (λ e, e = IndexError) (np_index n i).
Proof. unfold np_index. intros e. repeat case_decide; congruence. Qed.

Lemma only_raises_column {A} (a : array2 A) (j : Z) :
  only_raises (λ e, e = IndexError) (column a j).
Proof.
  unfold column. apply only_raises_bind; [apply only_raises_np_index|]. intros j' _.
  apply only_raises_comprehension. intros row e. destruct (row !! j'); congruence.
Qed.

Lemma only_raises_setitem4 {A} (data : array4 A) idx (v : A) :
  only_raises (λ e, e = IndexError) (setitem4 data idx v).
Proof.
  unfold setitem4. apply only_raises_bind; [|by intros o _ e].
  unfold locate4. destruct idx as [[[i0 i1] i2] i3]. destruct (dims data) as [[[n0 n1] n2] n3].
  repeat (apply only_raises_bind; [apply only_raises_np_index|]; intros ? _).
  by intros e.
Qed.

Lemma only_raises_scatter {A} (a : array2 A) (indices : list (Z * Z * Z)) (js : list Z)
    (data : array4 A) :
  only_raises (λ e, e = IndexError)
    (for_each (λ data i, col ← column a i; scatter_column i col indices data) js data).
Proof.
  apply only_raises_for_each. intros data' i.
  apply only_raises_bind; [apply only_raises_column|]. intros col _.
  unfold scatter_column. apply only_raises_for_each. intros data'' [c [[ix iy] iz]].
  apply only_raises_setitem4.
Qed.

Lemma only_raises_alloc {A} (heap : nat → A) (fill_value : option A) shape :
  only_raises box_error
    (match fill_value with None => np_empty heap shape | Some c => np_full shape c end).
Proof.
  assert (only_raises box_error (check_shape shape)) as Hshape.
  { unfold check_shape. destruct shape as [[[n0 n1] n2] n3]. intros e.
    case_decide; [done|]. intros [= <-]. right. by eexists. }
  destruct fill_value; unfold np_full, np_empty;
    (apply only_raises_bind; [done|]); by intros d _ e.
Qed.

Lemma only_raises_weaken {A} (P Q : exn → Prop) (m : result A) :
  (∀ e, P e → Q e) → only_raises P m → only_raises Q m.
Proof. intros HPQ Hm e He. by apply HPQ, Hm. Qed.

End ExceptionSets.

Section BoxEdges.
Context `{I : RegularGridInterpolator}.

Lemma only_raises_ngkpt_and_shifts (p : Polaron) : only_raises box_error (ngkpt_and_shifts p).
Proof.
  unfold ngkpt_and_shifts. intros e. destruct (mpdivs _); [case_decide|]; [|done|];
    intros [= <-]; right; by eexists.
Qed.

Lemma only_raises_insert_a (heap : nat → cplx) (p : Polaron) fill_value :
  only_raises box_error (insert_a_inbox heap p fill_value).
Proof.
  unfold insert_a_inbox. apply only_raises_bind; [apply only_raises_ngkpt_and_shifts|].
  intros [[[nx ny] nz] sh] _.
  apply only_raises_bind; [apply only_raises_alloc|]. intros init _.
  apply only_raises_bind; [|by intros ? _ e].
  eapply only_raises_weaken; [|apply only_raises_scatter]. intros e ->. by left.
Qed.

Lemma only_raises_insert_b (heap : nat → cplx) (p : Polaron) fill_value :
  only_raises box_error (insert_b_inbox heap p fill_value).
Proof.
  unfold insert_b_inbox. destruct (ngqpt (r (varpeq p))) as [[nx ny] nz].
  apply only_raises_bind; [apply only_raises_alloc|]. intros init _.
  apply only_raises_bind; [|by intros ? _ e].
  eapply only_raises_weaken; [|apply only_raises_scatter]. intros e ->. by left.
Qed.

(** X7. Whatever the polaron, the fill value and the memory, the two
    scatters and the two interpolator builders raise nothing but
    [IndexError] (a grid index outside the box, a band outside [a_kn]) or
    [ValueError] (a mesh that is not diagonal, has several shifts, or a
    negative dimension). *)
Theorem insert_inbox_exceptions (heap : nat → cplx) (p : Polaron) (fill_value : option cplx) :
  only_raises box_error (insert_a_inbox heap p fill_value) ∧
  only_raises box_error (insert_b_inbox heap p fill_value) ∧
  only_raises box_error (get_a2_interpolator heap p) ∧
  only_raises box_error (get_b2_interpolator heap p).
Proof.
  split_and!.
  - apply only_raises_insert_a.
  - apply only_raises_insert_b.
  - unfold get_a2_interpolator. apply only_raises_bind; [apply only_raises_insert_a|].
    by intros [[a ngkpt] sh] _ e.
  - unfold get_b2_interpolator. apply only_raises_bind; [apply only_raises_insert_b|].
    by intros [[b mesh] sh] _ e.
Qed.

End BoxEdges.

Section BoxBounds.
Context {A : Type}.

Lemma setitem4_dims (data data' : array4 A) idx (v : A) :
  setitem4 data idx v = Ok data' → dims data' = dims data.
Proof.
  unfold setitem4. destruct (locate4 data idx); simpl; [|done]. by intros [= <-].
Qed.

Lemma setitem4_not_addressable (data : array4 A) n0 nx ny nz i ix iy iz (v : A) :
  dims data = (n0, nx, ny, nz) →
  ¬ addressable (Z.of_nat nx, Z.of_nat ny, Z.of_nat nz) (ix, iy, iz) →
  setitem4 data (i, ix, iy, iz) v = Raise IndexError.
Proof.
  intros Hd Hbad. unfold setitem4, locate4. rewrite Hd.
  destruct (np_index n0 i) as [j0|e] eqn:H0; bind_ok.
  2:{ by rewrite (only_raises_np_index _ _ _ H0). }
  destruct (decide (- Z.of_nat nx ≤ ix < Z.of_nat nx)%Z); [|by rewrite (np_index_invalid nx ix)].
  destruct (np_index nx ix) as [j1|e] eqn:H1; bind_ok.
  2:{ by rewrite (only_raises_np_index _ _ _ H1). }
  destruct (decide (- Z.of_nat ny ≤ iy < Z.of_nat ny)%Z); [|by rewrite (np_index_invalid ny iy)].
  destruct (np_index ny iy) as [j2|e] eqn:H2; bind_ok.
  2:{ by rewrite (only_raises_np_index _ _ _ H2). }
  destruct (decide (- Z.of_nat nz ≤ iz < Z.of_nat nz)%Z); [|by rewrite (np_index_invalid nz iz)].
  destruct Hbad. done.
Qed.

(** One store outside the box makes the pass over a column fail. *)
Lemma scatter_column_not_addressable (i : Z) (ws : list (A * (Z * Z * Z))) (data : array4 A)
    n0 nx ny nz :
  dims data = (n0, nx, ny, nz) →
  Exists (λ w, ¬ addressable (Z.of_nat nx, Z.of_nat ny, Z.of_nat nz) w.2) ws →
  for_each (λ data '(c, (ix, iy, iz)), setitem4 data (i, ix, iy, iz) c) ws data
  = Raise IndexError.
Proof.
  intros Hd Hex. revert data Hd.
  induction ws as [|[c [[ix iy] iz]] ws IH]; intros data Hd; [by apply Exists_nil in Hex|].
  cbn [for_each].
  destruct (setitem4 data (i, ix, iy, iz) c) as [data'|e] eqn:Hset; simpl.
  - apply Exists_cons in Hex as [Hbad|Hex].
    + simpl in Hbad. by rewrite (setitem4_not_addressable _ _ _ _ _ _ _ _ _ _ Hd Hbad) in Hset.
    + apply IH; [done|]. by rewrite (setitem4_dims _ _ _ _ Hset).
  - by rewrite (only_raises_setitem4 _ _ _ _ Hset).
Qed.

(** A stored point whose grid index numpy rejects makes the double loop
    fail in its first pass. *)
Lemma scatter_loop_not_addressable (a : array2 A) (indices : list (Z * Z * Z)) (n : Z)
    (nx ny nz : Z) (init : array4 A) (ik : nat) (idx : Z * Z * Z) :
  (0 < n)%Z → is_mesh (nx, ny, nz) →
  array2_wf a → ncol a = Z.to_nat n →
  dims init = (Z.to_nat n, Z.to_nat nx, Z.to_nat ny, Z.to_nat nz) →
  ik < length (rows a) → indices !! ik = Some idx → ¬ addressable (nx, ny, nz) idx →
  for_each (λ data i, col ← column a i; scatter_column i col indices data) (range n) init
  = Raise IndexError.
Proof.
  intros Hn (Hx & Hy & Hz) Hwf Hcol Hd Hik Hidx Hbad.
  unfold range. rewrite seqZ_cons by lia. cbn [for_each].
  pose proof (column_ok a 0 Hwf ltac:(lia)) as Hc0. change (Z.of_nat 0) with 0%Z in Hc0.
  rewrite Hc0. bind_ok. unfold scatter_column. erewrite scatter_column_not_addressable; [done|exact Hd|].
  rewrite !Z2Nat.id by lia.
  destruct (lookup_lt_is_Some_2 (column_of a 0) ik) as [c Hc].
  { rewrite length_column_of by (done || lia). done. }
  apply Exists_exists. exists (c, idx). split; [|done].
  apply list_elem_of_lookup. exists ik. unfold zip. rewrite lookup_zip_with, Hc. simpl.
  by rewrite Hidx.
Qed.

Lemma offset_split (m n o : nat) : o < m * n → ∃ a b, a < m ∧ b < n ∧ o = a * n + b.
Proof.
  intros Ho. assert (n ≠ 0) as Hn by lia.
  exists (o / n), (o mod n). split_and!.
  - apply Nat.Div0.div_lt_upper_bound. lia.
  - by apply Nat.mod_upper_bound.
  - rewrite (Nat.div_mod_eq o n) at 1. lia.
Qed.

Lemma offset4_surj n0 n1 n2 n3 (o : nat) :
  o < size4 (n0, n1, n2, n3) →
  ∃ i0 i1 i2 i3, i0 < n0 ∧ i1 < n1 ∧ i2 < n2 ∧ i3 < n3 ∧ o = offset4 (n0, n1, n2, n3) i0 i1 i2 i3.
Proof.
  simpl. intros Ho.
  destruct (offset_split _ _ _ Ho) as (a3 & i3 & Ha3 & Hi3 & ->).
  destruct (offset_split _ _ _ Ha3) as (a2 & i2 & Ha2 & Hi2 & ->).
  destruct (offset_split _ _ _ Ha2) as (i0 & i1 & Hi0 & Hi1 & ->).
  by exists i0, i1, i2, i3.
Qed.

Lemma getitem4_in_box_inv (data : array4 A) n0 nx ny nz (i : nat) ix iy iz (v : A) :
  dims data = (n0, nx, ny, nz) → i < n0 →
  in_box (Z.of_nat nx, Z.of_nat ny, Z.of_nat nz) (ix, iy, iz) →
  getitem4 data (Z.of_nat i, ix, iy, iz) = Ok v →
  cells data !! offset4 (dims data) i (Z.to_nat ix) (Z.to_nat iy) (Z.to_nat iz) = Some v.
Proof.
  intros Hd Hi Hbox. unfold getitem4.
  rewrite (locate4_in_box _ _ _ _ _ _ _ _ _ Hd Hi Hbox). simpl.
  destruct (cells data !! _); [|done]. by intros [= ->].
Qed.

(** When the stored points cover the mesh, the scatter leaves nothing of
    the background: two boxes scattered from the same data are equal. *)
Lemma scatter_of_covered_eq (box box' : array4 A) (n nx ny nz : Z) (a : array2 A)
    (indices : list (Z * Z * Z)) (bg bg' : Z * Z * Z * Z → A) :
  shape4 box = (n, nx, ny, nz) → shape4 box' = (n, nx, ny, nz) →
  array4_wf box → array4_wf box' →
  covers (nx, ny, nz) indices →
  scatter_of box n (nx, ny, nz) a indices bg →
  scatter_of box' n (nx, ny, nz) a indices bg' →
  box = box'.
Proof.
  intros Hs Hs' Hwf Hwf' Hcov Hsc Hsc'.
  destruct box as [[[[n0 n1] n2] n3] cs], box' as [[[[n0' n1'] n2'] n3'] cs'].
  unfold shape4 in Hs, Hs'. simpl in Hs, Hs'.
  injection Hs as <- <- <- <-. injection Hs' as Hn0 Hn1 Hn2 Hn3.
  apply Nat2Z.inj in Hn0, Hn1, Hn2, Hn3. subst n0' n1' n2' n3'.
  f_equal. unfold array4_wf in Hwf, Hwf'. cbn [cells dims] in Hwf, Hwf'.
  apply list_eq. intros o.
  destruct (decide (o < size4 (n0, n1, n2, n3))) as [Ho|Ho].
  2:{ rewrite !lookup_ge_None_2 by (rewrite ?Hwf, ?Hwf'; lia). done. }
  destruct (offset4_surj _ _ _ _ _ Ho) as (i0 & i1 & i2 & i3 & H0 & H1 & H2 & H3 & ->).
  assert (in_box (Z.of_nat n1, Z.of_nat n2, Z.of_nat n3)
            (Z.of_nat i1, Z.of_nat i2, Z.of_nat i3)) as Hbox by (simpl; lia).
  destruct (exists_last_at indices (Z.of_nat i1, Z.of_nat i2, Z.of_nat i3)) as [ik Hik];
    [by apply Hcov|].
  destruct (Hsc (Z.of_nat i0) _ _ _ ltac:(lia) Hbox) as [Hhit _].
  destruct (Hsc' (Z.of_nat i0) _ _ _ ltac:(lia) Hbox) as [Hhit' _].
  destruct (Hhit ik Hik) as (v & Hv & Hget). destruct (Hhit' ik Hik) as (v' & Hv' & Hget').
  rewrite Hv in Hv'. injection Hv' as <-.
  eapply getitem4_in_box_inv in Hget; [|reflexivity|done|done].
  eapply getitem4_in_box_inv in Hget'; [|reflexivity|done|done].
  cbn [cells dims] in Hget, Hget'. rewrite !Nat2Z.id in Hget, Hget'. by rewrite Hget, Hget'.
Qed.

End BoxBounds.

Section BoxTheorems.
Context `{K : Kmesh}.

Lemma alloc_background (heap : nat → cplx) (fill_value : option cplx) shape d :
  check_shape shape = Ok d →
  match fill_value with None => np_empty heap shape | Some c => np_full shape c end
  = Ok {| dims := d; cells := background heap fill_value <$> seq 0 (size4 d) |}.
Proof.
  intros Hd. destruct fill_value; simpl; [by apply np_full_alloc|by apply np_empty_alloc].
Qed.

(** X8. A stored point whose grid index numpy rejects on some axis of the
    box (outside [-n, n)) makes the scatter raise [IndexError], whatever the
    fill value, as soon as there is one band (one atom). *)
Theorem insert_inbox_index_error (heap : nat → cplx) (p : Polaron) (fill_value : option cplx) :
  Polaron_wf p →
  (∀ ngkpt sh ik idx,
     ngkpt_and_shifts p = Ok (ngkpt, sh) → is_mesh ngkpt → (0 < nb p)%Z →
     ik < length (rows (kpoints p)) →
     kpoints_indices (kpoints p) ngkpt !! ik = Some idx → ¬ addressable ngkpt idx →
     insert_a_inbox heap p fill_value = Raise IndexError) ∧
  (∀ ik idx,
     is_mesh (ngqpt (r (varpeq p))) → 0 < natom (structure (varpeq p)) →
     ik < length (rows (qpoints p)) →
     kpoints_indices (qpoints p) (ngqpt (r (varpeq p))) !! ik = Some idx →
     ¬ addressable (ngqpt (r (varpeq p))) idx →
     insert_b_inbox heap p fill_value = Raise IndexError).
Proof.
  intros (Hpos & (_ & Hk) & (_ & Hq) & (Hawf & Ha) & (Hbwf & Hb)).
  injection Hk as Hk _. injection Hq as Hq _. injection Ha as Ha Hacol. injection Hb as Hb Hbcol.
  split.
  - intros [[nx ny] nz] sh ik idx Hmesh Hm Hnb Hik Hidx Hbad. pose proof Hm as (Hx & Hy & Hz).
    unfold insert_a_inbox. rewrite Hmesh. bind_ok.
    rewrite (alloc_background heap fill_value _ _ (check_shape_ok (nb p) nx ny nz ltac:(lia))).
    bind_ok.
    erewrite scatter_loop_not_addressable; [done|done|exact Hm|done|done|done| |exact Hidx|done].
    lia.
  - intros ik idx Hm Hnat Hik Hidx Hbad.
    unfold insert_b_inbox. destruct (ngqpt (r (varpeq p))) as [[nx ny] nz].
    pose proof Hm as (Hx & Hy & Hz).
    rewrite (alloc_background heap fill_value _ _
               (check_shape_ok (3 * Z.of_nat (natom (structure (varpeq p)))) nx ny nz ltac:(lia))).
    bind_ok.
    erewrite scatter_loop_not_addressable; [done|lia|exact Hm|done| |done| |exact Hidx|done].
    + rewrite Hbcol. lia.
    + lia.
Qed.

(** X9. When the stored points cover the mesh, the box does not depend on
    the fill value nor on what the memory held: [np.empty] and [np.full]
    give the same result. *)
Theorem insert_inbox_covered (heap heap' : nat → cplx) (p : Polaron)
    (fill_value fill_value' : option cplx) :
  Polaron_wf p →
  (∀ ngkpt sh,
     ngkpt_and_shifts p = Ok (ngkpt, sh) → is_mesh ngkpt →
     maps_into_box ngkpt (kpoints p) (kpoints_indices (kpoints p) ngkpt) →
     covers ngkpt (kpoints_indices (kpoints p) ngkpt) →
     ∃ a_data,
       insert_a_inbox heap p fill_value = Ok (a_data, ngkpt, ShiftArray sh) ∧
       insert_a_inbox heap' p fill_value' = Ok (a_data, ngkpt, ShiftArray sh)) ∧
  (let ngqpt := ngqpt (r (varpeq p)) in
   is_mesh ngqpt →
   maps_into_box ngqpt (qpoints p) (kpoints_indices (qpoints p) ngqpt) →
   covers ngqpt (kpoints_indices (qpoints p) ngqpt) →
   ∃ b_data,
     insert_b_inbox heap p fill_value = Ok (b_data, ngqpt, ShiftList [0; 0; 0]%Z) ∧
     insert_b_inbox heap' p fill_value' = Ok (b_data, ngqpt, ShiftList [0; 0; 0]%Z)).
Proof.
  intros Hp. split.
  - intros ngkpt sh Hmesh Hm Hbox Hcov.
    destruct (insert_a_inbox_scatter heap (background heap fill_value) p fill_value ngkpt sh)
      as (a1 & H1 & Hs1 & Hsc1); [apply alloc_background|done..|].
    destruct (insert_a_inbox_scatter heap' (background heap' fill_value') p fill_value' ngkpt sh)
      as (a2 & H2 & Hs2 & Hsc2); [apply alloc_background|done..|].
    exists a1. split; [done|]. rewrite H2. do 3 f_equal.
    destruct ngkpt as [[nx ny] nz].
    symmetry. eapply scatter_of_covered_eq; [exact Hs1|exact Hs2| | |exact Hcov|exact Hsc1|exact Hsc2].
    + eapply insert_a_inbox_wf, H1.
    + eapply insert_a_inbox_wf, H2.
  - intros mesh Hm Hbox Hcov.
    destruct (insert_b_inbox_scatter heap (background heap fill_value) p fill_value)
      as (b1 & H1 & Hs1 & Hsc1); [apply alloc_background|done..|].
    destruct (insert_b_inbox_scatter heap' (background heap' fill_value') p fill_value')
      as (b2 & H2 & Hs2 & Hsc2); [apply alloc_background|done..|].
    exists b1. split; [done|]. rewrite H2. do 3 f_equal.
    fold mesh in Hs1, Hs2, Hsc1, Hsc2. destruct mesh as [[nx ny] nz].
    symmetry. eapply scatter_of_covered_eq; [exact Hs1|exact Hs2| | |exact Hcov|exact Hsc1|exact Hsc2].
    + eapply insert_b_inbox_wf, H1.
    + eapply insert_b_inbox_wf, H2.
Qed.

End BoxTheorems.

(** * The title of a polaron *)

Section TitleOfPolaron.
Context `{G : GapsString}.

Lemma string_length_app (s t : string) :
  String.length (s +:+ t) = String.length s + String.length t.
Proof. induction s as [|c s IH]; simpl; [done|]. by rewrite IH. Qed.

Lemma string_app_inj_r (s1 s2 t : string) : s1 +:+ t = s2 +:+ t → s1 = s2.
Proof.
  revert s2. induction s1 as [|c1 s1 IH]; intros [|c2 s2] Heq; simpl in Heq.
  - done.
  - apply (f_equal String.length) in Heq. rewrite ?string_length_app in Heq. simpl in Heq.
    rewrite ?string_length_app in Heq. lia.
  - apply (f_equal String.length) in Heq. rewrite ?string_length_app in Heq. simpl in Heq.
    rewrite ?string_length_app in Heq. lia.
  - injection Heq as -> Heq. f_equal. by apply IH.
Qed.

(** X10. With several spin channels, two polarons of the same file get the
    same title only if their spin indices are equal: the titles tell the
    spins apart, with or without the gaps. *)
Theorem get_title_tells_spins_apart (p q : Polaron) (with_gaps : bool) :
  varpeq p = varpeq q → eb_nsppol (ebands (varpeq p)) ≠ 1%Z → spin p ≠ spin q →
  get_title p with_gaps ≠ get_title q with_gaps.
Proof.
  intros Hf Hns Hspin Htitle. apply Hspin. unfold get_title in Htitle. rewrite <-Hf in Htitle.
  rewrite !decide_False in Htitle by done.
  assert (("spin=" +:+ str_int (spin p)) = ("spin=" +:+ str_int (spin q))) as Hpre.
  { destruct with_gaps; simpl negb in Htitle; cbv iota in Htitle;
      eapply string_app_inj_r; exact Htitle. }
  apply (inj (String.app "spin=")) in Hpre. by apply (inj pretty) in Hpre.
Qed.

End TitleOfPolaron.

(** * Further properties of the robot *)

Section RobotEdges.
Context `{N : Numerics}.

Lemma comprehension_raises {A B} (f : A → result B) (xs : list A) (e : exn) :
  Forall (λ x, only_raises (λ e', e' = e) (f x)) xs →
  Exists (λ x, f x = Raise e) xs →
  comprehension f xs = Raise e.
Proof.
  intros Hall Hex. induction Hall as [|x xs Hx _ IH]; [by apply Exists_nil in Hex|].
  simpl. destruct (f x) as [y|e'] eqn:Hfx; simpl.
  - apply Exists_cons in Hex as [Hbad|Hex]; [congruence|]. by rewrite IH.
  - by rewrite (Hx e').
Qed.

(** X11. A file on a non-diagonal k-mesh ([mpdivs] is [None]) makes
    [get_kdata_spin] raise [TypeError]: in the sort when the robot has two
    files or more, in the arithmetic on the mesh otherwise. *)
Theorem get_kdata_spin_non_diagonal (robot : VarpeqRobot) (s : Z) :
  Forall (λ f, VarpeqFile_wf f ∧ (0 ≤ s < Z.of_nat (nsppol (r f)))%Z) robot.*2 →
  Exists (λ f, mpdivs (eb_ksampling (ebands f)) = None) robot.*2 →
  get_kdata_spin robot s = Raise TypeError.
Proof.
  intros Hall Hex. unfold get_kdata_spin, sortby. case_decide as Hlen.
  - rewrite length_fmap in Hlen. destruct robot as [|[label f] [|? ?]]; [|clear Hlen|simpl in Hlen; lia].
    { by apply Exists_nil in Hex. }
    simpl in Hall, Hex. apply Forall_singleton in Hall as [Hf Hs]. apply Exists_cons in Hex as [Hm|Hex].
    2:{ by apply Exists_nil in Hex. }
    bind_ok. simpl. destruct (last_iteration_spec f s Hf Hs) as (? & ? & ? & d & _ & _ & _ & -> & _).
    bind_ok. by rewrite Hm.
  - rewrite comprehension_raises with (e := TypeError); [done| |].
    + apply Forall_forall. intros [[label f] k] _ e. simpl. destruct k; congruence.
    + apply Exists_fmap. rewrite Exists_fmap in Hex. eapply Exists_impl; [exact Hex|].
      intros [label f] Hm. simpl in *. unfold sort_func. by rewrite Hm.
Qed.

Lemma sorted_desc_elem_of {A} (key : A → Z) (l : list A) (x : A) :
  x ∈ sorted_desc key l → x ∈ l.
Proof. by rewrite sorted_desc_perm. Qed.

(** X12. With a spin index that the files do not have, [get_kdata_spin] and
    [get_makov_payne_df_spin] of a robot that holds files raise
    [IndexError]. *)
Theorem robot_spin_out_of_range (robot : VarpeqRobot) (s : Z) :
  robot ≠ [] →
  Forall (λ f, VarpeqFile_wf f ∧ ¬ spin_in_range f s ∧
               is_Some (mpdivs (eb_ksampling (ebands f)))) robot.*2 →
  get_kdata_spin robot s = Raise IndexError ∧
  get_makov_payne_df_spin robot s = Raise IndexError.
Proof.
  intros Hne Hall.
  assert (get_kdata_spin robot s = Raise IndexError) as Hk.
  2:{ split; [done|]. unfold get_makov_payne_df_spin. by rewrite Hk. }
  unfold get_kdata_spin. rewrite sortby_ok.
  2:{ eapply Forall_impl; [exact Hall|]. intros f (_ & _ & [m Hm]).
      unfold sort_func. rewrite Hm. by eexists. }
  bind_ok.
  set (items := (λ '(label, abifile), (label, abifile, sort_func abifile)) <$> robot).
  destruct (sorted_desc (λ t : string * VarpeqFile * option Z, default 0%Z t.2) items)
    as [|[[label f] k] rest] eqn:Hsorted.
  { apply (f_equal length) in Hsorted. rewrite sorted_desc_perm in Hsorted.
    unfold items in Hsorted. rewrite length_fmap in Hsorted. by destruct robot. }
  assert (f ∈ robot.*2) as Hin.
  { assert ((label, f, k) ∈ items) as Hin.
    { eapply sorted_desc_elem_of. rewrite Hsorted. by left. }
    unfold items in Hin. apply list_elem_of_fmap in Hin as ([label' f'] & [= -> -> _] & Hin).
    apply list_elem_of_fmap. by exists (label', f'). }
  rewrite Forall_forall in Hall. destruct (Hall f Hin) as (Hf & Hs & _).
  cbn [for_each].
  assert (∀ data, kdata_add s data (label, f, k) = Raise IndexError) as ->; [|done].
  intros data. unfold kdata_add. by rewrite (last_iteration_invalid_spin f s Hf Hs).
Qed.

(** X13. A Makov-Payne extrapolation needs two files: without any file the
    abscissas are missing and the method raises [KeyError]; with one file
    it returns a frame with no row and no column. *)
Theorem makov_payne_needs_two_files (label : string) (f : VarpeqFile) (s : Z) :
  file_ok s f →
  get_makov_payne_df_spin [] s = Raise (KeyError "xs_inv_bohr") ∧
  get_makov_payne_df_spin [(label, f)] s
  = Ok {| df_data := ∅; df_index := []; df_index_name := "npts" |}.
Proof.
  intros Hf. split; [done|].
  destruct (get_kdata_spin_spec [(label, f)] s) as (kdata & files & Hk & Hperm & _ & Hof).
  { by apply Forall_singleton. }
  simpl in Hperm. apply Permutation_singleton_r in Hperm as ->.
  destruct Hof as (_ & _ & Hxs & Hys & _). simpl in Hxs.
  unfold get_makov_payne_df_spin. rewrite Hk. bind_ok.
  assert (getitem_dict (float_cols kdata) "xs_inv_bohr" = Ok [xs_inv_bohr f]) as ->
    by (unfold getitem_dict; by rewrite Hxs).
  bind_ok. simpl length. change (seqZ 1 (1 - 1)) with (@nil Z).
  assert (∀ (ks : list string) (d : gmap string (list float)),
            Forall (λ k, k ∈ keys _ALL_ENTRIES) ks →
            for_each (λ d ylabel,
                        ys ← getitem_dict (float_cols kdata) ylabel;
                        for_each (fit_add [xs_inv_bohr f] ys ylabel) [] d) ks d
            = Ok d) as Hloop.
  { intros ks d Hks. induction Hks as [|k ks Hk' _ IH]; [done|].
    cbn [for_each]. destruct (Hys k Hk') as (ys & Hall & Hcol).
    apply Forall2_length in Hall. destruct ys as [|y ys]; [done|].
    unfold getitem_dict. rewrite Hcol. simpl. exact IH. }
  rewrite Hloop; [done|]. apply Forall_forall. done.
Qed.

Section SortedUnique.
Context {A : Type} (key : A → Z).

Lemma StronglySorted_desc_unique (l1 l2 : list A) :
  StronglySorted (λ a b, (key b ≤ key a)%Z) l1 →
  StronglySorted (λ a b, (key b ≤ key a)%Z) l2 →
  l1 ≡ₚ l2 → NoDup (key <$> l1) → l1 = l2.
Proof.
  intros Hl1. revert l2. induction Hl1 as [|x1 l1 ? IH Hx1]; intros l2 Hl2 E Hnd.
  { symmetry. by apply Permutation_nil. }
  destruct Hl2 as [|x2 l2 ? Hx2].
  { symmetry in E. by apply Permutation_nil_cons in E. }
  rewrite fmap_cons in Hnd. apply NoDup_cons in Hnd as [Hnotin Hnd].
  assert (x1 = x2) as <-.
  { rewrite Forall_forall in Hx1, Hx2.
    assert (x2 ∈ x1 :: l1) as Hx2' by (by rewrite E; left).
    assert (x1 ∈ x2 :: l2) as Hx1' by (by rewrite <-E; left).
    apply elem_of_cons in Hx2' as [->|Hx2']; [done|].
    apply elem_of_cons in Hx1' as [->|Hx1']; [done|].
    destruct Hnotin. replace (key x1) with (key x2) by (specialize (Hx1 _ Hx2'); specialize (Hx2 _ Hx1'); lia).
    apply list_elem_of_fmap. by exists x2. }
  f_equal. apply IH; [done| |done]. by apply (inj (x1 ::.)).
Qed.

Lemma sorted_desc_perm_unique (l1 l2 : list A) :
  l1 ≡ₚ l2 → NoDup (key <$> l1) → sorted_desc key l1 = sorted_desc key l2.
Proof.
  intros E Hnd.
  assert (Transitive (λ a b : A, (key b ≤ key a)%Z)) by (intros a b c ??; lia).
  apply StronglySorted_desc_unique.
  - apply Sorted_StronglySorted; [done|apply sorted_desc_sorted].
  - apply Sorted_StronglySorted; [done|apply sorted_desc_sorted].
  - by rewrite !sorted_desc_perm.
  - by rewrite sorted_desc_perm.
Qed.

End SortedUnique.

Lemma sortby_order_independent (robot robot' : VarpeqRobot) :
  robot ≡ₚ robot' → NoDup (sort_func <$> robot.*2) →
  sortby robot sort_func = sortby robot' sort_func.
Proof.
  intros E Hnd.
  destruct (decide (length robot ≤ 1)) as [Hlen|Hlen].
  { destruct robot as [|x [|? ?]]; [| |simpl in Hlen; lia].
    - by apply Permutation_nil in E as ->.
    - by apply Permutation_singleton_l in E as ->. }
  set (g := λ '(label, abifile), (label, abifile, sort_func abifile) : string * VarpeqFile * option Z).
  set (chk := λ t : string * VarpeqFile * option Z,
                match t.2 with Some v => Ok v | None => Raise TypeError end).
  assert (g <$> robot ≡ₚ g <$> robot') as Eg by (by rewrite E).
  unfold sortby. fold g chk.
  rewrite !decide_False by (rewrite length_fmap, <-?E; done).
  destruct (decide (Forall (λ f, is_Some (sort_func f)) robot.*2)) as [Hall|Hsome].
  - assert (∀ rb : VarpeqRobot, Forall (λ f, is_Some (sort_func f)) rb.*2 →
              ∃ vs, comprehension chk (g <$> rb) = Ok vs) as Hchk.
    { intros rb Hrb. destruct (comprehension_Ok chk (g <$> rb)) as (vs & Hvs & _); [|by exists vs].
      apply Forall_fmap, Forall_forall. intros [label f] Hin.
      rewrite Forall_fmap, Forall_forall in Hrb. destruct (Hrb _ Hin) as [v Hv].
      unfold chk, g. simpl in *. rewrite Hv. by exists v. }
    destruct (Hchk robot Hall) as [vs ->]. destruct (Hchk robot') as [vs' ->]; [by rewrite <-E|].
    bind_ok. f_equal. apply sorted_desc_perm_unique; [done|].
    rewrite <-list_fmap_compose.
    assert (Some <$> ((λ t, default 0%Z t.2) ∘ g <$> robot) = sort_func <$> robot.*2) as Hkeys.
    { rewrite <-!list_fmap_compose. apply Forall_fmap_ext_1, Forall_forall. intros [label f] Hin.
      rewrite Forall_fmap, Forall_forall in Hall. destruct (Hall _ Hin) as [v Hv].
      unfold g. simpl in *. by rewrite Hv. }
    rewrite <-Hkeys in Hnd. by apply (NoDup_fmap_1 Some).
  - assert (∀ rb : VarpeqRobot, rb ≡ₚ robot → comprehension chk (g <$> rb) = Raise TypeError)
      as Hchk.
    { intros rb Erb. apply comprehension_raises.
      - apply Forall_forall. intros [[label f] k] _ e. unfold chk. simpl. destruct k; congruence.
      - apply Exists_fmap. apply not_Forall_Exists in Hsome; [|apply _].
        rewrite Exists_fmap in Hsome. rewrite Erb. eapply Exists_impl; [exact Hsome|].
        intros [label f] Hm. unfold chk, g. simpl in *.
        destruct (sort_func f); [|done]. destruct Hm. by eexists. }
    by rewrite !Hchk.
Qed.

(** X14. The result does not depend on the order in which the files were
    added to the robot, as long as no two files have the same number of
    k-points: [get_kdata_spin] and [get_makov_payne_df_spin] give the same
    arrays, or raise the same exception, for a reordered robot. *)
Theorem robot_order_independent (robot robot' : VarpeqRobot) (s : Z) :
  robot ≡ₚ robot' → NoDup (sort_func <$> robot.*2) →
  get_kdata_spin robot s = get_kdata_spin robot' s ∧
  get_makov_payne_df_spin robot s = get_makov_payne_df_spin robot' s.
Proof.
  intros E Hnd.
  assert (get_kdata_spin robot s = get_kdata_spin robot' s) as Hk.
  { unfold get_kdata_spin. by rewrite (sortby_order_independent robot robot'). }
  split; [done|]. unfold get_makov_payne_df_spin. by rewrite Hk.
Qed.

End RobotEdges.

(** * The polaron holds the leading block of the arrays of the file *)

Section LeadingBlock.
Context `{N : Numerics}.

Lemma getitem1_take {A} (l : list A) (k : nat) (i : Z) :
  (0 ≤ i < Z.of_nat (length (take k l)))%Z → getitem1 (take k l) i = getitem1 l i.
Proof.
  intros Hi. pose proof (length_take_le l k) as Hle. rewrite length_take in Hi.
  unfold getitem1. rewrite !np_index_nonneg by (rewrite ?length_take; lia). bind_ok.
  by rewrite lookup_take_lt by lia.
Qed.

Lemma getitem2_slice_rows_cols {A} (a : array2 A) (n m i j : Z) :
  (0 ≤ i < Z.of_nat (length (rows (slice_rows_cols n m a))))%Z →
  (0 ≤ j < Z.of_nat (ncol (slice_rows_cols n m a)))%Z →
  ncol (slice_rows_cols n m a) ≤ ncol a →
  getitem2 (slice_rows_cols n m a) i j = getitem2 a i j.
Proof.
  unfold slice_rows_cols, slice_to. simpl. rewrite length_fmap. intros Hi Hj Hle.
  pose proof (length_take_le (rows a) (slice_stop (length (rows a)) n)) as Hle'.
  rewrite length_take in Hi.
  unfold getitem2. simpl. rewrite length_fmap.
  rewrite !np_index_nonneg by (rewrite ?length_take; lia). bind_ok.
  rewrite list_lookup_fmap, lookup_take_lt by lia.
  destruct (rows a !! Z.to_nat i) as [row'|]; simpl; [|done].
  by rewrite lookup_take_lt by lia.
Qed.

Lemma slice_stop_le (len : nat) (n : Z) : slice_stop len n ≤ len.
Proof. unfold slice_stop. case_decide; lia. Qed.

(** X15. [from_varpeq] neither reorders nor rescales: every entry of the
    arrays of the polaron is the entry at the same position of the arrays
    the file holds for that spin. *)
Theorem from_varpeq_leading_block (f : VarpeqFile) (s : Z) (p : Polaron) :
  from_varpeq f s = Ok p →
  ∃ kpts qpts a b,
    getitem1 (var_kpts_spin (nc (r f))) s = Ok kpts ∧
    getitem1 (var_qpts_spin (nc (r f))) s = Ok qpts ∧
    getitem1 (var_a_spin (nc (r f))) s = Ok a ∧
    getitem1 (var_b_spin (nc (r f))) s = Ok b ∧
    (∀ ik, (0 ≤ ik < Z.of_nat (length (rows (kpoints p))))%Z →
           row (kpoints p) ik = row kpts ik) ∧
    (∀ iq, (0 ≤ iq < Z.of_nat (length (rows (qpoints p))))%Z →
           row (qpoints p) iq = row qpts iq) ∧
    (∀ ik ib, (0 ≤ ik < Z.of_nat (length (rows (a_kn p))))%Z →
              (0 ≤ ib < Z.of_nat (ncol (a_kn p)))%Z →
              getitem2 (a_kn p) ik ib = getitem2 a ik ib) ∧
    (∀ iq, (0 ≤ iq < Z.of_nat (length (rows (b_qnu p))))%Z →
           row (b_qnu p) iq = row b iq).
Proof.
  unfold from_varpeq.
  destruct (getitem1 (nk_spin _) _) as [nk|]; [|done]. bind_ok.
  destruct (getitem1 (nq_spin _) _) as [nq|]; [|done]. bind_ok.
  destruct (getitem1 (nb_spin _) _) as [nb|]; [|done]. bind_ok.
  destruct (getitem1 (brange_spin _) _) as [[bstart bstop]|]; [|done]. bind_ok.
  destruct (getitem1 (var_kpts_spin _) _) as [kpts|]; [|done]. simpl.
  destruct (getitem1 (var_qpts_spin _) _) as [qpts|]; [|done]. simpl.
  destruct (getitem1 (var_a_spin _) _) as [a|]; [|done]. simpl.
  destruct (getitem1 (var_b_spin _) _) as [b|]; [|done]. simpl.
  intros [= <-]. exists kpts, qpts, a, b. simpl. split_and!; try done.
  - intros ik Hik. by apply getitem1_take.
  - intros iq Hiq. by apply getitem1_take.
  - intros ik ib Hik Hib. apply getitem2_slice_rows_cols; [done|done|]. apply slice_stop_le.
  - intros iq Hiq. by apply getitem1_take.
Qed.

End LeadingBlock.

(** * The development at work: exact rationals

    Each statement above applied to the example files. *)

(** ** The example files are well formed *)

Lemma example_nc_wf (mesh : Z * Z * Z) (e : Q) : NcFile_wf (example_nc mesh e).
Proof.
  exists 3, 2, 1, 1. unfold has_shape, array2_wf. simpl.
  split_and!; repeat constructor; simpl; lia.
Qed.

Lemma example_file_ok (path : string) (mesh : Z * Z * Z) (e : Q) :
  file_ok 0 (VarpeqFile_init path (example_nc mesh e)).
Proof.
  unfold file_ok, VarpeqFile_wf. split; [split|split].
  - reflexivity.
  - apply example_nc_wf.
  - simpl. lia.
  - by eexists.
Qed.

Lemma example_polaron_wf : Polaron_wf example_polaron.
Proof.
  unfold Polaron_wf, array2_wf. vm_compute. split_and!; repeat constructor; try done.
Qed.

Lemma example_kpoints_in_box :
  maps_into_box (2, 1, 1)%Z (kpoints example_polaron)
    (kpoints_indices (kpoints example_polaron) (2, 1, 1)%Z).
Proof. split; [reflexivity|]. vm_compute. repeat constructor; done. Qed.

Lemma example_qpoints_in_box :
  maps_into_box (1, 1, 1)%Z (qpoints example_polaron)
    (kpoints_indices (qpoints example_polaron) (1, 1, 1)%Z).
Proof. split; [reflexivity|]. vm_compute. repeat constructor; done. Qed.

Lemma example_kpoints_cover :
  covers (2, 1, 1)%Z (kpoints_indices (kpoints example_polaron) (2, 1, 1)%Z).
Proof.
  intros [[ix iy] iz] (Hx & Hy & Hz).
  replace iy with 0%Z by lia. replace iz with 0%Z by lia.
  assert (ix = 0 ∨ ix = 1)%Z as [-> | ->] by lia; vm_compute.
  - by left.
  - right. by left.
Qed.

Lemma example_qpoints_cover :
  covers (1, 1, 1)%Z (kpoints_indices (qpoints example_polaron) (1, 1, 1)%Z).
Proof.
  intros [[ix iy] iz] (Hx & Hy & Hz).
  replace ix with 0%Z by lia. replace iy with 0%Z by lia. replace iz with 0%Z by lia.
  vm_compute. by left.
Qed.

Lemma example_kpoints_on_mesh :
  on_mesh (2, 1, 1)%Z (kpoints example_polaron)
    (kpoints_indices (kpoints example_polaron) (2, 1, 1)%Z).
Proof. repeat constructor. Qed.

Lemma example_qpoints_on_mesh :
  on_mesh (1, 1, 1)%Z (qpoints example_polaron)
    (kpoints_indices (qpoints example_polaron) (1, 1, 1)%Z).
Proof. repeat constructor. Qed.

(** ** C1 on the example polaron *)

Lemma insert_inbox_fill_value_example :
  (∃ a_data,
     insert_a_inbox example_heap example_polaron (Some (0, 0)%Q)
     = Ok (a_data, (2, 1, 1)%Z, ShiftArray [[0; 0; 0]%Q]) ∧
     shape4 a_data = (nb example_polaron, 2, 1, 1)%Z ∧
     scatter_of a_data (nb example_polaron) (2, 1, 1)%Z (a_kn example_polaron)
       (kpoints_indices (kpoints example_polaron) (2, 1, 1)%Z) (λ _, (0, 0)%Q)) ∧
  (∃ b_data,
     insert_b_inbox example_heap example_polaron (Some (0, 0)%Q)
     = Ok (b_data, (1, 1, 1)%Z, ShiftList [0; 0; 0]%Z) ∧
     shape4 b_data = (3, 1, 1, 1)%Z ∧
     scatter_of b_data 3 (1, 1, 1)%Z (b_qnu example_polaron)
       (kpoints_indices (qpoints example_polaron) (1, 1, 1)%Z) (λ _, (0, 0)%Q)).
Proof.
  destruct (insert_inbox_fill_value example_heap example_polaron (0, 0)%Q example_polaron_wf)
    as [Ha Hb].
  split.
  - apply (Ha (2, 1, 1)%Z [[0; 0; 0]%Q]);
      [reflexivity | vm_compute; done | apply example_kpoints_in_box].
  - apply Hb; [vm_compute; done | apply example_qpoints_in_box].
Defined.

(** ** C10 on the example polaron, read on a mesh twice as fine *)

Lemma sparse_polaron_wf : Polaron_wf sparse_polaron.
Proof.
  unfold Polaron_wf, array2_wf. vm_compute. split_and!; repeat constructor; try done.
Qed.

Lemma insert_inbox_uninitialised_example :
  (∀ heap : nat → cplx, ∃ a_data,
     insert_a_inbox heap sparse_polaron None
     = Ok (a_data, (4, 1, 1)%Z, ShiftArray [[0; 0; 0]%Q]) ∧
     getitem4 a_data (0, 1, 0, 0)%Z = Ok (heap 1) ∧
     get_a2_interpolator heap sparse_polaron
     = Ok (BzRegularGridInterpolator (structure (varpeq sparse_polaron))
             (ShiftArray [[0; 0; 0]%Q]) (map4 abs2 a_data)) ∧
     getitem4 (map4 abs2 a_data) (0, 1, 0, 0)%Z = Ok (abs2 (heap 1))) ∧
  (∀ heap : nat → cplx, ∃ b_data,
     insert_b_inbox heap sparse_polaron None
     = Ok (b_data, (2, 1, 1)%Z, ShiftList [0; 0; 0]%Z) ∧
     getitem4 b_data (2, 1, 0, 0)%Z = Ok (heap 5) ∧
     get_b2_interpolator heap sparse_polaron
     = Ok (BzRegularGridInterpolator (structure (varpeq sparse_polaron))
             (ShiftList [0; 0; 0]%Z) (map4 abs2 b_data)) ∧
     getitem4 (map4 abs2 b_data) (2, 1, 0, 0)%Z = Ok (abs2 (heap 5))).
Proof.
  destruct (insert_inbox_uninitialised sparse_polaron sparse_polaron_wf) as [Ha Hb].
  split.
  - apply (Ha (4, 1, 1)%Z [[0; 0; 0]%Q] 0%Z 1%Z 0%Z 0%Z).
    + reflexivity.
    + vm_compute; done.
    + split; [reflexivity|]. vm_compute. repeat constructor; done.
    + vm_compute; done.
    + vm_compute; done.
    + vm_compute. intros Hin. repeat (apply elem_of_cons in Hin as [[=]|Hin]).
      by apply elem_of_nil in Hin.
  - apply (Hb 2%Z 1%Z 0%Z 0%Z).
    + vm_compute; done.
    + split; [reflexivity|]. vm_compute. repeat constructor; done.
    + vm_compute; done.
    + vm_compute; done.
    + vm_compute. intros Hin. repeat (apply elem_of_cons in Hin as [[=]|Hin]).
      by apply elem_of_nil in Hin.
Defined.

(** ** C3 on the example polaron, and where the claim as stated fails *)

Lemma squared_modulus_interpolators_example :
  (covers (2, 1, 1)%Z (kpoints_indices (kpoints example_polaron) (2, 1, 1)%Z) ∧
   interpolates (λ heap, insert_a_inbox heap example_polaron None)
     (λ heap, get_a2_interpolator heap example_polaron)
     (structure (varpeq example_polaron)) (ShiftArray [[0; 0; 0]%Q])
     (nb example_polaron) (2, 1, 1)%Z (a_kn example_polaron) (kpoints example_polaron)) ∧
  (covers (1, 1, 1)%Z (kpoints_indices (qpoints example_polaron) (1, 1, 1)%Z) ∧
   interpolates (λ heap, insert_b_inbox heap example_polaron None)
     (λ heap, get_b2_interpolator heap example_polaron)
     (structure (varpeq example_polaron)) (ShiftList [0; 0; 0]%Z)
     3 (1, 1, 1)%Z (b_qnu example_polaron) (qpoints example_polaron)).
Proof.
  destruct (squared_modulus_interpolators example_polaron example_polaron_wf) as [Ha Hb].
  split.
  - split; [apply example_kpoints_cover|].
    apply (Ha (2, 1, 1)%Z [[0; 0; 0]%Q]);
      [reflexivity | vm_compute; done | apply example_kpoints_in_box
      | apply example_kpoints_on_mesh].
  - split; [apply example_qpoints_cover|].
    apply Hb; [vm_compute; done | apply example_qpoints_in_box | apply example_qpoints_on_mesh].
Defined.

(** Between two nodes the interpolator blends their values: halfway
    between the two stored k-points of the example, whose squared moduli are
    1 and 4, it gives 5/2. *)
Lemma a2_interpolator_between_nodes :
  ∃ interp,
    get_a2_interpolator example_heap example_polaron = Ok interp ∧
    eval_kpoint interp [0; 0; 0]%Q = Ok [1%Q] ∧
    eval_kpoint interp [1 # 2; 0; 0]%Q = Ok [4%Q] ∧
    eval_kpoint interp [1 # 4; 0; 0]%Q = Ok [(5 # 2)%Q].
Proof. eexists. split; [vm_compute; reflexivity|]. split_and!; vm_compute; reflexivity. Qed.

(** The k-point stored twice is the node of the 1 x 1 x 1 mesh, which the
    stored points cover; the interpolator evaluated at it gives the squared
    modulus of the second coefficient, not of the first. *)
Lemma a2_interpolator_overwritten :
  Polaron_wf twice_stored ∧
  maps_into_box (1, 1, 1)%Z (kpoints twice_stored)
    (kpoints_indices (kpoints twice_stored) (1, 1, 1)%Z) ∧
  on_mesh (1, 1, 1)%Z (kpoints twice_stored)
    (kpoints_indices (kpoints twice_stored) (1, 1, 1)%Z) ∧
  covers (1, 1, 1)%Z (kpoints_indices (kpoints twice_stored) (1, 1, 1)%Z) ∧
  rows (kpoints twice_stored) !! 0 = Some [0; 0; 0]%Q ∧
  (∃ interp,
     get_a2_interpolator example_heap twice_stored = Ok interp ∧
     eval_kpoint interp [0; 0; 0]%Q = Ok [4%Q]) ∧
  comprehension (λ ib, abs2 <$> getitem2 (a_kn twice_stored) 0 ib) (range (nb twice_stored))
  = Ok [1%Q].
Proof.
  split_and!.
  - unfold Polaron_wf, array2_wf. vm_compute. split_and!; repeat constructor; try done.
  - split; [reflexivity|]. vm_compute. repeat constructor; done.
  - repeat constructor.
  - intros [[ix iy] iz] (Hx & Hy & Hz).
    replace ix with 0%Z by lia. replace iy with 0%Z by lia. replace iz with 0%Z by lia.
    vm_compute. by left.
  - reflexivity.
  - eexists. split; [vm_compute; reflexivity|]. vm_compute. reflexivity.
  - vm_compute. reflexivity.
Qed.

(** ** C5 and C7 on the example file *)

Lemma get_last_iteration_dict_ev_example :
  ∃ nstep2cv iter_rec rec d,
    var_nstep2cv (nc (r example_file)) !! Z.to_nat 0 = Some nstep2cv ∧
    var_iter_rec (nc (r example_file)) !! Z.to_nat 0 = Some iter_rec ∧
    rows iter_rec !! Z.to_nat (nstep2cv - 1) = Some rec ∧
    get_last_iteration_dict_ev example_file 0 = Ok d ∧
    keys d = ["E_pol"; "E_el"; "E_ph"; "elph"; "epsilon"] ∧
    ∀ j key, keys d !! j = Some key →
      ∃ x, rec !! j = Some x ∧ d !! j = Some (key, fmul x Ha_eV).
Proof.
  apply (get_last_iteration_dict_ev_spec example_file 0).
  - split; [reflexivity|apply example_nc_wf].
  - simpl. lia.
Defined.

Lemma polaron_spin_example :
  ∃ ps,
    polaron_spin example_file = Ok ps ∧ length ps = nsppol (r example_file) ∧
    ∀ i p, ps !! i = Some p →
      spin p = Z.of_nat i ∧
      shape2 (kpoints p) = (Z.to_nat (nk p), 3) ∧
      shape2 (qpoints p) = (Z.to_nat (nq p), 3) ∧
      shape2 (a_kn p) = (Z.to_nat (nk p), Z.to_nat (nb p)) ∧
      shape2 (b_qnu p) = (Z.to_nat (nq p), 3 * natom (structure example_file)) ∧
      (0 ≤ nk p ∧ 0 ≤ nq p ∧ 0 ≤ nb p)%Z ∧
      nb p = (bstop p - bstart p)%Z ∧
      ∃ b, var_brange_spin (nc (r example_file)) !! i = Some b ∧
           bstart p = (b.1 - 1)%Z ∧ bstop p = b.2.
Proof.
  apply (polaron_spin_spec example_file).
  split; [reflexivity|apply example_nc_wf].
Defined.

(** ** C8, C9 and C6: where the claims as stated fail, and C6 at work *)

(** With two spin channels the title fails on [self.spin], not on a name. *)
Lemma get_title_spin_attribute_error :
  get_title_spin spin_polarized 0 = Raise (AttributeError "spin") ∧
  plot_scf_cycle spin_polarized = Raise (AttributeError "spin").
Proof. split; reflexivity. Qed.

(** With two k-shifts [write_a2_bxsf] fails in [ngkpt_and_shifts]. *)
Lemma write_a2_bxsf_value_error :
  write_a2_bxsf example_heap two_shifts "a2.bxsf" example_disk
  = (Raise (ValueError "Multiple k-shifts are not supported!"), example_disk).
Proof. rewrite write_a2_bxsf_raises. reflexivity. Qed.

(** [write_notebook] creates the notebook. *)
Lemma write_notebook_creates_a_file :
  example_disk !! "varpeq.ipynb" = None ∧
  session example_heap [WriteNotebook example_file (Some "varpeq.ipynb")] example_disk
    !! "varpeq.ipynb"
  = Some (Notebook [ "import abipy.abilab as abilab";
                     "varpeq = abilab.abiopen('out_VARPEQ.nc')"; "print(varpeq)" ]).
Proof. split; reflexivity. Qed.

Lemma only_notebooks_are_written_example :
  session example_heap
    [ Open "out_VARPEQ.nc"; PolaronSpin example_file;
      GetLastIterationDictEv example_file 0; PlotScfCycle example_file;
      InsertAInbox example_polaron None; GetA2Interpolator example_polaron;
      WriteA2Bxsf example_polaron "a2.bxsf"; WriteB2Bxsf example_polaron "b2.bxsf";
      GetMakovPayneDfSpin example_robot 0 ]
    example_disk
  = example_disk.
Proof.
  apply (only_notebooks_are_written example_heap). repeat constructor.
Defined.

(** ** C4 and C2 on the example robot *)

(** A robot without files has no abscissas to fit. *)
Lemma makov_payne_empty_robot (s : Z) :
  get_makov_payne_df_spin ([] : VarpeqRobot) s = Raise (KeyError "xs_inv_bohr").
Proof. reflexivity. Qed.

Lemma example_robot_ok : Forall (file_ok 0) example_robot.*2.
Proof.
  unfold example_robot. simpl.
  do 3 (constructor; [apply example_file_ok|]). constructor.
Qed.

Lemma get_kdata_spin_sorted_example :
  ∃ kdata files,
    get_kdata_spin example_robot 0 = Ok kdata ∧
    files ≡ₚ example_robot.*2 ∧
    kdata_of 0 files kdata ∧
    Sorted (λ a b, (b ≤ a)%Z) (nk_tot <$> files).
Proof. apply (get_kdata_spin_sorted example_robot 0), example_robot_ok. Defined.

Lemma makov_payne_intercepts_example :
  ∃ kdata xs df,
    get_kdata_spin example_robot 0 = Ok kdata ∧
    float_cols kdata !! "xs_inv_bohr" = Some xs ∧ length xs = length example_robot ∧
    get_makov_payne_df_spin example_robot 0 = Ok df ∧
    df_index df = seqZ 2 (Z.of_nat (length example_robot) - 1) ∧
    df_index_name df = "npts" ∧
    ∀ (npts : nat) ylabel,
      2 ≤ npts ≤ length example_robot → ylabel ∈ keys _ALL_ENTRIES →
      ∃ ys, float_cols kdata !! ylabel = Some ys ∧
            df_loc df (Z.of_nat npts) ylabel = Some (intercept xs ys npts).
Proof.
  apply (makov_payne_intercepts example_robot 0); [apply example_robot_ok|done].
Defined.
(** ** The further statements on the example files *)

Lemma example_file_wf (path : string) (mesh : Z * Z * Z) (e : Q) :
  VarpeqFile_wf (VarpeqFile_init path (example_nc mesh e)).
Proof. split; [reflexivity|apply example_nc_wf]. Qed.

Lemma spin_polarized_wf : VarpeqFile_wf spin_polarized.
Proof.
  split; [reflexivity|]. exists 3, 2, 1, 1. unfold has_shape, array2_wf. simpl.
  split_and!; repeat constructor; simpl; lia.
Qed.

Lemma non_diagonal_file_wf : VarpeqFile_wf non_diagonal_file.
Proof.
  split; [reflexivity|]. exists 3, 2, 1, 1. unfold has_shape, array2_wf. simpl.
  split_and!; repeat constructor; simpl; lia.
Qed.

Lemma empty_mesh_polaron_wf : Polaron_wf empty_mesh_polaron.
Proof.
  unfold Polaron_wf, array2_wf. vm_compute. split_and!; repeat constructor; try done.
Qed.

Lemma spin_out_of_range_example :
  from_varpeq example_file 1 = Raise IndexError ∧
  get_last_iteration_dict_ev example_file 1 = Raise IndexError.
Proof.
  apply (spin_out_of_range example_file 1).
  - apply example_file_wf.
  - unfold spin_in_range, valid_index. simpl. lia.
Defined.

Lemma negative_spin_wraps_example :
  (∃ p, from_varpeq spin_polarized (-1 + 2) = Ok p ∧
        from_varpeq spin_polarized (-1) = Ok (with_spin (-1) p)) ∧
  (∃ d, get_last_iteration_dict_ev spin_polarized (-1 + 2) = Ok d ∧
        get_last_iteration_dict_ev spin_polarized (-1) = Ok d).
Proof.
  apply (negative_spin_wraps spin_polarized (-1)).
  - apply spin_polarized_wf.
  - simpl. lia.
Defined.

Lemma last_iteration_without_steps_example :
  get_last_iteration_dict_ev (scf_file 0) 0
  = Ok (zip (keys _ALL_ENTRIES) ((λ x, fmul x Ha_eV) <$> [0; 0; 0; 0; 0; 0]%Q)).
Proof.
  apply (last_iteration_without_steps (scf_file 0) 0
           {| ncol := 6;
              rows := [ [1; 2; 3; 4; 5; 6]%Q; [10; 1; 2; 3; 4; 0]%Q; [0; 0; 0; 0; 0; 0]%Q ] |});
    reflexivity.
Defined.

Lemma last_iteration_beyond_record_example :
  get_last_iteration_dict_ev (scf_file 4) 0 = Raise IndexError.
Proof.
  apply (last_iteration_beyond_record (scf_file 4) 0 4
           {| ncol := 6;
              rows := [ [1; 2; 3; 4; 5; 6]%Q; [10; 1; 2; 3; 4; 0]%Q; [0; 0; 0; 0; 0; 0]%Q ] |});
    [reflexivity|reflexivity|].
  unfold valid_index. simpl. lia.
Defined.

Lemma polaron_spin_wf_example :
  ∃ ps, polaron_spin spin_polarized = Ok ps ∧
        Forall (λ p, Polaron_wf p ∧ varpeq p = spin_polarized) ps.
Proof. apply (polaron_spin_wf spin_polarized), spin_polarized_wf. Defined.

Lemma plot_scf_cycle_fails_on_title_example :
  plot_scf_cycle example_file = Raise (title_error example_file).
Proof.
  apply (plot_scf_cycle_fails_on_title example_file).
  - apply example_file_wf.
  - simpl. lia.
Defined.

Lemma insert_inbox_index_error_example :
  insert_a_inbox example_heap empty_mesh_polaron (Some (0, 0)%Q) = Raise IndexError ∧
  insert_b_inbox example_heap empty_mesh_polaron (Some (0, 0)%Q) = Raise IndexError.
Proof.
  destruct (insert_inbox_index_error example_heap empty_mesh_polaron (Some (0, 0)%Q)
              empty_mesh_polaron_wf) as [Ha Hb].
  split.
  - apply (Ha (0, 1, 1)%Z [[0; 0; 0]%Q] 0 (0, 0, 0)%Z).
    + reflexivity.
    + vm_compute; done.
    + simpl. lia.
    + simpl. lia.
    + reflexivity.
    + unfold addressable, valid_index. lia.
  - apply (Hb 0 (0, 0, 0)%Z).
    + vm_compute; done.
    + simpl. lia.
    + simpl. lia.
    + reflexivity.
    + unfold addressable, valid_index. simpl. lia.
Defined.

Lemma insert_inbox_covered_example :
  (∃ a_data,
     insert_a_inbox example_heap example_polaron None
     = Ok (a_data, (2, 1, 1)%Z, ShiftArray [[0; 0; 0]%Q]) ∧
     insert_a_inbox (λ _, (5, 5)%Q) example_polaron (Some (0, 0)%Q)
     = Ok (a_data, (2, 1, 1)%Z, ShiftArray [[0; 0; 0]%Q])) ∧
  (∃ b_data,
     insert_b_inbox example_heap example_polaron None
     = Ok (b_data, (1, 1, 1)%Z, ShiftList [0; 0; 0]%Z) ∧
     insert_b_inbox (λ _, (5, 5)%Q) example_polaron (Some (0, 0)%Q)
     = Ok (b_data, (1, 1, 1)%Z, ShiftList [0; 0; 0]%Z)).
Proof.
  destruct (insert_inbox_covered example_heap (λ _, (5, 5)%Q) example_polaron None
              (Some (0, 0)%Q) example_polaron_wf) as [Ha Hb].
  split.
  - apply (Ha (2, 1, 1)%Z [[0; 0; 0]%Q]);
      [reflexivity | vm_compute; done | apply example_kpoints_in_box | apply example_kpoints_cover].
  - apply Hb; [vm_compute; done | apply example_qpoints_in_box | apply example_qpoints_cover].
Defined.

Lemma get_title_tells_spins_apart_example :
  get_title (polaron_of spin_polarized 0) true ≠ get_title (polaron_of spin_polarized 1) true.
Proof.
  apply (get_title_tells_spins_apart (polaron_of spin_polarized 0) (polaron_of spin_polarized 1) true).
  - reflexivity.
  - simpl. lia.
  - simpl. lia.
Defined.

Lemma get_kdata_spin_non_diagonal_example :
  get_kdata_spin mixed_robot 0 = Raise TypeError.
Proof.
  apply (get_kdata_spin_non_diagonal mixed_robot 0).
  - unfold mixed_robot. simpl. repeat constructor; try (simpl; lia).
    + apply example_file_wf.
    + apply non_diagonal_file_wf.
  - unfold mixed_robot. simpl. apply Exists_cons_tl, Exists_cons_hd. reflexivity.
Defined.

Lemma robot_spin_out_of_range_example :
  get_kdata_spin example_robot 1 = Raise IndexError ∧
  get_makov_payne_df_spin example_robot 1 = Raise IndexError.
Proof.
  apply (robot_spin_out_of_range example_robot 1); [done|].
  unfold example_robot. simpl.
  repeat constructor; try apply example_file_wf; try (unfold spin_in_range, valid_index; simpl; lia);
    by eexists.
Defined.

Lemma makov_payne_needs_two_files_example :
  get_makov_payne_df_spin [] 0 = Raise (KeyError "xs_inv_bohr") ∧
  get_makov_payne_df_spin
    [("2x2x2", VarpeqFile_init "a_VARPEQ.nc" (example_nc (2, 2, 2)%Z 10%Q))] 0
  = Ok {| df_data := ∅; df_index := []; df_index_name := "npts" |}.
Proof.
  apply (makov_payne_needs_two_files "2x2x2"
           (VarpeqFile_init "a_VARPEQ.nc" (example_nc (2, 2, 2)%Z 10%Q)) 0).
  apply example_file_ok.
Defined.

Lemma robot_order_independent_example :
  get_kdata_spin example_robot 0 = get_kdata_spin (reverse example_robot) 0 ∧
  get_makov_payne_df_spin example_robot 0 = get_makov_payne_df_spin (reverse example_robot) 0.
Proof.
  apply (robot_order_independent example_robot (reverse example_robot) 0).
  - by rewrite reverse_Permutation.
  - assert (sort_func <$> example_robot.*2 = [Some 8; Some 64; Some 27]%Z) as -> by reflexivity.
    repeat (apply NoDup_cons; split;
              [intros Hin; repeat (apply elem_of_cons in Hin as [[=]|Hin]); by apply elem_of_nil in Hin|]).
    apply NoDup_nil_2.
Defined.

Lemma from_varpeq_leading_block_example :
  ∃ kpts qpts a b,
    getitem1 (var_kpts_spin (nc (r example_file))) 0 = Ok kpts ∧
    getitem1 (var_qpts_spin (nc (r example_file))) 0 = Ok qpts ∧
    getitem1 (var_a_spin (nc (r example_file))) 0 = Ok a ∧
    getitem1 (var_b_spin (nc (r example_file))) 0 = Ok b ∧
    (∀ ik, (0 ≤ ik < Z.of_nat (length (rows (kpoints example_polaron))))%Z →
           row (kpoints example_polaron) ik = row kpts ik) ∧
    (∀ iq, (0 ≤ iq < Z.of_nat (length (rows (qpoints example_polaron))))%Z →
           row (qpoints example_polaron) iq = row qpts iq) ∧
    (∀ ik ib, (0 ≤ ik < Z.of_nat (length (rows (a_kn example_polaron))))%Z →
              (0 ≤ ib < Z.of_nat (ncol (a_kn example_polaron)))%Z →
              getitem2 (a_kn example_polaron) ik ib = getitem2 a ik ib) ∧
    (∀ iq, (0 ≤ iq < Z.of_nat (length (rows (b_qnu example_polaron))))%Z →
           row (b_qnu example_polaron) iq = row b iq).
Proof. apply (from_varpeq_leading_block example_file 0 example_polaron). reflexivity. Defined.
